(** * HddCreate: creation of a zero-filled hard-disk image

    A shallow embedding of [pcsx2/DEV9/ATA/HddCreate.cpp].

    The worker [HddCreate::WriteImage] is embedded as a function in a small
    state monad with early return.  The state holds the fields of the
    [HddCreate] object the worker touches, the file system, the output
    stream [newImage] and the log of every interaction with the outside
    world.  Everything the worker cannot decide by itself (whether an I/O
    call succeeds, what the steady clock shows, what another thread stored
    in the cancel latch) is read from an environment [Env], over which the
    theorems quantify.

    Integers are modelled as [Z] with the wrap-around of the C++ types
    written out: [u64] for unsigned 64-bit arithmetic, [s32] and [s64] for
    the conversions to [s32]/[int] and to [std::streamoff].  Signed overflow
    of an [int] product wraps as well.

    What is assumed of the libraries: a file extended by a write past its
    end reads as zero in between; a seek to a negative offset fails; a
    failed stream ignores seeks and writes; [fs::remove] removes; the steady
    clock counts nanoseconds.

    The file has three parts: the embedding, the vocabulary of the proofs
    (predicates on states and logs, concrete environments, tactics), and the
    proofs, which end with the claims C1 to C10. *)

From Stdlib Require Import ZArith Lia List String Bool Sorted.
Import ListNotations.
Local Open Scope string_scope.
Local Open Scope list_scope.
Local Open Scope Z_scope.

(** ** Machine integers *)

Module MachineInt.

Definition u64 (z : Z) : Z := z mod 2 ^ 64.
Definition s32 (z : Z) : Z := (z + 2 ^ 31) mod 2 ^ 32 - 2 ^ 31.
Definition s64 (z : Z) : Z := (z + 2 ^ 63) mod 2 ^ 64 - 2 ^ 63.

(** The value of a [u64] variable. *)
Definition is_u64 (z : Z) : Prop := 0 <= z < 2 ^ 64.

End MachineInt.
Import MachineInt.

(** ** Files, the file system and the output stream *)

(** A file is its length and its bytes; a byte that was never written (a
    hole left by seeking past the end before writing) reads as zero. *)
Record File := mkFile { f_size : Z; f_data : Z -> Z }.

Definition empty_file : File := mkFile 0 (fun _ => 0).

(** [count] bytes of [buf] stored at offset [pos]. *)
Definition file_write (f : File) (pos : Z) (buf : Z -> Z) (count : Z) : File :=
  mkFile (Z.max (f_size f) (pos + count))
         (fun o => if (pos <=? o) && (o <? pos + count)
                   then buf (o - pos) else f_data f o).

Definition zero_filled (f : File) : Prop :=
  forall o, 0 <= o < f_size f -> f_data f o = 0.

Definition FileSystem := string -> option File.

Definition fs_exists (fs : FileSystem) (p : string) : bool :=
  match fs p with Some _ => true | None => false end.

Definition fs_put (fs : FileSystem) (p : string) (f : File) : FileSystem :=
  fun q => if String.eqb q p then Some f else fs q.

Definition fs_remove (fs : FileSystem) (p : string) : FileSystem :=
  fun q => if String.eqb q p then None else fs q.

(** The part of a [std::fstream] the worker depends on: the file it was
    opened on, the put position, and [fail()] (failbit or badbit). *)
Record fstream := mkStream { s_path : string; s_pos : Z; s_fail : bool }.

(** ** The object, the environment and the log *)

(** The fields of [HddCreate] used by the worker.  [canceled] is stored by
    the thread running [Start]; the worker only loads it, so its value at
    each load belongs to the environment. *)
Record HddCreate := mkHdd {
  filePath : string;
  neededSize : Z;
  written : Z;
  errored : bool;
  lastUpdate : Z
}.

(** The places where [WriteImage] calls into the stream. *)
Inductive Site :=
| SizeSeek                      (* seekp(reqSizeBytes - 1) *)
| SizeByte                      (* write(&zero, 1) *)
| Rewind                        (* seekp(0) *)
| Chunk (iMiB i4kb : Z)         (* write(buff, buffsize) *)
| Tail (iMiB : Z).              (* write(buff, remainingBytes) *)

(** The places where it reads the steady clock. *)
Inductive ClockSite :=
| BeforeLoop                    (* lastUpdate = steady_clock::now() *)
| AtUnit (iMiB : Z).            (* now = steady_clock::now() *)

Record Env := mkEnv {
  open_ok : bool;               (* does the fstream constructor open the file *)
  io_ok : Site -> bool;         (* does this seek or write leave the stream good *)
  flush_ok : bool;
  close_ok : bool;
  torn : File;                  (* what is on disk when the last flush or close fails *)
  start_time : Z;               (* steady_clock::now() before the loop, in ns *)
  unit_time : Z -> Z;           (* steady_clock::now() at the end of unit iMiB *)
  canceled_at : Z -> bool;      (* canceled.load() at the end of unit iMiB *)
  stack_after_buff : Z -> Z     (* the bytes a read past the end of buff finds *)
}.

Inductive Event :=
| EvOpen (p : string) (ok : bool)
| EvSeek (site : Site) (off : Z) (ok : bool)
| EvWrite (site : Site) (count : Z) (ok : bool)
| EvNow (site : ClockSite) (t : Z)
| EvProgress (currentSize : Z) (t : Z)
| EvCanceled (iMiB : Z) (b : bool)
| EvFlush (ok : bool)
| EvClose (ok : bool)
| EvRemove (p : string).

(** The spec names the six failing returns of [WriteImage] by kind; the code
    itself only sets [errored].  The kind is attached to each [return] of
    the embedding as a label. *)
Inductive ErrorKind := PathAlreadyExists | OpenFailure | SeekOrWriteFailure | UserCanceled.
Inductive Outcome := Completed | Errored (k : ErrorKind).

Record St := mkSt {
  self : HddCreate;
  disk : FileSystem;
  newImage : fstream;
  log : list Event
}.

(** ** The monad: state, with [return] leaving the function *)

Definition M (A : Type) : Type := St -> (A + Outcome) * St.

Definition ret {A} (a : A) : M A := fun s => (inl a, s).

Definition bind {A B} (m : M A) (f : A -> M B) : M B :=
  fun s => match m s with
           | (inl a, s') => f a s'
           | (inr o, s') => (inr o, s')
           end.

Definition Return {A} (o : Outcome) : M A := fun s => (inr o, s).

Notation "x <- m ;; k" := (bind m (fun x => k))
  (at level 61, m at next level, right associativity).
Notation "m ;; k" := (bind m (fun _ => k))
  (at level 61, right associativity).

Definition emit (e : Event) (s : St) : St :=
  mkSt (self s) (disk s) (newImage s) (log s ++ [e]).

Section Worker.

Variable E : Env.

(** *** Library calls *)

Definition fs_exists_ (p : string) : M bool :=
  fun s => (inl (fs_exists (disk s) p), s).

(** [fs::fstream(hddPath, std::ios::out | std::ios::binary)]: creates or
    truncates the file. *)
Definition open (p : string) : M unit :=
  fun s =>
    if open_ok E
    then (inl tt, emit (EvOpen p true)
                    (mkSt (self s) (fs_put (disk s) p empty_file)
                          (mkStream p 0 false) (log s)))
    else (inl tt, emit (EvOpen p false)
                    (mkSt (self s) (disk s) (mkStream p 0 true) (log s))).

Definition fail : M bool := fun s => (inl (s_fail (newImage s)), s).

Definition set_fail (st : fstream) : fstream := mkStream (s_path st) (s_pos st) true.

(** [seekp(off, std::ios::beg)]: does nothing on a failed stream; a
    negative offset is refused. *)
Definition seekp (site : Site) (off : Z) : M unit :=
  fun s =>
    let st := newImage s in
    if s_fail st then (inl tt, emit (EvSeek site off false) s)
    else if (off <? 0) || negb (io_ok E site)
    then (inl tt, emit (EvSeek site off false)
                    (mkSt (self s) (disk s) (set_fail st) (log s)))
    else (inl tt, emit (EvSeek site off true)
                    (mkSt (self s) (disk s) (mkStream (s_path st) off false) (log s))).

(** [write(buf, count)]: does nothing on a failed stream.  A count that is
    not positive stores nothing; whether the stream then reports a failure
    differs between standard libraries and is left to the environment, as
    every other failure is.  The bytes a failed write may have left are
    not tracked.  [io_ok] tells whether the call itself leaves the stream
    good, so that [fail()] is false after it: a refusal of the device that
    the buffer of the stream holds back belongs to the later call at which
    it shows. *)
Definition write (site : Site) (buf : Z -> Z) (count : Z) : M unit :=
  fun s =>
    let st := newImage s in
    if s_fail st then (inl tt, emit (EvWrite site count false) s)
    else if negb (io_ok E site)
    then (inl tt, emit (EvWrite site count false)
                    (mkSt (self s) (disk s) (set_fail st) (log s)))
    else if count <=? 0 then (inl tt, emit (EvWrite site count true) s)
    else (inl tt, emit (EvWrite site count true)
                    (mkSt (self s)
                          (match disk s (s_path st) with
                           | Some f => fs_put (disk s) (s_path st)
                                         (file_write f (s_pos st) buf count)
                           | None => disk s
                           end)
                          (mkStream (s_path st) (s_pos st + count) false)
                          (log s))).

(** [flush()] and [close()]: when either fails, buffered bytes are lost
    and the content of the file is the environment's. *)
Definition flush : M unit :=
  fun s =>
    let st := newImage s in
    if flush_ok E then (inl tt, emit (EvFlush true) s)
    else (inl tt, emit (EvFlush false)
                    (mkSt (self s)
                          (match disk s (s_path st) with
                           | Some _ => fs_put (disk s) (s_path st) (torn E)
                           | None => disk s
                           end)
                          (set_fail st) (log s))).

Definition close : M unit :=
  fun s =>
    let st := newImage s in
    if close_ok E then (inl tt, emit (EvClose true) s)
    else (inl tt, emit (EvClose false)
                    (mkSt (self s)
                          (match disk s (s_path st) with
                           | Some _ => fs_put (disk s) (s_path st) (torn E)
                           | None => disk s
                           end)
                          (set_fail st) (log s))).

(** [fs::remove(p)], taken to succeed: it leaves no file at [p]. *)
Definition fs_remove_ (p : string) : M unit :=
  fun s => (inl tt, emit (EvRemove p)
                      (mkSt (self s) (fs_remove (disk s) p) (newImage s) (log s))).

Definition steady_clock_now (site : ClockSite) : M Z :=
  fun s =>
    let t := match site with
             | BeforeLoop => start_time E
             | AtUnit iMiB => unit_time E iMiB
             end in
    (inl t, emit (EvNow site t) s).

Definition canceled_load (iMiB : Z) : M bool :=
  fun s => (inl (canceled_at E iMiB), emit (EvCanceled iMiB (canceled_at E iMiB)) s).

(** *** Members of [HddCreate] *)

Definition get_filePath : M string := fun s => (inl (filePath (self s)), s).
Definition get_lastUpdate : M Z := fun s => (inl (lastUpdate (self s)), s).

Definition set_lastUpdate (t : Z) : M unit :=
  fun s =>
    let h := self s in
    (inl tt, mkSt (mkHdd (filePath h) (neededSize h) (written h) (errored h) t)
                  (disk s) (newImage s) (log s)).

(** [void HddCreate::SetFileProgress(int currentSize)]; the log keeps the
    time of the report, which the caller has just stored in [lastUpdate]. *)
Definition SetFileProgress (currentSize : Z) : M unit :=
  fun s =>
    let h := self s in
    (inl tt, emit (EvProgress currentSize (lastUpdate h))
               (mkSt (mkHdd (filePath h) (neededSize h) currentSize (errored h) (lastUpdate h))
                     (disk s) (newImage s) (log s))).

(** [void HddCreate::SetError()] *)
Definition SetError : M unit :=
  fun s =>
    let h := self s in
    (inl tt, mkSt (mkHdd (filePath h) (neededSize h) (written h) true (lastUpdate h))
                  (disk s) (newImage s) (log s)).

(** *** [HddCreate::WriteImage] *)

Definition buffsize : Z := 4 * 1024.

(** [u8 buff[buffsize] = {0}]; an index outside the array reads the stack. *)
Definition buff (i : Z) : Z :=
  if (0 <=? i) && (i <? buffsize) then 0 else stack_after_buff E i.

(** [const char zero = 0] *)
Definition zero (i : Z) : Z := 0.

(** [(reqSizeBytes + ((1024 * 1024) - 1)) / (1024 * 1024)], stored in an [s32]. *)
Definition reqMiB_of (reqSizeBytes : Z) : Z :=
  s32 (u64 (reqSizeBytes + (1024 * 1024 - 1)) / (1024 * 1024)).

(** [std::min<s32>(1024, (reqSizeBytes / 1024) - (u64)iMiB * 1024) / 4] *)
Definition req4Kib_of (reqSizeBytes iMiB : Z) : Z :=
  Z.quot (Z.min 1024 (s32 (u64 (reqSizeBytes / 1024 - u64 (iMiB * 1024))))) 4.

(** [reqSizeBytes - (((u64)iMiB) * (1024 * 1024) + req4Kib * 4096)], stored
    in an [s32]; the product [req4Kib * 4096] is an [int]. *)
Definition remainingBytes_of (reqSizeBytes iMiB req4Kib : Z) : Z :=
  s32 (u64 (reqSizeBytes
            - u64 (u64 (iMiB * (1024 * 1024)) + u64 (s32 (req4Kib * 4096))))).

(** [duration_cast<milliseconds>(now - lastUpdate).count()] *)
Definition elapsed_ms (now_ last : Z) : Z := Z.quot (now_ - last) 1000000.

(** The body of [for (s32 i4kb = 0; i4kb < req4Kib; i4kb++)]. *)
Definition chunk_body (iMiB i4kb : Z) : M unit :=
  write (Chunk iMiB i4kb) buff buffsize ;;
  failed <- fail ;;
  if failed : bool
  then close ;;
       p <- get_filePath ;; fs_remove_ p ;;
       SetError ;;
       Return (Errored SeekOrWriteFailure)
  else ret tt.

(** [for (s32 i4kb = 0; i4kb < req4Kib; i4kb++)], with [n] iterations left;
    [i4kb < req4Kib <= 256]. *)
Fixpoint chunk_loop (n : nat) (iMiB i4kb : Z) : M unit :=
  match n with
  | O => ret tt
  | S n' =>
      chunk_body iMiB i4kb ;;
      chunk_loop n' iMiB (i4kb + 1)
  end.

(** The body of [for (s32 iMiB = 0; iMiB < reqMiB; iMiB++)]. *)
Definition unit_body (reqSizeBytes reqMiB iMiB : Z) : M unit :=
  let req4Kib := req4Kib_of reqSizeBytes iMiB in
  chunk_loop (Z.to_nat req4Kib) iMiB 0 ;;
  (if negb (req4Kib =? 256)
   then
     let remainingBytes := remainingBytes_of reqSizeBytes iMiB req4Kib in
     write (Tail iMiB) buff remainingBytes ;;
     failed <- fail ;;
     if failed : bool
     then close ;;
          p <- get_filePath ;; fs_remove_ p ;;
          SetError ;;
          Return (Errored SeekOrWriteFailure)
     else ret tt
   else ret tt) ;;
  now_ <- steady_clock_now (AtUnit iMiB) ;;
  last <- get_lastUpdate ;;
  (if (elapsed_ms now_ last >=? 100) || (iMiB + 1 =? reqMiB)
   then set_lastUpdate now_ ;;
        SetFileProgress (iMiB + 1)
   else ret tt) ;;
  c <- canceled_load iMiB ;;
  if c : bool
  then close ;;
       p <- get_filePath ;; fs_remove_ p ;;
       SetError ;;
       Return (Errored UserCanceled)
  else ret tt.

(** [for (s32 iMiB = 0; iMiB < reqMiB; iMiB++)], with [n] iterations left;
    [iMiB < reqMiB <= 2^31 - 1], so the increment does not wrap. *)
Fixpoint unit_loop (n : nat) (reqSizeBytes reqMiB iMiB : Z) : M unit :=
  match n with
  | O => ret tt
  | S n' =>
      unit_body reqSizeBytes reqMiB iMiB ;;
      unit_loop n' reqSizeBytes reqMiB (iMiB + 1)
  end.

(** [void HddCreate::WriteImage(fs::path hddPath, u64 reqSizeBytes)].  The
    file is tested and opened at [hddPath]; the failing branches remove
    [filePath], the member. *)
Definition WriteImage (hddPath : string) (reqSizeBytes : Z) : M unit :=
  present <- fs_exists_ hddPath ;;
  (if present : bool
   then SetError ;; Return (Errored PathAlreadyExists)
   else ret tt) ;;
  open hddPath ;;
  failed <- fail ;;
  (if failed : bool
   then SetError ;; Return (Errored OpenFailure)
   else ret tt) ;;
  seekp SizeSeek (s64 (u64 (reqSizeBytes - 1))) ;;
  write SizeByte zero 1 ;;
  failed <- fail ;;
  (if failed : bool
   then close ;;
        p <- get_filePath ;; fs_remove_ p ;;
        SetError ;;
        Return (Errored SeekOrWriteFailure)
   else ret tt) ;;
  t0 <- steady_clock_now BeforeLoop ;;
  set_lastUpdate t0 ;;
  seekp Rewind 0 ;;
  let reqMiB := reqMiB_of reqSizeBytes in
  unit_loop (Z.to_nat reqMiB) reqSizeBytes reqMiB 0 ;;
  flush ;;
  close.

(** [newImage] before it is constructed. *)
Definition unopened : fstream := mkStream "" 0 true.

(** A member function run on [this] over the file system [fs]; reaching the
    end of the function is the outcome [Completed]. *)
Definition run (m : M unit) (this : HddCreate) (fs : FileSystem) : Outcome * St :=
  match m (mkSt this fs unopened []) with
  | (inl _, s) => (Completed, s)
  | (inr o, s) => (o, s)
  end.

(** The worker thread as [Start] launches it:
    [std::thread(&HddCreate::WriteImage, this, filePath, neededSize)]. *)
Definition fileThread (this : HddCreate) (fs : FileSystem) : Outcome * St :=
  run (WriteImage (filePath this) (neededSize this)) this fs.

(** How the worker ended, and the state it left. *)
Definition outcome (this : HddCreate) (fs : FileSystem) : Outcome :=
  fst (fileThread this fs).

Definition final (this : HddCreate) (fs : FileSystem) : St :=
  snd (fileThread this fs).

End Worker.

(** [int reqMiB = (neededSize + ((1024 * 1024) - 1)) / (1024 * 1024)] in
    [HddCreate::Start]. *)
Definition Start_reqMiB (neededSize : Z) : Z :=
  s32 (u64 (neededSize + (1024 * 1024 - 1)) / (1024 * 1024)).

(** The number of MiB units of the spec: the ceiling of [n / 2^20]. *)
Definition ceil_MiB (n : Z) : Z := (n + (2 ^ 20 - 1)) / 2 ^ 20.


(** ** [HddCreate::Start], on the main thread

    The part of [Start] that runs on the main thread, in the build with the
    progress dialog: it creates the dialog, launches the worker, polls
    [written] and [errored] every 50 ms until the worker is seen to have
    finished or failed, joins the worker and reports a failure.  (Called
    from another thread, [Start] posts itself to the main thread and waits
    for [completed]; that hand-over is not modelled.)

    The worker runs while the loop polls: what each load of the loop finds,
    and what the dialog answers, is read from an [Observer]. *)

Record Observer := mkObserver {
  written_at : nat -> Z;        (* currentSize = written.load(), poll k *)
  written_again : nat -> Z;     (* written.load() for the message, poll k *)
  errored_at : nat -> bool;     (* errored.load(), poll k *)
  update_at : nat -> bool       (* progressDialog->Update(...), false on abort *)
}.

Inductive UiEvent :=
| UiDialog (maximum : Z)                (* new wxProgressDialog(..., reqMiB, ...) *)
| UiSpawn (path : string) (size : Z)    (* std::thread(&WriteImage, this, ...) *)
| UiUpdate (value shown total : Z)      (* Update(currentSize, "shown / total MiB") *)
| UiCancel                              (* canceled.store(true) *)
| UiSleep (ms : Z)
| UiJoin
| UiFailed                              (* "Failed to create HDD file" *)
| UiDelete                              (* delete progressDialog *)
| UiCompleted.                          (* completed = true; notify_all() *)

Section Monitor.

Variable obs : Observer.

(** [(currentSize = written.load()) != reqMiB && !errored.load()] *)
Definition polling (reqMiB : Z) (k : nat) : bool :=
  negb (written_at obs k =? reqMiB) && negb (errored_at obs k).

(** The body of the polling loop, at poll [k]. *)
Definition poll_body (reqMiB : Z) (k : nat) : list UiEvent :=
  UiUpdate (written_at obs k) (written_again obs k) reqMiB
  :: (if update_at obs k then [] else [UiCancel])
  ++ [UiSleep 50].

(** [while (... != reqMiB && !errored.load()) { ... }] from poll [k]; [None]
    when the loop is still polling after [fuel] polls. *)
Fixpoint poll_loop (reqMiB : Z) (fuel k : nat) : option (list UiEvent) :=
  match fuel with
  | O => None
  | S fuel' =>
      if polling reqMiB k
      then option_map (app (poll_body reqMiB k)) (poll_loop reqMiB fuel' (S k))
      else Some []
  end.

(** What the loop has done after at most [n] polls, from poll [k] on,
    whether or not it has been left by then. *)
Fixpoint polled (reqMiB : Z) (n k : nat) : list UiEvent :=
  match n with
  | O => []
  | S n' =>
      if polling reqMiB k
      then poll_body reqMiB k ++ polled reqMiB n' (S k)
      else []
  end.

(** [Start] on the main thread: what it does, and the state the joined
    worker left. *)
Definition Start_main (E : Env) (fuel : nat) (this : HddCreate) (fs : FileSystem)
  : option (list UiEvent * St) :=
  let reqMiB := Start_reqMiB (neededSize this) in
  match poll_loop reqMiB fuel 0 with
  | None => None
  | Some polled =>
      let s := final E this fs in
      Some ([UiDialog reqMiB; UiSpawn (filePath this) (neededSize this)]
            ++ polled
            ++ [UiJoin]
            ++ (if errored (self s) then [UiFailed] else [])
            ++ [UiDelete; UiCompleted],
            s)
  end.

End Monitor.
(** * Vocabulary of the proofs *)

(** ** Weakest preconditions *)

(** [wp m Q R s]: run from [s], [m] either goes on with a value and a state
    in [Q] or leaves the function with an outcome and a state in [R]. *)
Definition wp {A} (m : M A) (Q : A -> St -> Prop) (R : Outcome -> St -> Prop)
  (s : St) : Prop :=
  match m s with
  | (inl a, s') => Q a s'
  | (inr o, s') => R o s'
  end.

(** ** Sizes *)

(** The number of KiB left at the start of unit [i], before it is narrowed
    to an [s32]. *)
Definition left_KiB (N i : Z) : Z := N / 1024 - i * 1024.

(** ** The image on disk *)

(** The file at [p] has the requested length and holds only zeros. *)
Definition holds_image (N : Z) (p : string) (fs : FileSystem) : Prop :=
  exists f, fs p = Some f /\ f_size f = N /\ zero_filled f.

(** The stream is on [p], the image is in place, and the put position of a
    stream that has not failed is at most [bound]. *)
Definition writing (N : Z) (p : string) (bound : Z) (s : St) : Prop :=
  s_path (newImage s) = p
  /\ holds_image N p (disk s)
  /\ (s_fail (newImage s) = false -> 0 <= s_pos (newImage s) <= bound).

Definition not_completed (o : Outcome) (_ : St) : Prop := o <> Completed.

(** ** What one unit leaves in the object and in the log *)

Definition with_errored (h : HddCreate) : HddCreate :=
  mkHdd (filePath h) (neededSize h) (written h) true (lastUpdate h).

Definition with_lastUpdate (h : HddCreate) (t : Z) : HddCreate :=
  mkHdd (filePath h) (neededSize h) (written h) (errored h) t.

Definition with_progress (h : HddCreate) (v t : Z) : HddCreate :=
  mkHdd (filePath h) (neededSize h) v (errored h) t.

(** The first [n] chunk writes of unit [i], all accepted. *)
Definition chunk_events (i : Z) (n : nat) : list Event :=
  map (fun j => EvWrite (Chunk i (Z.of_nat j)) buffsize true) (seq 0 n).

(** The writes of a whole unit, all accepted. *)
Definition unit_writes (N i : Z) : list Event :=
  chunk_events i (Z.to_nat (req4Kib_of N i))
  ++ (if req4Kib_of N i =? 256 then []
      else [EvWrite (Tail i) (remainingBytes_of N i (req4Kib_of N i)) true]).

(** The test that guards [SetFileProgress] at the end of unit [i]. *)
Definition due (reqMiB i now_ last : Z) : bool :=
  (elapsed_ms now_ last >=? 100) || (i + 1 =? reqMiB).

(** The end of unit [i]: the clock is read, progress is published when it
    is due and the cancel latch is loaded. *)
Definition boundary_events (E : Env) (reqMiB i last : Z) : list Event :=
  EvNow (AtUnit i) (unit_time E i)
  :: (if due reqMiB i (unit_time E i) last
      then [EvProgress (i + 1) (unit_time E i)] else [])
  ++ [EvCanceled i (canceled_at E i)].

Definition boundary_self (E : Env) (reqMiB i : Z) (h : HddCreate) : HddCreate :=
  if due reqMiB i (unit_time E i) (lastUpdate h)
  then with_progress h (i + 1) (unit_time E i) else h.

(** [newImage.close(); fs::remove(filePath); SetError();] takes [s] to [s']. *)
Definition abandons (E : Env) (s s' : St) : Prop :=
  self s' = with_errored (self s)
  /\ disk s' (filePath (self s)) = None
  /\ log s' = log s ++ [EvClose (close_ok E); EvRemove (filePath (self s))].

(** Unit [i] ran from [s] to the load of the cancel latch, reaching [s']. *)
Definition unit_done (E : Env) (N reqMiB i : Z) (s s' : St) : Prop :=
  self s' = boundary_self E reqMiB i (self s)
  /\ log s' = log s ++ unit_writes N i
              ++ boundary_events E reqMiB i (lastUpdate (self s)).

Definition site_unit (site : Site) : option Z :=
  match site with
  | Chunk i _ | Tail i => Some i
  | _ => None
  end.

(** A write of unit [i] was refused after the writes [done]: the stream had
    failed before or the device refused it. *)
Definition unit_write_failed (E : Env) (i : Z) (s s' : St) : Prop :=
  exists done site n,
    site_unit site = Some i
    /\ Forall (fun e => exists st c, e = EvWrite st c true) done
    /\ (s_fail (newImage s) = true \/ io_ok E site = false)
    /\ self s' = self s
    /\ log s' = log s ++ done ++ [EvWrite site n false].

(** The two ways unit [i] leaves [WriteImage]. *)
Definition unit_exits (E : Env) (N reqMiB i : Z) (s : St) (o : Outcome) (s' : St) : Prop :=
  (o = Errored SeekOrWriteFailure
   /\ exists sf, unit_write_failed E i s sf /\ abandons E sf s')
  \/ (o = Errored UserCanceled
      /\ canceled_at E i = true
      /\ exists sb, unit_done E N reqMiB i s sb /\ abandons E sb s').

Definition unit_continues (E : Env) (N reqMiB i : Z) (s s' : St) : Prop :=
  canceled_at E i = false /\ unit_done E N reqMiB i s s'.

(** ** Reading the log *)

(** Events after which the worker goes on. *)
Definition calm (e : Event) : Prop :=
  match e with
  | EvWrite _ _ false => False
  | EvCanceled _ true => False
  | _ => True
  end.

(** The event that ends the worker, and the outcome it ends with. *)
Definition verdict (e : Event) (o : Outcome) : Prop :=
  match e with
  | EvWrite _ _ false => o = Errored SeekOrWriteFailure
  | EvCanceled _ true => o = Errored UserCanceled
  | _ => False
  end.

(** The values stored in [written], in order, and with their times. *)
Definition emissions (l : list Event) : list (Z * Z) :=
  flat_map (fun e => match e with EvProgress v t => [(v, t)] | _ => [] end) l.

Definition published (l : list Event) : list Z := map fst (emissions l).

(** The writes of unit [iMiB] in a log. *)
Definition writes_of_unit (iMiB : Z) (l : list Event) : list Event :=
  filter (fun e => match e with
                   | EvWrite (Chunk i _) _ _ | EvWrite (Tail i) _ _ => i =? iMiB
                   | _ => false
                   end) l.

(** [lastUpdate] when the clock is read at the end of unit [i]: the time of
    the last emission before it or, when there is none, of the reading taken
    before the loop; [last] before both. *)
Fixpoint last_before (last i : Z) (l : list Event) : Z :=
  match l with
  | [] => last
  | EvNow (AtUnit j) _ :: l' => if j =? i then last else last_before last i l'
  | EvNow BeforeLoop t :: l' => last_before t i l'
  | EvProgress _ t :: l' => last_before t i l'
  | _ :: l' => last_before last i l'
  end.

(** A steady clock never goes back. *)
Definition steady (E : Env) : Prop :=
  start_time E <= unit_time E 0
  /\ forall i j, 0 <= i <= j -> unit_time E i <= unit_time E j.

(** Two emissions, the second at least 100 ms after the first unless it
    publishes the last unit. *)
Definition spaced (reqMiB : Z) (e1 e2 : Z * Z) : Prop :=
  100 * 1000000 <= snd e2 - snd e1 \/ fst e2 = reqMiB.

(** ** The state at the loop *)

(** The state in which the loop over the units starts: the file was created
    and sized by the byte written at [off], the clock was read and the
    stream was sent back to the start. *)
Definition entry (E : Env) (this : HddCreate) (fs : FileSystem) (p : string)
  (off : Z) : St :=
  mkSt (with_lastUpdate this (start_time E))
       (fs_put (fs_put fs p empty_file) p (file_write empty_file off zero 1))
       (if io_ok E Rewind then mkStream p 0 false else mkStream p (off + 1) true)
       [EvOpen p true; EvSeek SizeSeek off true; EvWrite SizeByte 1 true;
        EvNow BeforeLoop (start_time E); EvSeek Rewind 0 (io_ok E Rewind)].

(** The sizing failed: the seek or the write of the last byte was refused. *)
Definition sizing_failed (this : HddCreate) (p : string) (off : Z) (s : St) : Prop :=
  self s = this
  /\ exists ok, log s = [EvOpen p true; EvSeek SizeSeek off ok; EvWrite SizeByte 1 false]
                /\ (off < 0 -> ok = false).

(** ** How a run ends *)

(** The outcome of a run read against its final state: the log of a run that
    completes is calm; every other run ends at its first event that is not,
    or before it opened a file. *)
Definition ended (E : Env) (this : HddCreate) (fs : FileSystem)
  (o : Outcome) (s : St) : Prop :=
  let p := filePath this in
  filePath (self s) = p
  /\ match o with
     | Completed =>
         errored (self s) = errored this /\ Forall calm (log s)
     | Errored PathAlreadyExists =>
         errored (self s) = true /\ fs_exists fs p = true
         /\ disk s = fs /\ log s = []
     | Errored OpenFailure =>
         errored (self s) = true /\ fs_exists fs p = false
         /\ disk s = fs /\ log s = [EvOpen p false]
     | Errored _ =>
         errored (self s) = true /\ disk s p = None
         /\ exists l e, log s = l ++ [e; EvClose (close_ok E); EvRemove p]
                        /\ Forall calm l /\ verdict e o
     end.

(** ** Progress and its pacing *)

(** Events that neither read the clock nor publish progress. *)
Definition inert (e : Event) : Prop :=
  match e with
  | EvNow _ _ | EvProgress _ _ => False
  | _ => True
  end.

(** At every unit boundary in the log, progress was published exactly when
    it was due: 100 ms or more since [lastUpdate], or the last unit. *)
Definition throttled (r L0 : Z) (l : list Event) : Prop :=
  forall j t,
    In (EvNow (AtUnit j) t) l ->
    (In (EvProgress (j + 1) t) l <-> due r j t (last_before L0 j l) = true).

(** The pacing of the emissions, between the units: [i] units are done. *)
Definition paced (E : Env) (r L0 i : Z) (s : St) : Prop :=
  (forall v t, In (v, t) (emissions (log s)) ->
               1 <= v <= i /\ t <= lastUpdate (self s))
  /\ (forall j t, In (EvNow (AtUnit j) t) (log s) -> 0 <= j < i /\ t = unit_time E j)
  /\ throttled r L0 (log s)
  /\ (forall k, i <= k -> last_before L0 k (log s) = lastUpdate (self s))
  /\ ForallOrdPairs (spaced r) (emissions (log s))
  /\ (forall k, i <= k -> lastUpdate (self s) <= unit_time E k).

(** The published values, between the units: [i] units are done. *)
Definition counted (r w0 i : Z) (s : St) : Prop :=
  StronglySorted Z.lt (published (log s))
  /\ Forall (fun v => 1 <= v <= i) (published (log s))
  /\ written (self s) = last (published (log s)) w0
  /\ (0 < i -> i = r ->
      exists l0, published (log s) = l0 ++ [r] /\ Forall (fun v => v < r) l0).

(** ** Concrete requests and environments *)

Definition no_files : FileSystem := fun _ => None.

(** A freshly constructed [HddCreate] with its two public fields set. *)
Definition request (path : string) (size : Z) : HddCreate :=
  mkHdd path size 0 false 0.

(** Every call succeeds, a unit takes 30 ms, nobody cancels. *)
Definition quiet_env : Env :=
  mkEnv true (fun _ => true) true true empty_file
        0 (fun i => (i + 1) * 30000000) (fun _ => false) (fun _ => 255).

(** As [quiet_env], with the cancel latch set before the worker starts. *)
Definition canceling_env : Env :=
  mkEnv true (fun _ => true) true true empty_file
        0 (fun i => (i + 1) * 30000000) (fun _ => true) (fun _ => 255).

(** As [quiet_env], but the device refuses the chunk [j] of unit [i]. *)
Definition refusing_env (i j : Z) : Env :=
  mkEnv true
        (fun site => match site with
                     | Chunk i' j' => negb ((i' =? i) && (j' =? j))
                     | _ => true
                     end)
        true true empty_file
        0 (fun i => (i + 1) * 30000000) (fun _ => false) (fun _ => 255).

(** A file system with a three-byte file at [p]. *)
Definition one_file (p : string) : FileSystem :=
  fs_put no_files p (mkFile 3 (fun _ => 65)).

(** As [canceling_env], but the device refuses the first chunk. *)
Definition canceling_refusing_env : Env :=
  mkEnv true
        (fun site => match site with
                     | Chunk i j => negb ((i =? 0) && (j =? 0))
                     | _ => true
                     end)
        true true empty_file
        0 (fun i => (i + 1) * 30000000) (fun _ => true) (fun _ => 255).

(** ** Vocabulary of the further properties *)

(** The bytes of [buff] an event stores in the file. *)
Definition stored (e : Event) : Z :=
  match e with
  | EvWrite (Chunk _ _) c true | EvWrite (Tail _) c true => Z.max 0 c
  | _ => 0
  end.

Definition bytes_handed (l : list Event) : Z :=
  fold_right (fun e a => stored e + a) 0 l.

(** Every progress report [v] in [l] comes after the first [v] MiB of the
    [N] requested bytes (all of them, when there are fewer) were stored;
    [acc] bytes were stored before [l]. *)
Fixpoint backed (N acc : Z) (l : list Event) : Prop :=
  match l with
  | [] => True
  | e :: l' =>
      match e with
      | EvProgress v _ => acc = Z.min (v * 2 ^ 20) N
      | _ => True
      end
      /\ backed N (acc + stored e) l'
  end.

(** A write asks for no more than its buffer holds. *)
Definition within_buffer (e : Event) : Prop :=
  match e with
  | EvWrite SizeByte c _ => c = 1
  | EvWrite (Chunk _ _) c _ => c = buffsize
  | EvWrite (Tail _) c _ => c < buffsize
  | EvWrite _ _ _ => False
  | _ => True
  end.

Definition is_removal (e : Event) : Prop :=
  match e with
  | EvRemove _ => True
  | _ => False
  end.

(** Every seek and every write leaves the stream good. *)
Definition accepting (E : Env) : Prop := forall site, io_ok E site = true.

(** What the polling loop of [Start] can find while the worker of the run
    [fileThread E this fs] is at work: at each load of [written], the initial
    value or a value the worker stored; in [errored], a set latch only if
    the worker sets it. *)
Definition observes (E : Env) (this : HddCreate) (fs : FileSystem)
  (obs : Observer) : Prop :=
  forall k,
    (written_at obs k = written this
     \/ In (written_at obs k) (published (log (final E this fs))))
    /\ (written_again obs k = written this
        \/ In (written_again obs k) (published (log (final E this fs))))
    /\ (errored_at obs k = true ->
        errored this = true \/ errored (self (final E this fs)) = true).

(** From poll [n0] on the worker has returned: the loads find what it left. *)
Definition settled (E : Env) (this : HddCreate) (fs : FileSystem)
  (obs : Observer) (n0 : nat) : Prop :=
  forall k, (n0 <= k)%nat ->
            written_at obs k = written (self (final E this fs))
            /\ errored_at obs k = errored (self (final E this fs)).

(** An observer that finds the worker's final state at every poll and a
    dialog that is never aborted. *)
Definition late_observer (E : Env) (this : HddCreate) (fs : FileSystem) : Observer :=
  mkObserver (fun _ => written (self (final E this fs)))
             (fun _ => written (self (final E this fs)))
             (fun _ => errored (self (final E this fs)))
             (fun _ => true).

(** An observer that finds the object as it was constructed, and whose
    dialog is aborted at every poll. *)
Definition early_observer : Observer :=
  mkObserver (fun _ => 0) (fun _ => 0) (fun _ => false) (fun _ => false).

(** An observer whose first poll finds the object as it was constructed and
    whose later polls find the worker's final state; the dialog is aborted
    at the first poll. *)
Definition slow_observer (E : Env) (this : HddCreate) (fs : FileSystem) : Observer :=
  mkObserver
    (fun k => match k with O => 0 | _ => written (self (final E this fs)) end)
    (fun k => match k with O => 0 | _ => written (self (final E this fs)) end)
    (fun k => match k with O => false | _ => errored (self (final E this fs)) end)
    (fun k => match k with O => false | _ => true end).


(** The file cannot be opened. *)
Definition closed_env : Env :=
  mkEnv false (fun _ => true) true true empty_file
        0 (fun i => (i + 1) * 30000000) (fun _ => false) (fun _ => 255).

(** ** The trace of a run, unit by unit *)

(** Unit [i] stopped at a refused write: it had made the writes [done] of
    the unit, all accepted, and the next one was refused. *)
Definition unit_stopped (N i : Z) (s s' : St) : Prop :=
  exists done site c rest,
    unit_writes N i = done ++ EvWrite site c true :: rest
    /\ self s' = self s
    /\ log s' = log s ++ done ++ [EvWrite site c false].

(** The two ways unit [i] leaves [WriteImage], with what it had written. *)
Definition unit_leaves (E : Env) (N reqMiB i : Z) (s : St) (o : Outcome) (s' : St) : Prop :=
  (o = Errored SeekOrWriteFailure
   /\ exists sf, unit_stopped N i s sf /\ abandons E sf s')
  \/ (o = Errored UserCanceled
      /\ canceled_at E i = true
      /\ exists sb, unit_done E N reqMiB i s sb /\ abandons E sb s').

(** An event is a chunk or tail write of unit [u]. *)
Definition of_unit (u : Z) (e : Event) : bool :=
  match e with
  | EvWrite (Chunk i _) _ _ | EvWrite (Tail i) _ _ => i =? u
  | _ => false
  end.



(** The sizing calls, the rewind and every write of the units up to [u]
    leave the stream good. *)
Definition accepting_to (E : Env) (u : Z) : Prop :=
  forall site,
    match site with
    | Chunk j _ | Tail j => j <= u
    | _ => True
    end ->
    io_ok E site = true.

(** The writes of unit [u] as the specification counts them:
    min(256, (N / 1024 - u * 1024) / 4) chunks of 4096 bytes, then, when
    these are fewer than 256, a tail of the bytes that remain. *)
Definition spec_chunks (N u : Z) : Z := Z.min 256 ((N / 1024 - u * 1024) / 4).

Definition spec_tail (N u : Z) : Z :=
  N - (u * (1024 * 1024) + spec_chunks N u * 4096).

Definition spec_unit_writes (N u : Z) : list Event :=
  map (fun j => EvWrite (Chunk u (Z.of_nat j)) 4096 true)
      (seq 0 (Z.to_nat (spec_chunks N u)))
  ++ (if spec_chunks N u <? 256 then [EvWrite (Tail u) (spec_tail N u) true] else []).

(** As [quiet_env], with units of 50 ms. *)
Definition pacing_env : Env :=
  mkEnv true (fun _ => true) true true empty_file
        0 (fun i => (i + 1) * 50000000) (fun _ => false) (fun _ => 255).


(** An update of the progress dialog as [Start] makes them for the unit
    count [reqMiB]: it names the count as the total, and a value other than
    the total, from 0 up to the count, or 0 when the count is negative. *)
Definition below_maximum (reqMiB value shown total : Z) : Prop :=
  total = reqMiB
  /\ value <> total
  /\ (0 <= total -> 0 <= value < total /\ 0 <= shown <= total)
  /\ (total < 0 -> value = 0 /\ shown = 0).

(** ** Tactics *)

(** The powers of two of the machine types, as numerals. *)
Ltac pow2 :=
  change (2 ^ 64) with 18446744073709551616 in *;
  change (2 ^ 63) with 9223372036854775808 in *;
  change (2 ^ 32) with 4294967296 in *;
  change (2 ^ 31) with 2147483648 in *;
  change (2 ^ 20) with 1048576 in *;
  change (1024 * 1024) with 1048576 in *.

Ltac euclid := pow2; Z.to_euclidean_division_equations; lia.

(** Runs straight-line code that neither seeks nor writes. *)
Ltac wp_exec :=
  unfold wp, bind, ret, Return, fail, close, flush, get_filePath, fs_remove_,
    SetError, steady_clock_now, get_lastUpdate, set_lastUpdate,
    SetFileProgress, canceled_load;
  cbn.

(** A property of every event, for a log that grew by some events. *)
Ltac grown :=
  repeat (apply Forall_app; split); try assumption; repeat constructor.
(** * Proofs *)

(** ** Machine arithmetic *)

Module MachineIntFacts.

Lemma s32_range z : - 2 ^ 31 <= s32 z < 2 ^ 31.
Proof. unfold s32. euclid. Qed.

Lemma s32_small z : - 2 ^ 31 <= z < 2 ^ 31 -> s32 z = z.
Proof. unfold s32. intros. euclid. Qed.

Lemma s32_unique a b k :
  - 2 ^ 31 <= b < 2 ^ 31 -> a = b + k * 2 ^ 32 -> s32 a = b.
Proof. unfold s32. intros Hb ->. euclid. Qed.

Lemma s32_cong z : exists k, s32 z = z + k * 2 ^ 32.
Proof.
  exists (- ((z + 2 ^ 31) / 2 ^ 32)). unfold s32. euclid.
Qed.

Lemma u64_range z : 0 <= u64 z < 2 ^ 64.
Proof. unfold u64. euclid. Qed.

Lemma u64_small z : 0 <= z < 2 ^ 64 -> u64 z = z.
Proof. unfold u64. intros. euclid. Qed.

Lemma u64_cong z : exists k, u64 z = z + k * 2 ^ 32.
Proof.
  exists (- (z / 2 ^ 64) * 2 ^ 32). unfold u64. euclid.
Qed.

Lemma u64_le z : 0 <= z -> u64 z <= z.
Proof. unfold u64. intros. euclid. Qed.

End MachineIntFacts.
Import MachineIntFacts.

(** ** The unit count and the sizes written in one unit *)

Section Sizes.

Variable N : Z.
Hypothesis HN : is_u64 N.

Lemma reqMiB_range : - 2 ^ 31 <= reqMiB_of N < 2 ^ 31.
Proof. apply s32_range. Qed.

(** Every unit the loop runs starts inside the requested size. *)
Lemma unit_starts_inside i : 0 <= i < reqMiB_of N -> i * 2 ^ 20 < N.
Proof.
  unfold reqMiB_of, is_u64 in *. intros Hi.
  pose proof (u64_le (N + (1024 * 1024 - 1)) ltac:(lia)) as Hle.
  pose proof (u64_range (N + (1024 * 1024 - 1))) as Hr.
  set (a := u64 (N + (1024 * 1024 - 1))) in *.
  destruct (s32_cong (a / (1024 * 1024))) as [k Hk].
  pose proof (s32_range (a / (1024 * 1024))) as Hs.
  set (m := s32 (a / (1024 * 1024))) in *.
  assert (0 <= a / (1024 * 1024)) by euclid.
  assert (k <= 0) by (pow2; lia).
  assert (m <= a / (1024 * 1024)) by (pow2; nia).
  assert ((i + 1) * 1048576 <= a) by euclid.
  pow2. lia.
Qed.

Lemma left_KiB_nonneg i : 0 <= i < reqMiB_of N -> 0 <= left_KiB N i.
Proof.
  intros Hi. pose proof (unit_starts_inside i Hi). unfold left_KiB. euclid.
Qed.

Lemma left_KiB_u64 i :
  0 <= i < reqMiB_of N -> u64 (N / 1024 - u64 (i * 1024)) = left_KiB N i.
Proof.
  intros Hi. pose proof (left_KiB_nonneg i Hi) as H0.
  pose proof reqMiB_range. unfold left_KiB, is_u64 in *.
  rewrite (u64_small (i * 1024)) by (pow2; lia).
  apply u64_small. euclid.
Qed.

Lemma req4Kib_unfold i :
  0 <= i < reqMiB_of N ->
  req4Kib_of N i = Z.quot (Z.min 1024 (s32 (left_KiB N i))) 4.
Proof. intros Hi. unfold req4Kib_of. now rewrite left_KiB_u64. Qed.

Lemma req4Kib_le i : 0 <= i < reqMiB_of N -> req4Kib_of N i <= 256.
Proof. intros Hi. rewrite req4Kib_unfold by assumption. euclid. Qed.

Lemma split_size i :
  0 <= i < reqMiB_of N -> N = i * 2 ^ 20 + left_KiB N i * 1024 + N mod 1024.
Proof. intros Hi. unfold left_KiB. euclid. Qed.

(** The narrowed count is the true one less a multiple of [2^32]. *)
Lemma narrowed_left i :
  0 <= i < reqMiB_of N ->
  exists k, 0 <= k /\ s32 (left_KiB N i) = left_KiB N i - k * 2 ^ 32.
Proof.
  intros Hi. pose proof (left_KiB_nonneg i Hi).
  exists ((left_KiB N i + 2 ^ 31) / 2 ^ 32). unfold s32. euclid.
Qed.

(** What the tail write is asked to store: below [buffsize] in every case,
    and negative only when the narrowing made the count negative. *)
Lemma remainingBytes_unfold i :
  0 <= i < reqMiB_of N ->
  req4Kib_of N i <> 256 ->
  remainingBytes_of N i (req4Kib_of N i)
  = Z.rem (s32 (left_KiB N i)) 4 * 1024 + N mod 1024.
Proof.
  intros Hi Hq. rewrite req4Kib_unfold in * by assumption.
  pose proof (split_size i Hi) as HNs.
  pose proof (s32_range (left_KiB N i)) as Hx.
  destruct (narrowed_left i Hi) as [k [Hk Hxk]].
  set (x := s32 (left_KiB N i)) in *.
  assert (Hlt : x < 1024) by euclid.
  rewrite Z.min_r in * by lia.
  unfold remainingBytes_of.
  destruct (u64_cong (i * (1024 * 1024))) as [k1 H1].
  destruct (s32_cong (Z.quot x 4 * 4096)) as [k2 H2].
  destruct (u64_cong (s32 (Z.quot x 4 * 4096))) as [k3 H3].
  destruct (u64_cong (u64 (i * (1024 * 1024)) + u64 (s32 (Z.quot x 4 * 4096)))) as [k4 H4].
  destruct (u64_cong (N - u64 (u64 (i * (1024 * 1024)) + u64 (s32 (Z.quot x 4 * 4096))))) as [k5 H5].
  apply s32_unique with (k := k5 - k4 - k1 - k3 - k2 + k * 1024).
  - euclid.
  - rewrite H5, H4, H3, H2, H1. revert HNs Hxk. clear. intros. euclid.
Qed.


(** The chunks of a unit end inside the requested size and inside the unit. *)
Lemma chunks_extent i :
  0 <= i < reqMiB_of N ->
  i * 2 ^ 20 + Z.max 0 (req4Kib_of N i) * 4096 <= N
  /\ Z.max 0 (req4Kib_of N i) * 4096 <= 2 ^ 20.
Proof.
  intros Hi. rewrite req4Kib_unfold by assumption.
  pose proof (split_size i Hi) as HNs.
  pose proof (s32_range (left_KiB N i)) as Hx.
  destruct (narrowed_left i Hi) as [k [Hk Hxk]].
  pose proof (left_KiB_nonneg i Hi) as HX.
  set (x := s32 (left_KiB N i)) in *.
  assert (0 <= N mod 1024 < 1024) by euclid.
  destruct (Z.le_gt_cases 0 x) as [Hpos | Hneg].
  - assert (x <= left_KiB N i) by (pow2; nia).
    assert (Z.max 0 (Z.quot (Z.min 1024 x) 4) * 4 <= Z.min 1024 x) by euclid.
    pow2. lia.
  - assert (Z.max 0 (Z.quot (Z.min 1024 x) 4) = 0) by euclid.
    pow2. lia.
Qed.

(** So does the tail, which moreover fits in [buff]. *)
Lemma tail_extent i :
  0 <= i < reqMiB_of N ->
  req4Kib_of N i <> 256 ->
  remainingBytes_of N i (req4Kib_of N i) < buffsize
  /\ i * 2 ^ 20 + Z.max 0 (req4Kib_of N i) * 4096
     + Z.max 0 (remainingBytes_of N i (req4Kib_of N i)) <= N
  /\ Z.max 0 (req4Kib_of N i) * 4096
     + Z.max 0 (remainingBytes_of N i (req4Kib_of N i)) <= 2 ^ 20.
Proof.
  intros Hi Hq. rewrite remainingBytes_unfold by assumption.
  rewrite req4Kib_unfold in * by assumption.
  pose proof (split_size i Hi) as HNs.
  pose proof (s32_range (left_KiB N i)) as Hx.
  destruct (narrowed_left i Hi) as [k [Hk Hxk]].
  pose proof (left_KiB_nonneg i Hi) as HX.
  set (x := s32 (left_KiB N i)) in *.
  assert (Hr : 0 <= N mod 1024 < 1024) by euclid.
  assert (Hlt : x < 1024) by euclid.
  rewrite Z.min_r in * by lia.
  unfold buffsize.
  destruct (Z.le_gt_cases 0 x) as [Hpos | Hneg].
  - assert (x <= left_KiB N i) by (pow2; nia).
    assert (Hqr : x = 4 * Z.quot x 4 + Z.rem x 4 /\ 0 <= Z.rem x 4 < 4 /\ 0 <= Z.quot x 4)
      by euclid.
    pow2. lia.
  - assert (Hqr : Z.quot x 4 <= 0 /\ -4 < Z.rem x 4 <= 0) by euclid.
    assert (1 <= k) by (pow2; lia).
    pow2. lia.
Qed.

(** Below 2 TiB nothing is lost by the narrowing: the counts are the ones
    of the plain formulas. *)
Lemma req4Kib_plain i :
  N < 2 ^ 41 -> 0 <= i < reqMiB_of N ->
  req4Kib_of N i = Z.min 256 ((N / 1024 - i * 1024) / 4).
Proof.
  intros Hlt Hi. rewrite req4Kib_unfold by assumption.
  pose proof (left_KiB_nonneg i Hi) as HX.
  rewrite s32_small by (unfold left_KiB in *; change (2 ^ 41) with 2199023255552 in Hlt; euclid).
  unfold left_KiB in *. euclid.
Qed.

Lemma remainingBytes_plain i :
  N < 2 ^ 41 -> 0 <= i < reqMiB_of N ->
  req4Kib_of N i <> 256 ->
  remainingBytes_of N i (req4Kib_of N i)
  = N - (i * (1024 * 1024) + req4Kib_of N i * 4096).
Proof.
  intros Hlt Hi Hq. rewrite remainingBytes_unfold by assumption.
  rewrite req4Kib_plain in * by assumption.
  pose proof (left_KiB_nonneg i Hi) as HX.
  rewrite s32_small by (unfold left_KiB in *; change (2 ^ 41) with 2199023255552 in Hlt; euclid).
  unfold left_KiB in *. euclid.
Qed.

End Sizes.

(** ** Reasoning about the monad *)

Lemma wp_bind {A B} (m : M A) (f : A -> M B) Q R s :
  wp m (fun a s' => wp (f a) Q R s') R s -> wp (bind m f) Q R s.
Proof.
  unfold wp, bind. destruct (m s) as [[a | o] s']; auto.
Qed.

(** Sequencing with an intermediate assertion. *)
Lemma wp_seq {A B} (m : M A) (f : A -> M B) (Q' : A -> St -> Prop) Q R s :
  wp m Q' R s ->
  (forall a s', Q' a s' -> wp (f a) Q R s') ->
  wp (bind m f) Q R s.
Proof.
  unfold wp, bind. intros Hm Hf. destruct (m s) as [[a | o] s']; auto.
  now apply Hf.
Qed.

Lemma wp_ret {A} (a : A) (Q : A -> St -> Prop) R s : Q a s -> wp (ret a) Q R s.
Proof. auto. Qed.

Lemma wp_mono {A} (m : M A) (Q Q' : A -> St -> Prop) (R R' : Outcome -> St -> Prop) s :
  (forall a s', Q a s' -> Q' a s') ->
  (forall o s', R o s' -> R' o s') ->
  wp m Q R s -> wp m Q' R' s.
Proof.
  unfold wp. intros HQ HR. destruct (m s) as [[a | o] s']; auto.
Qed.

Lemma wp_run (m : M unit) (P : Outcome -> St -> Prop) this fs :
  wp m (fun _ s => P Completed s) P (mkSt this fs unopened []) ->
  P (fst (run m this fs)) (snd (run m this fs)).
Proof.
  unfold wp, run. destruct (m _) as [[a | o] s']; auto.
Qed.


(** A loop of [n] iterations from [lo] keeps an invariant indexed by the
    loop variable. *)
Lemma wp_unit_loop E N reqMiB (Inv : Z -> St -> Prop) R :
  forall n lo s,
    (forall i s', lo <= i < lo + Z.of_nat n -> Inv i s' ->
                  wp (unit_body E N reqMiB i) (fun _ => Inv (i + 1)) R s') ->
    Inv lo s ->
    wp (unit_loop E n N reqMiB lo) (fun _ => Inv (lo + Z.of_nat n)) R s.
Proof.
  induction n as [| n IH]; intros lo s Hbody Hinv.
  - simpl. apply wp_ret. now rewrite Z.add_0_r.
  - cbn [unit_loop]. apply wp_bind.
    eapply wp_mono; [| | apply Hbody; [lia | exact Hinv]]; cbn beta.
    + intros _ s' Hs'.
      replace (lo + Z.of_nat (S n)) with ((lo + 1) + Z.of_nat n) by lia.
      apply IH; [| exact Hs'].
      intros i s'' Hi. apply Hbody. lia.
    + auto.
Qed.

Lemma wp_chunk_loop E iMiB (Inv : Z -> St -> Prop) R :
  forall n lo s,
    (forall j s', lo <= j < lo + Z.of_nat n -> Inv j s' ->
                  wp (chunk_body E iMiB j) (fun _ => Inv (j + 1)) R s') ->
    Inv lo s ->
    wp (chunk_loop E n iMiB lo) (fun _ => Inv (lo + Z.of_nat n)) R s.
Proof.
  induction n as [| n IH]; intros lo s Hbody Hinv.
  - simpl. apply wp_ret. now rewrite Z.add_0_r.
  - cbn [chunk_loop]. apply wp_bind.
    eapply wp_mono; [| | apply Hbody; [lia | exact Hinv]]; cbn beta.
    + intros _ s' Hs'.
      replace (lo + Z.of_nat (S n)) with ((lo + 1) + Z.of_nat n) by lia.
      apply IH; [| exact Hs'].
      intros j s'' Hj. apply Hbody. lia.
    + auto.
Qed.

Lemma fs_put_same fs p f : fs_put fs p f p = Some f.
Proof. unfold fs_put. now rewrite String.eqb_refl. Qed.

Lemma fs_remove_same fs p : fs_remove fs p p = None.
Proof. unfold fs_remove. now rewrite String.eqb_refl. Qed.

(** ** The image on disk while the worker writes *)

Section Image.

Variable E : Env.
Variable N : Z.
Variable p : string.
Hypothesis HN : is_u64 N.

Lemma writing_weaken b b' s : b <= b' -> writing N p b s -> writing N p b' s.
Proof. unfold writing. intros Hb (Hp & Hi & Hpos). repeat split; auto; apply Hpos in H; lia. Qed.

Lemma writing_ext b s s' :
  disk s' = disk s -> newImage s' = newImage s -> writing N p b s -> writing N p b s'.
Proof. unfold writing. intros -> ->. auto. Qed.

Lemma file_write_zero f pos count :
  f_size f = N -> zero_filled f ->
  0 <= pos -> 0 < count <= buffsize -> pos + count <= N ->
  f_size (file_write f pos (buff E) count) = N
  /\ zero_filled (file_write f pos (buff E) count).
Proof.
  intros Hsz Hz Hpos Hc Hend. split.
  - cbn [file_write f_size]. lia.
  - intros o Ho. unfold file_write in *. cbn [f_size f_data] in *.
    destruct ((pos <=? o) && (o <? pos + count)) eqn:Hin.
    + unfold buff.
      replace ((0 <=? o - pos) && (o - pos <? buffsize)) with true; [reflexivity |].
      symmetry. apply andb_true_iff in Hin. apply andb_true_iff. lia.
    + apply Hz. lia.
Qed.

(** A write of at most [buffsize] bytes of [buff] that ends inside the
    requested size keeps the image. *)
Lemma write_keeps_image site count b R s :
  count <= buffsize -> b + Z.max 0 count <= N ->
  writing N p b s ->
  wp (write E site (buff E) count) (fun _ => writing N p (b + Z.max 0 count)) R s.
Proof.
  intros Hc Hend (Hp & (f & Hf & Hsz & Hz) & Hpos).
  assert (Himg : holds_image N p (disk s)) by (exists f; auto).
  unfold wp, write, writing. cbn zeta.
  destruct (s_fail (newImage s)) eqn:Hfail.
  { cbn. rewrite Hfail. repeat apply conj; auto. discriminate. }
  specialize (Hpos eq_refl).
  destruct (io_ok E site); cbn [negb].
  2:{ cbn. repeat apply conj; auto. discriminate. }
  destruct (count <=? 0) eqn:Hle.
  { cbn. repeat apply conj; auto. intros _. lia. }
  rewrite Hp, Hf.
  destruct (file_write_zero f (s_pos (newImage s)) count) as [Hsz' Hz']; auto; try lia.
  cbn. repeat apply conj; auto.
  - exists (file_write f (s_pos (newImage s)) (buff E) count).
    rewrite fs_put_same. auto.
  - intros _. lia.
Qed.

Lemma chunk_body_keeps_image i j b s :
  b + buffsize <= N ->
  writing N p b s ->
  wp (chunk_body E i j) (fun _ => writing N p (b + buffsize)) not_completed s.
Proof.
  intros Hend Hw. unfold chunk_body.
  eapply wp_seq.
  { apply (write_keeps_image (Chunk i j) buffsize b); auto; unfold buffsize; lia. }
  intros ? s' Hs'; cbn beta in *.
  replace (b + Z.max 0 buffsize) with (b + buffsize) in Hs' by (unfold buffsize; lia).
  wp_exec.
  destruct (s_fail (newImage s')); cbn.
  - destruct (close_ok E); cbn; unfold not_completed; discriminate.
  - exact Hs'.
Qed.

Lemma chunk_loop_keeps_image i n b s :
  b + Z.of_nat n * buffsize <= N ->
  writing N p b s ->
  wp (chunk_loop E n i 0) (fun _ => writing N p (b + Z.of_nat n * buffsize)) not_completed s.
Proof.
  intros Hend Hw.
  apply (wp_chunk_loop E i (fun j => writing N p (b + j * buffsize)) not_completed n 0 s).
  - intros j s' Hj Hs'.
    replace (b + (j + 1) * buffsize) with (b + j * buffsize + buffsize) by lia.
    apply chunk_body_keeps_image; auto. unfold buffsize in *. lia.
  - now rewrite Z.add_0_r.
Qed.

Lemma unit_body_keeps_image reqMiB i s :
  0 <= i < reqMiB_of N ->
  writing N p (i * 2 ^ 20) s ->
  wp (unit_body E N reqMiB i) (fun _ => writing N p ((i + 1) * 2 ^ 20)) not_completed s.
Proof.
  intros Hi Hw. unfold unit_body. cbn zeta.
  destruct (chunks_extent N HN i Hi) as [Hc1 Hc2].
  set (q := req4Kib_of N i) in *.
  assert (Hq : Z.of_nat (Z.to_nat q) * buffsize = Z.max 0 q * 4096)
    by (unfold buffsize; lia).
  eapply wp_seq.
  { apply (chunk_loop_keeps_image i (Z.to_nat q) (i * 2 ^ 20)); auto. lia. }
  intros ? s1 Hs1; cbn beta in *. rewrite Hq in Hs1.
  apply wp_seq with (Q' := fun _ => writing N p ((i + 1) * 2 ^ 20)).
  - destruct (q =? 256) eqn:Hq256; cbn [negb].
    + apply wp_ret. eapply writing_weaken; [| exact Hs1]. pow2. lia.
    + assert (Hne : q <> 256) by lia.
      destruct (tail_extent N HN i Hi Hne) as (Ht1 & Ht2 & Ht3).
      fold q in Ht1, Ht2, Ht3.
      set (r := remainingBytes_of N i q) in *.
      eapply wp_seq.
      { apply (write_keeps_image (Tail i) r (i * 2 ^ 20 + Z.max 0 q * 4096));
          auto; lia. }
      intros ? s2 Hs2; cbn beta in *.
      wp_exec.
      destruct (s_fail (newImage s2)); cbn.
      * destruct (close_ok E); cbn; unfold not_completed; discriminate.
      * eapply writing_weaken; [| exact Hs2]. pow2. lia.
  - intros ? s2 Hs2; cbn beta in *.
    wp_exec.
    destruct (_ || _); cbn;
      (destruct (canceled_at E i); cbn;
       [ destruct (close_ok E); cbn; unfold not_completed; discriminate
       | eapply writing_ext; [| | exact Hs2]; reflexivity ]).
Qed.

End Image.


(** ** One unit, summarised *)

Section Summary.

Variable E : Env.

Lemma abandon_spec k (Q : unit -> St -> Prop) (R : Outcome -> St -> Prop) s :
  (forall s', abandons E s s' -> R (Errored k) s') ->
  wp (close E ;;
      p <- get_filePath ;; fs_remove_ p ;;
      SetError ;;
      Return (Errored k)) Q R s.
Proof.
  intros H. wp_exec.
  destruct (close_ok E) eqn:Hc; cbn; apply H; unfold abandons; cbn;
    rewrite Hc, fs_remove_same, <- app_assoc; auto.
Qed.

(** What a write leaves in the object and in the log. *)
Lemma write_log_spec site buf count (Q : unit -> St -> Prop) R s :
  (forall s',
      self s' = self s ->
      ((s_fail (newImage s) = true \/ io_ok E site = false)
       /\ s_fail (newImage s') = true
       /\ log s' = log s ++ [EvWrite site count false])
      \/ (s_fail (newImage s) = false /\ io_ok E site = true
          /\ s_fail (newImage s') = false
          /\ log s' = log s ++ [EvWrite site count true]) ->
      Q tt s') ->
  wp (write E site buf count) Q R s.
Proof.
  intros H. unfold wp, write. cbn zeta.
  destruct (s_fail (newImage s)) eqn:Hf.
  { apply H; [reflexivity |]. left. cbn. rewrite Hf. auto. }
  destruct (io_ok E site) eqn:Hio; cbn [negb].
  2:{ apply H; [reflexivity |]. left. cbn. auto. }
  destruct (count <=? 0); (apply H; [reflexivity |]); right; cbn; rewrite ?Hf; auto.
Qed.

Lemma chunk_events_S i n :
  chunk_events i (S n)
  = chunk_events i n ++ [EvWrite (Chunk i (Z.of_nat n)) buffsize true].
Proof.
  unfold chunk_events. now rewrite seq_S, map_app.
Qed.

Lemma chunk_events_ok i n :
  Forall (fun e => exists st c, e = EvWrite st c true) (chunk_events i n).
Proof.
  unfold chunk_events. apply Forall_forall. intros e He.
  apply in_map_iff in He. destruct He as (j & <- & _). eauto.
Qed.

(** The chunk loop either appends its [n] accepted writes or leaves at the
    first refused one. *)
Lemma chunk_loop_summary i n s :
  wp (chunk_loop E n i 0)
     (fun _ s' => self s' = self s
                  /\ log s' = log s ++ chunk_events i n
                  /\ (s_fail (newImage s') = true -> s_fail (newImage s) = true))
     (fun o s' => o = Errored SeekOrWriteFailure
                  /\ exists sf, unit_write_failed E i s sf /\ abandons E sf s')
     s.
Proof.
  pose (Inv := fun (j : Z) (s' : St) =>
                 self s' = self s
                 /\ log s' = log s ++ chunk_events i (Z.to_nat j)
                 /\ (s_fail (newImage s') = true -> s_fail (newImage s) = true)).
  eapply wp_mono;
    [ | | apply (wp_chunk_loop E i Inv
                   (fun o s' => o = Errored SeekOrWriteFailure
                                /\ exists sf, unit_write_failed E i s sf
                                              /\ abandons E sf s') n 0 s) ].
  - intros _ s' (Hs & Hl & Hf). rewrite Z.add_0_l, Nat2Z.id in Hl. auto.
  - auto.
  - intros j s1 Hj (Hs & Hl & Hf). unfold chunk_body.
    apply wp_bind. apply write_log_spec. intros s2 Hs2 Hw.
    wp_exec.
    destruct Hw as [(Hcause & Hf2 & Hl2) | (Hf1 & Hio & Hf2 & Hl2)]; rewrite Hf2.
    + apply abandon_spec. intros s' Hab. split; [reflexivity |].
      exists s2. split; [| exact Hab].
      exists (chunk_events i (Z.to_nat j)), (Chunk i j), buffsize.
      repeat apply conj; auto.
      * apply chunk_events_ok.
      * destruct Hcause; auto.
      * congruence.
      * rewrite Hl2, Hl, <- app_assoc. reflexivity.
    + cbn. unfold Inv. repeat apply conj.
      * congruence.
      * replace (Z.to_nat (j + 1)) with (S (Z.to_nat j)) by lia.
        rewrite chunk_events_S, Hl2, Hl, <- app_assoc, Z2Nat.id by lia.
        reflexivity.
      * congruence.
  - unfold Inv. cbn. rewrite app_nil_r. auto.
Qed.

(** The summary of a unit: it goes on after its writes and its boundary,
    or it leaves in one of the two ways of [unit_exits]. *)
Lemma unit_body_summary N reqMiB i s :
  wp (unit_body E N reqMiB i)
     (fun _ s' => unit_continues E N reqMiB i s s')
     (unit_exits E N reqMiB i s) s.
Proof.
  unfold unit_body. cbn zeta.
  eapply wp_seq.
  { eapply wp_mono; [| | apply (chunk_loop_summary i)].
    - intros a s' H. exact H.
    - intros o s' H. left. exact H. }
  intros ? s1 (Hs1 & Hl1 & Hf1); cbn beta.
  apply wp_seq with
    (Q' := fun _ s2 => self s2 = self s /\ log s2 = log s ++ unit_writes N i).
  - unfold unit_writes.
    destruct (req4Kib_of N i =? 256); cbn [negb].
    + apply wp_ret. rewrite app_nil_r. auto.
    + apply wp_bind. apply write_log_spec. intros s2 Hs2 Hw.
      wp_exec.
      destruct Hw as [(Hcause & Hf2 & Hl2) | (Hf & Hio & Hf2 & Hl2)]; rewrite Hf2.
      * apply abandon_spec. intros s' Hab. left. split; [reflexivity |].
        exists s2. split; [| exact Hab].
        exists (chunk_events i (Z.to_nat (req4Kib_of N i))), (Tail i),
          (remainingBytes_of N i (req4Kib_of N i)).
        repeat apply conj; auto.
        -- apply chunk_events_ok.
        -- destruct Hcause; auto.
        -- congruence.
        -- rewrite Hl2, Hl1, <- app_assoc. reflexivity.
      * cbn. split; [congruence |].
        rewrite Hl2, Hl1, <- app_assoc. reflexivity.
  - intros ? s2 (Hs2 & Hl2); cbn beta.
    assert (Hdone : forall sb,
               self sb = boundary_self E reqMiB i (self s2) ->
               log sb = log s2 ++ boundary_events E reqMiB i (lastUpdate (self s2)) ->
               unit_done E N reqMiB i s sb).
    { intros sb Hsb Hlb. unfold unit_done.
      rewrite Hsb, Hlb, Hl2, Hs2, <- app_assoc. auto. }
    wp_exec. unfold boundary_self, boundary_events, due in Hdone.
    destruct (_ || _); cbn;
      (destruct (canceled_at E i) eqn:Hc;
       [ apply abandon_spec; intros s' Hab; right;
         split; [reflexivity | split; [exact Hc |]];
         eexists; split; [apply Hdone | exact Hab]
       | cbn; split; [exact Hc | apply Hdone] ]);
      cbn; rewrite ?Hc, <- ?app_assoc; reflexivity.
Qed.

End Summary.

(** ** The whole worker *)

Section Run.

Variable E : Env.
Variable this : HddCreate.
Variable fs : FileSystem.
Variable p : string.
Variable N : Z.

(** The part of [WriteImage] before the loop: three early returns, or the
    loop entered in the state [entry]. *)
Lemma wp_WriteImage (R : Outcome -> St -> Prop) :
  let off := s64 (u64 (N - 1)) in
  (fs_exists fs p = true ->
   R (Errored PathAlreadyExists) (mkSt (with_errored this) fs unopened [])) ->
  (fs_exists fs p = false -> open_ok E = false ->
   R (Errored OpenFailure)
     (mkSt (with_errored this) fs (mkStream p 0 true) [EvOpen p false])) ->
  (fs_exists fs p = false -> open_ok E = true ->
   forall sf s', sizing_failed this p off sf -> abandons E sf s' ->
                 R (Errored SeekOrWriteFailure) s') ->
  (fs_exists fs p = false -> open_ok E = true ->
   0 <= off -> io_ok E SizeSeek = true -> io_ok E SizeByte = true ->
   wp (unit_loop E (Z.to_nat (reqMiB_of N)) N (reqMiB_of N) 0 ;;
       flush E ;; close E)
      (fun _ => R Completed) R (entry E this fs p off)) ->
  wp (WriteImage E p N) (fun _ => R Completed) R (mkSt this fs unopened []).
Proof.
  intros off Hexists Hopen Hsize Hloop.
  unfold WriteImage. fold off.
  apply wp_bind. unfold wp at 1, fs_exists_. cbn [disk].
  destruct (fs_exists fs p) eqn:Hex.
  { wp_exec. now apply Hexists. }
  specialize (Hopen eq_refl). specialize (Hsize eq_refl). specialize (Hloop eq_refl).
  apply wp_bind. apply wp_ret.
  apply wp_bind. unfold wp at 1, open. cbn [self disk newImage log].
  destruct (open_ok E) eqn:Hop.
  2:{ wp_exec. now apply Hopen. }
  specialize (Hsize eq_refl). specialize (Hloop eq_refl).
  apply wp_bind. unfold wp at 1, fail. cbn.
  apply wp_bind. apply wp_ret.
  apply wp_bind. unfold wp at 1, seekp. cbn.
  destruct (off <? 0) eqn:Hoff; cbn [orb].
  { apply wp_bind. unfold wp at 1, write. cbn.
    apply wp_bind. unfold wp at 1, fail. cbn.
    apply wp_bind. apply abandon_spec. intros s' Hab.
    eapply Hsize; [| exact Hab]. split; [reflexivity |].
    exists false. cbn. auto. }
  destruct (io_ok E SizeSeek) eqn:Hseek; cbn [negb].
  2:{ apply wp_bind. unfold wp at 1, write. cbn.
      apply wp_bind. unfold wp at 1, fail. cbn.
      apply wp_bind. apply abandon_spec. intros s' Hab.
      eapply Hsize; [| exact Hab]. split; [reflexivity |].
      exists false. cbn. auto. }
  apply wp_bind. unfold wp at 1, write. cbn.
  destruct (io_ok E SizeByte) eqn:Hbyte; cbn [negb].
  2:{ apply wp_bind. unfold wp at 1, fail. cbn.
      apply wp_bind. apply abandon_spec. intros s' Hab.
      eapply Hsize; [| exact Hab]. split; [reflexivity |].
      exists true. cbn. split; [reflexivity | lia]. }
  cbn. rewrite fs_put_same.
  apply wp_bind. unfold wp at 1, fail. cbn.
  apply wp_bind. apply wp_ret.
  apply wp_bind. unfold wp at 1, steady_clock_now. cbn.
  apply wp_bind. unfold wp at 1, set_lastUpdate. cbn.
  apply wp_bind. unfold wp at 1, seekp. cbn.
  specialize (Hloop ltac:(lia) eq_refl eq_refl).
  unfold entry in Hloop.
  destruct (io_ok E Rewind); cbn; exact Hloop.
Qed.

Lemma epilogue_spec (Q : unit -> St -> Prop) (R : Outcome -> St -> Prop) s :
  (forall s',
      self s' = self s ->
      log s' = log s ++ [EvFlush (flush_ok E); EvClose (close_ok E)] ->
      (flush_ok E = true -> close_ok E = true -> disk s' = disk s) ->
      Q tt s') ->
  wp (flush E ;; close E) Q R s.
Proof.
  intros H. wp_exec.
  destruct (flush_ok E), (close_ok E); cbn; apply H; cbn;
    rewrite <- ?app_assoc; auto; discriminate.
Qed.

(** The loop over the units, from unit 0, followed by [rest]. *)
Lemma wp_units_then (Inv : Z -> St -> Prop) reqMiB (rest : M unit) Q R s :
  Inv 0 s ->
  (forall i s', 0 <= i < reqMiB -> Inv i s' ->
                wp (unit_body E N reqMiB i) (fun _ => Inv (i + 1)) R s') ->
  (forall s', Inv (Z.max 0 reqMiB) s' -> wp rest Q R s') ->
  wp (unit_loop E (Z.to_nat reqMiB) N reqMiB 0 ;; rest) Q R s.
Proof.
  intros H0 Hbody Hrest.
  eapply wp_seq.
  - apply (wp_unit_loop E N reqMiB Inv R (Z.to_nat reqMiB) 0 s); [| exact H0].
    intros i s' Hi. apply Hbody. lia.
  - intros ? s' Hs'; cbn beta in *. apply Hrest.
    replace (Z.max 0 reqMiB) with (0 + Z.of_nat (Z.to_nat reqMiB)) by lia.
    exact Hs'.
Qed.

End Run.

(** Induction over a run of the worker thread: [I] holds between the units,
    [X] holds of the outcome and the final state. *)
Lemma fileThread_ind E this fs (I : Z -> St -> Prop) (X : Outcome -> St -> Prop) :
  let p := filePath this in
  let N := neededSize this in
  let off := s64 (u64 (N - 1)) in
  let r := reqMiB_of N in
  (fs_exists fs p = true ->
   X (Errored PathAlreadyExists) (mkSt (with_errored this) fs unopened [])) ->
  (fs_exists fs p = false -> open_ok E = false ->
   X (Errored OpenFailure)
     (mkSt (with_errored this) fs (mkStream p 0 true) [EvOpen p false])) ->
  (fs_exists fs p = false -> open_ok E = true ->
   forall sf s', sizing_failed this p off sf -> abandons E sf s' ->
                 X (Errored SeekOrWriteFailure) s') ->
  (fs_exists fs p = false -> open_ok E = true -> 0 <= off ->
   I 0 (entry E this fs p off)) ->
  (forall i s s', 0 <= i < r -> I i s -> unit_continues E N r i s s' -> I (i + 1) s') ->
  (forall i s o s', 0 <= i < r -> I i s -> unit_exits E N r i s o s' -> X o s') ->
  (forall s s', I (Z.max 0 r) s -> self s' = self s ->
                log s' = log s ++ [EvFlush (flush_ok E); EvClose (close_ok E)] ->
                X Completed s') ->
  X (outcome E this fs) (final E this fs).
Proof.
  intros p N off r Hex Hop Hsz Hentry Hstep Hexit Hend.
  unfold outcome, final, fileThread. apply wp_run. apply wp_WriteImage; auto.
  intros Hfs Hopen Hoff _ _.
  apply wp_units_then with (Inv := I); auto.
  - intros i s' Hi Hs'.
    eapply wp_mono; [| | apply unit_body_summary]; cbn beta.
    + intros _ s''. apply Hstep; auto.
    + intros o s''. apply Hexit; auto.
  - intros s' Hs'. apply epilogue_spec. intros s'' Hself Hlog _.
    eapply Hend; eauto.
Qed.

(** ** How a run ends *)

Section Exits.

Variable E : Env.

Lemma unit_writes_calm N i : Forall calm (unit_writes N i).
Proof.
  unfold unit_writes. apply Forall_app. split.
  - eapply Forall_impl; [| apply chunk_events_ok].
    intros e (st & c & ->). exact I.
  - destruct (_ =? _); repeat constructor.
Qed.

Lemma boundary_events_split reqMiB i last :
  exists l, boundary_events E reqMiB i last = l ++ [EvCanceled i (canceled_at E i)]
            /\ Forall calm l.
Proof.
  unfold boundary_events.
  exists (EvNow (AtUnit i) (unit_time E i)
          :: (if due reqMiB i (unit_time E i) last
              then [EvProgress (i + 1) (unit_time E i)] else [])).
  split; [reflexivity |].
  destruct (due _ _ _ _); repeat constructor.
Qed.

Lemma boundary_self_filePath reqMiB i h :
  filePath (boundary_self E reqMiB i h) = filePath h.
Proof. unfold boundary_self. now destruct (due _ _ _ _). Qed.

Lemma boundary_self_errored reqMiB i h :
  errored (boundary_self E reqMiB i h) = errored h.
Proof. unfold boundary_self. now destruct (due _ _ _ _). Qed.

Lemma ok_writes_calm l :
  Forall (fun e => exists st c, e = EvWrite st c true) l -> Forall calm l.
Proof.
  apply Forall_impl. intros e (st & c & ->). exact I.
Qed.

Theorem run_ends this fs : ended E this fs (outcome E this fs) (final E this fs).
Proof.
  apply (fileThread_ind E this fs
           (fun _ s => filePath (self s) = filePath this
                       /\ errored (self s) = errored this
                       /\ Forall calm (log s))).
  - intros Hex. unfold ended. cbn. auto.
  - intros Hex Hop. unfold ended. cbn. auto.
  - intros Hex Hop sf s' (Hself & ok & Hlog & _) (Hs' & Hdisk & Hl').
    rewrite Hself in *. unfold ended. rewrite Hs'. cbn. repeat apply conj; auto.
    exists [EvOpen (filePath this) true;
            EvSeek SizeSeek (s64 (u64 (neededSize this - 1))) ok],
      (EvWrite SizeByte 1 false).
    rewrite Hl', Hlog. cbn. repeat apply conj; auto.
    repeat constructor.
  - intros Hex Hop Hoff. cbn. repeat apply conj; auto. repeat constructor.
  - intros i s s' Hi (Hp & Herr & Hcalm) (Hc & Hself & Hlog).
    rewrite Hself, boundary_self_filePath, boundary_self_errored, Hlog.
    repeat apply conj; auto.
    destruct (boundary_events_split (reqMiB_of (neededSize this)) i
                (lastUpdate (self s))) as (l & -> & Hl).
    rewrite Hc.
    apply Forall_app; split; [exact Hcalm |].
    apply Forall_app; split; [apply unit_writes_calm |].
    apply Forall_app; split; [exact Hl | repeat constructor].
  - intros i s o s' Hi (Hp & Herr & Hcalm) [(-> & sf & Hfail & Hab) | (-> & Hc & sb & Hdone & Hab)].
    + destruct Hfail as (done & site & n & Hsite & Hdone & _ & Hself & Hlog).
      destruct Hab as (Hs' & Hdisk & Hl').
      rewrite Hself, Hp in *. unfold ended. rewrite Hs'. cbn.
      repeat apply conj; auto.
      exists (log s ++ done), (EvWrite site n false).
      rewrite Hl', Hlog, <- !app_assoc. cbn. repeat apply conj; auto.
      apply Forall_app. split; auto. now apply ok_writes_calm.
    + destruct Hdone as (Hself & Hlog).
      destruct Hab as (Hs' & Hdisk & Hl').
      rewrite Hself, boundary_self_filePath, Hp in *.
      unfold ended. rewrite Hs'. cbn. rewrite boundary_self_filePath.
      repeat apply conj; auto.
      destruct (boundary_events_split (reqMiB_of (neededSize this)) i
                  (lastUpdate (self s))) as (l & Hb & Hl).
      exists (log s ++ unit_writes (neededSize this) i ++ l), (EvCanceled i true).
      rewrite Hl', Hlog, Hb, Hc, <- !app_assoc. cbn. repeat apply conj; auto.
      apply Forall_app; split; [exact Hcalm |].
      apply Forall_app; split; [apply unit_writes_calm | exact Hl].
  - intros s s' (Hp & Herr & Hcalm) Hself Hlog. unfold ended.
    rewrite Hself, Hlog. repeat apply conj; auto.
    apply Forall_app. split; auto. repeat constructor.
Qed.

End Exits.

(** ** The image a completed run leaves *)

Lemma sizing_offset N :
  is_u64 N -> 0 < N -> 0 <= s64 (u64 (N - 1)) -> s64 (u64 (N - 1)) = N - 1.
Proof.
  unfold is_u64, s64, u64. intros HN Hpos Hoff. euclid.
Qed.

Lemma image_on_success E this fs :
  is_u64 (neededSize this) -> 0 < neededSize this ->
  flush_ok E = true -> close_ok E = true ->
  outcome E this fs = Completed ->
  holds_image (neededSize this) (filePath this) (disk (final E this fs)).
Proof.
  intros HN Hpos Hflush Hclose.
  set (N := neededSize this) in *. set (p := filePath this) in *.
  unfold outcome, final, fileThread. fold N p.
  apply (wp_run (WriteImage E p N)
           (fun o s => o = Completed -> holds_image N p (disk s))).
  apply (wp_WriteImage E this fs p N
           (fun o s => o = Completed -> holds_image N p (disk s)));
    try discriminate.
  intros Hfs Hopen Hoff _ _.
  apply wp_units_then with (Inv := fun i => writing N p (i * 2 ^ 20)).
  - rewrite (sizing_offset N HN Hpos Hoff) in *. unfold writing, entry. cbn.
    repeat apply conj.
    + now destruct (io_ok E Rewind).
    + eexists. rewrite fs_put_same. split; [reflexivity |]. split.
      * cbn. lia.
      * intros o _. cbn. now destruct (_ && _).
    + destruct (io_ok E Rewind); cbn; [lia | discriminate].
  - intros i s' Hi Hs'.
    eapply wp_mono; [| | apply (unit_body_keeps_image E N p HN)]; cbn beta; eauto.
    unfold not_completed. intros o s'' Ho Ho'. contradiction.
  - intros s' (_ & Himg & _). apply epilogue_spec. intros s'' _ _ Hdisk _.
    now rewrite Hdisk.
Qed.

(** ** Reading the log: emissions and clock readings *)

Section LogFacts.

Lemma emissions_app l l' : emissions (l ++ l') = emissions l ++ emissions l'.
Proof. unfold emissions. apply flat_map_app. Qed.

Lemma published_app l l' : published (l ++ l') = published l ++ published l'.
Proof. unfold published. now rewrite emissions_app, map_app. Qed.

Lemma emissions_inert l : Forall inert l -> emissions l = [].
Proof.
  induction 1 as [| e l He _ IH]; [reflexivity |].
  cbn. fold (emissions l). rewrite IH. now destruct e.
Qed.

Lemma published_inert l : Forall inert l -> published l = [].
Proof. intros H. unfold published. now rewrite emissions_inert. Qed.

Lemma In_emissions v t l : In (v, t) (emissions l) <-> In (EvProgress v t) l.
Proof.
  unfold emissions. rewrite in_flat_map. split.
  - intros (e & He & Hin). destruct e; cbn in Hin; try contradiction.
    destruct Hin as [Heq | []]. now inversion Heq; subst.
  - intros H. exists (EvProgress v t). cbn. auto.
Qed.

Lemma inert_not_In l e : Forall inert l -> ~ inert e -> ~ In e l.
Proof.
  intros Hl He Hin. rewrite Forall_forall in Hl. now apply Hl in Hin.
Qed.

Lemma last_before_inert L i l : Forall inert l -> last_before L i l = L.
Proof.
  induction 1 as [| e l He _ IH]; [reflexivity |].
  destruct e; cbn in *; try contradiction; auto.
Qed.

(** Once the boundary of unit [i] is in the log, what follows does not
    change [last_before]. *)
Lemma last_before_app_seen L i l l' t :
  In (EvNow (AtUnit i) t) l -> last_before L i (l ++ l') = last_before L i l.
Proof.
  revert L. induction l as [| e l IH]; intros L Hin; [contradiction |].
  destruct Hin as [-> | Hin].
  - cbn. now rewrite Z.eqb_refl.
  - destruct e as [| | | [| j] t' | | | | |]; cbn; auto.
    destruct (j =? i); auto.
Qed.

Lemma last_before_app_unseen L i l l' :
  (forall t, ~ In (EvNow (AtUnit i) t) l) ->
  last_before L i (l ++ l') = last_before (last_before L i l) i l'.
Proof.
  revert L. induction l as [| e l IH]; intros L Hnot; [reflexivity |].
  assert (Hl : forall t, ~ In (EvNow (AtUnit i) t) l)
    by (intros t Hin; apply (Hnot t); now right).
  destruct e as [| | | [| j] t' | | | | |]; cbn; auto.
  destruct (j =? i) eqn:Hj; auto.
  exfalso. apply (Hnot t'). left. f_equal. f_equal. lia.
Qed.

Lemma ForallOrdPairs_snoc {A} (R : A -> A -> Prop) l x :
  ForallOrdPairs R l -> Forall (fun y => R y x) l ->
  ForallOrdPairs R (l ++ [x]).
Proof.
  induction 1 as [| a l Ha Hl IH]; intros Hx; cbn.
  - constructor; constructor.
  - inversion Hx; subst. constructor; auto.
    apply Forall_app. split; auto.
Qed.

Lemma StronglySorted_snoc l x :
  StronglySorted Z.lt l -> Forall (fun y => y < x) l ->
  StronglySorted Z.lt (l ++ [x]).
Proof.
  induction 1 as [| a l Hl IH Ha]; intros Hx; cbn.
  - constructor; constructor.
  - inversion Hx; subst. constructor; auto.
    apply Forall_app. split; auto.
Qed.

Lemma StronglySorted_from l w :
  StronglySorted Z.lt l -> Forall (fun v => w <= v) l ->
  StronglySorted Z.le (w :: l).
Proof.
  intros Hs Hw. constructor; [| exact Hw]. clear Hw.
  induction Hs as [| a l Hl IH Ha]; constructor; auto.
  eapply Forall_impl; [| exact Ha]. cbn. intros; lia.
Qed.

Lemma count_occ_last l x :
  Forall (fun y => y < x) l -> count_occ Z.eq_dec (l ++ [x]) x = 1%nat.
Proof.
  intros Hl. rewrite count_occ_app.
  replace (count_occ Z.eq_dec l x) with 0%nat.
  - cbn. now destruct (Z.eq_dec x x).
  - symmetry. apply count_occ_not_In. intros Hin.
    rewrite Forall_forall in Hl. apply Hl in Hin. lia.
Qed.

Lemma ok_writes_inert l :
  Forall (fun e => exists st c, e = EvWrite st c true) l -> Forall inert l.
Proof. apply Forall_impl. intros e (st & c & ->). exact I. Qed.

Lemma unit_writes_inert N i : Forall inert (unit_writes N i).
Proof.
  unfold unit_writes. apply Forall_app. split.
  - apply ok_writes_inert, chunk_events_ok.
  - destruct (_ =? _); repeat constructor.
Qed.

End LogFacts.

(** ** The published values *)

Section Counting.

Variable E : Env.
Variable N r : Z.

Lemma boundary_events_emissions i last :
  emissions (boundary_events E r i last)
  = if due r i (unit_time E i) last then [(i + 1, unit_time E i)] else [].
Proof.
  unfold boundary_events. destruct (due _ _ _ _); reflexivity.
Qed.

Lemma unit_done_emissions i s sb :
  unit_done E N r i s sb ->
  emissions (log sb)
  = emissions (log s)
    ++ (if due r i (unit_time E i) (lastUpdate (self s))
        then [(i + 1, unit_time E i)] else []).
Proof.
  intros (_ & Hlog).
  rewrite Hlog, !emissions_app, boundary_events_emissions.
  now rewrite (emissions_inert _ (unit_writes_inert N i)).
Qed.

Lemma unit_done_published i s sb :
  unit_done E N r i s sb ->
  published (log sb)
  = published (log s)
    ++ (if due r i (unit_time E i) (lastUpdate (self s)) then [i + 1] else []).
Proof.
  intros H. unfold published. rewrite (unit_done_emissions i s sb H), map_app.
  now destruct (due _ _ _ _).
Qed.

Lemma due_last_unit i t last : i + 1 = r -> due r i t last = true.
Proof. intros H. unfold due. apply orb_true_iff. right. lia. Qed.

Lemma counted_step w0 i s sb :
  0 <= i ->
  counted r w0 i s -> unit_done E N r i s sb -> counted r w0 (i + 1) sb.
Proof.
  intros Hi (Hsort & Hbound & Hw & _) Hdone.
  pose proof (unit_done_published i s sb Hdone) as Hpub.
  destruct Hdone as (Hself & _). unfold boundary_self in Hself.
  unfold counted. rewrite Hpub, Hself.
  destruct (due r i (unit_time E i) (lastUpdate (self s))) eqn:Hdue.
  - assert (Hlt : Forall (fun y => y < i + 1) (published (log s)))
      by (eapply Forall_impl; [| exact Hbound]; cbn; intros; lia).
    repeat apply conj.
    + now apply StronglySorted_snoc.
    + apply Forall_app. split.
      * eapply Forall_impl; [| exact Hbound]. cbn; intros; lia.
      * repeat constructor; lia.
    + cbn. now rewrite last_last.
    + intros _ <-. exists (published (log s)). auto.
  - rewrite app_nil_r. repeat apply conj; auto.
    + eapply Forall_impl; [| exact Hbound]. cbn; intros; lia.
    + intros _ Heq. rewrite due_last_unit in Hdue; [discriminate | exact Heq].
Qed.

(** What [counted] says of a log that only grew by inert events. *)
Lemma counted_grown w0 i s s' l' :
  counted r w0 i s -> i <= Z.max 0 r ->
  log s' = log s ++ l' -> Forall inert l' ->
  written (self s') = written (self s) ->
  StronglySorted Z.lt (published (log s'))
  /\ Forall (fun v => 1 <= v <= Z.max 0 r) (published (log s'))
  /\ written (self s') = last (published (log s')) w0.
Proof.
  intros (Hsort & Hbound & Hw & _) Hi Hlog Hl' Hwritten.
  rewrite Hlog, published_app, (published_inert l' Hl'), app_nil_r, Hwritten.
  repeat apply conj; auto.
  eapply Forall_impl; [| exact Hbound]. cbn; intros; lia.
Qed.

End Counting.

(** The values a run publishes. *)
Lemma run_counted E this fs :
  let r := reqMiB_of (neededSize this) in
  let pub := published (log (final E this fs)) in
  StronglySorted Z.lt pub
  /\ Forall (fun v => 1 <= v <= Z.max 0 r) pub
  /\ written (self (final E this fs)) = last pub (written this)
  /\ (outcome E this fs = Completed -> 0 < r ->
      exists l0, pub = l0 ++ [r] /\ Forall (fun v => v < r) l0).
Proof.
  intros r pub. unfold pub.
  apply (fileThread_ind E this fs
           (fun i s => 0 <= i <= Z.max 0 r /\ counted r (written this) i s)
           (fun o s =>
              StronglySorted Z.lt (published (log s))
              /\ Forall (fun v => 1 <= v <= Z.max 0 r) (published (log s))
              /\ written (self s) = last (published (log s)) (written this)
              /\ (o = Completed -> 0 < r ->
                  exists l0, published (log s) = l0 ++ [r]
                             /\ Forall (fun v => v < r) l0)));
    cbn beta.
  - intros _. cbn. repeat split; try constructor; discriminate.
  - intros _ _. cbn. repeat split; try constructor; discriminate.
  - intros _ _ sf s' (Hself & ok & Hlog & _) (Hs' & _ & Hl').
    rewrite Hl', Hlog, Hs', Hself. cbn.
    repeat split; try constructor; discriminate.
  - intros _ _ _. split; [lia |]. unfold counted. cbn.
    repeat split; try constructor; lia.
  - intros i s s' Hi (Hr & Hc) (_ & Hdone). split; [lia |].
    eapply counted_step; eauto. lia.
  - intros i s o s' Hi (Hr & Hc)
      [(-> & sf & Hfail & Hab) | (-> & _ & sb & Hdone & Hab)].
    + destruct Hfail as (done & site & n & _ & Hdone & _ & Hself & Hlog).
      destruct Hab as (Hs' & _ & Hl').
      destruct (counted_grown r (written this) i s s'
                  (done ++ [EvWrite site n false;
                            EvClose (close_ok E); EvRemove (filePath (self sf))])
                  Hc ltac:(lia))
        as (H1 & H2 & H3).
      * rewrite Hl', Hlog, <- !app_assoc. reflexivity.
      * apply Forall_app. split; [now apply ok_writes_inert | repeat constructor].
      * now rewrite Hs', <- Hself.
      * repeat split; auto. discriminate.
    + assert (Hc' : counted r (written this) (i + 1) sb)
        by (eapply counted_step; eauto; lia).
      destruct Hab as (Hs' & _ & Hl').
      destruct (counted_grown r (written this) (i + 1) sb s'
                  [EvClose (close_ok E); EvRemove (filePath (self sb))]
                  Hc' ltac:(lia) Hl')
        as (H1 & H2 & H3).
      * repeat constructor.
      * now rewrite Hs'.
      * repeat split; auto. discriminate.
  - intros s s' (Hr & Hc) Hself Hlog.
    destruct (counted_grown r (written this) (Z.max 0 r) s s'
                [EvFlush (flush_ok E); EvClose (close_ok E)]
                Hc ltac:(lia) Hlog)
      as (H1 & H2 & H3).
    + repeat constructor.
    + now rewrite Hself.
    + repeat split; auto. intros _ Hpos.
      destruct Hc as (_ & _ & _ & Hlast).
      destruct Hlast as (l0 & Hl0 & Hlt); try lia.
      exists l0. split; auto.
      now rewrite Hlog, published_app, Hl0, (published_inert [_; _]), app_nil_r
        by repeat constructor.
Qed.

(** ** The pacing of the emissions *)

Section Pacing.

Variable E : Env.
Variable N r L0 : Z.
Hypothesis Hsteady : steady E.

Lemma boundary_In_now i last j t :
  In (EvNow (AtUnit j) t) (boundary_events E r i last)
  <-> j = i /\ t = unit_time E i.
Proof.
  unfold boundary_events. split.
  - intros [Heq | Hin].
    + inversion Heq; subst. auto.
    + apply in_app_or in Hin. destruct Hin as [Hin | [Heq | []]]; [| discriminate].
      destruct (due _ _ _ _); [destruct Hin as [Heq | []]; discriminate | contradiction].
  - intros (-> & ->). now left.
Qed.

Lemma boundary_In_progress i last v t :
  In (EvProgress v t) (boundary_events E r i last)
  <-> due r i (unit_time E i) last = true /\ v = i + 1 /\ t = unit_time E i.
Proof.
  unfold boundary_events. split.
  - intros [Heq | Hin]; [discriminate |].
    apply in_app_or in Hin. destruct Hin as [Hin | [Heq | []]]; [| discriminate].
    destruct (due _ _ _ _); [| contradiction].
    destruct Hin as [Heq | []]. inversion Heq; subst. auto.
  - intros (Hd & -> & ->). rewrite Hd. right. cbn. auto.
Qed.

Lemma boundary_last_before i last k L :
  last_before L k (boundary_events E r i last)
  = if i =? k then L
    else if due r i (unit_time E i) last then unit_time E i else L.
Proof.
  unfold boundary_events. cbn. destruct (i =? k); [reflexivity |].
  destruct (due _ _ _ _); reflexivity.
Qed.

Lemma unit_done_In i s sb e :
  unit_done E N r i s sb ->
  ~ inert e ->
  (In e (log sb) <-> In e (log s) \/ In e (boundary_events E r i (lastUpdate (self s)))).
Proof.
  intros (_ & Hlog) He. rewrite Hlog, !in_app_iff.
  pose proof (inert_not_In _ e (unit_writes_inert N i) He). tauto.
Qed.

Lemma unit_done_lastUpdate i s sb :
  unit_done E N r i s sb ->
  lastUpdate (self sb)
  = if due r i (unit_time E i) (lastUpdate (self s))
    then unit_time E i else lastUpdate (self s).
Proof.
  intros (Hself & _). rewrite Hself. unfold boundary_self.
  now destruct (due _ _ _ _).
Qed.

Lemma due_elapsed i t last :
  due r i t last = true -> 100 * 1000000 <= t - last \/ i + 1 = r.
Proof.
  unfold due, elapsed_ms. intros H. apply orb_true_iff in H.
  destruct H as [H | H]; [left | right; lia].
  apply Z.geb_le in H. Z.to_euclidean_division_equations. lia.
Qed.

Lemma paced_step i s sb :
  0 <= i ->
  paced E r L0 i s -> unit_done E N r i s sb -> paced E r L0 (i + 1) sb.
Proof.
  intros Hi (Hem & Hnow & Hthr & Hlast & Hsp & Hclk) Hdone.
  pose proof (unit_done_emissions E N r i s sb Hdone) as Hems.
  pose proof (unit_done_lastUpdate i s sb Hdone) as Hlu.
  pose proof (Hclk i ltac:(lia)) as Hle.
  assert (HinNow : forall j t, In (EvNow (AtUnit j) t) (log sb) <->
                               In (EvNow (AtUnit j) t) (log s)
                               \/ (j = i /\ t = unit_time E i)).
  { intros j t. rewrite (unit_done_In i s sb _ Hdone) by (cbn; tauto).
    now rewrite boundary_In_now. }
  assert (HinPr : forall v t, In (EvProgress v t) (log sb) <->
                              In (EvProgress v t) (log s)
                              \/ (due r i (unit_time E i) (lastUpdate (self s)) = true
                                  /\ v = i + 1 /\ t = unit_time E i)).
  { intros v t. rewrite (unit_done_In i s sb _ Hdone) by (cbn; tauto).
    now rewrite boundary_In_progress. }
  assert (Hunseen : forall k, i <= k -> forall t, ~ In (EvNow (AtUnit k) t) (log s)).
  { intros k Hk t Hin. apply Hnow in Hin. lia. }
  assert (Hlb : forall k L,
             last_before L k (unit_writes N i
                              ++ boundary_events E r i (lastUpdate (self s)))
             = last_before L k (boundary_events E r i (lastUpdate (self s)))).
  { intros k L. rewrite last_before_app_unseen.
    - now rewrite (last_before_inert _ _ _ (unit_writes_inert N i)).
    - intros t. apply inert_not_In; [apply unit_writes_inert | cbn; tauto]. }
  destruct Hdone as (_ & Hlog).
  unfold paced. repeat apply conj.
  - intros v t Hin. rewrite Hems in Hin. apply in_app_or in Hin.
    rewrite Hlu. destruct Hin as [Hin | Hin].
    + apply Hem in Hin. destruct (due _ _ _ _); lia.
    + destruct (due _ _ _ _); [| contradiction].
      destruct Hin as [Heq | []]. inversion Heq; subst. lia.
  - intros j t Hin. apply HinNow in Hin. destruct Hin as [Hin | (-> & ->)].
    + apply Hnow in Hin. lia.
    + split; [lia | reflexivity].
  - intros j t Hin. apply HinNow in Hin. rewrite HinPr.
    destruct Hin as [Hin | (-> & ->)].
    + pose proof (Hnow _ _ Hin) as (Hj & _).
      rewrite Hlog, (last_before_app_seen _ _ _ _ _ Hin).
      rewrite <- (Hthr j t Hin). split; [| tauto].
      intros [H | (_ & H & _)]; [exact H | lia].
    + rewrite Hlog, last_before_app_unseen by (apply Hunseen; lia).
      rewrite Hlb, boundary_last_before, Z.eqb_refl, Hlast by lia.
      split; [| tauto].
      intros [H | (H & _)]; [| exact H].
      apply In_emissions, Hem in H. lia.
  - intros k Hk.
    rewrite Hlog, last_before_app_unseen by (apply Hunseen; lia).
    rewrite Hlb, boundary_last_before, Hlast, Hlu by lia.
    replace (i =? k) with false by lia. reflexivity.
  - rewrite Hems. destruct (due _ _ _ _) eqn:Hdue.
    + apply ForallOrdPairs_snoc; [exact Hsp |].
      apply Forall_forall. intros [v t] Hin. apply Hem in Hin.
      unfold spaced. cbn. apply due_elapsed in Hdue. lia.
    + now rewrite app_nil_r.
  - intros k Hk. rewrite Hlu. destruct (due _ _ _ _).
    + apply Hsteady. lia.
    + apply Hclk. lia.
Qed.

(** What [paced] says of the log, and of a log that grew by inert events. *)
Lemma throttled_grown l l' :
  throttled r L0 l -> Forall inert l' -> throttled r L0 (l ++ l').
Proof.
  intros Hthr Hl' j t Hin.
  assert (Hin' : In (EvNow (AtUnit j) t) l).
  { apply in_app_or in Hin. destruct Hin as [Hin | Hin]; [exact Hin |].
    exfalso. revert Hin. apply inert_not_In; [exact Hl' | cbn; tauto]. }
  rewrite (last_before_app_seen _ _ _ _ _ Hin'), <- (Hthr j t Hin'), in_app_iff.
  split; [| tauto].
  intros [H | H]; [exact H |].
  exfalso. revert H. apply inert_not_In; [exact Hl' | cbn; tauto].
Qed.

Lemma throttled_inert l : Forall inert l -> throttled r L0 l.
Proof.
  intros Hl j t Hin. exfalso. revert Hin.
  apply inert_not_In; [exact Hl | cbn; tauto].
Qed.

End Pacing.

(** The pacing of a whole run. *)
Lemma run_paced E this fs :
  steady E ->
  let r := reqMiB_of (neededSize this) in
  ForallOrdPairs (spaced r) (emissions (log (final E this fs)))
  /\ throttled r (lastUpdate this) (log (final E this fs)).
Proof.
  intros Hsteady r.
  set (L0 := lastUpdate this).
  assert (Hinert : forall l, Forall inert l ->
                             ForallOrdPairs (spaced r) (emissions l)
                             /\ throttled r L0 l).
  { intros l Hl. rewrite (emissions_inert l Hl). split; [constructor |].
    now apply throttled_inert. }
  assert (Hgrown : forall i s s' l',
             paced E r L0 i s -> log s' = log s ++ l' -> Forall inert l' ->
             ForallOrdPairs (spaced r) (emissions (log s'))
             /\ throttled r L0 (log s')).
  { intros i s s' l' (_ & _ & Hthr & _ & Hsp & _) Hlog Hl'.
    rewrite Hlog, emissions_app, (emissions_inert l' Hl'), app_nil_r.
    split; [exact Hsp | now apply throttled_grown]. }
  apply (fileThread_ind E this fs
           (fun i s => 0 <= i /\ paced E r L0 i s)
           (fun _ s => ForallOrdPairs (spaced r) (emissions (log s))
                       /\ throttled r L0 (log s)));
    cbn beta.
  - intros _. apply Hinert. constructor.
  - intros _ _. apply Hinert. repeat constructor.
  - intros _ _ sf s' (_ & ok & Hlog & _) (_ & _ & Hl').
    apply Hinert. rewrite Hl', Hlog. repeat constructor.
  - intros _ _ _. split; [lia |]. unfold paced, entry. cbn [log self lastUpdate with_lastUpdate].
    destruct Hsteady as (Hs0 & Hmono).
    repeat apply conj.
    + cbn. contradiction.
    + intros j t Hin. cbn in Hin.
      repeat (destruct Hin as [Hin | Hin]; [discriminate |]). contradiction.
    + intros j t Hin. cbn in Hin.
      repeat (destruct Hin as [Hin | Hin]; [discriminate |]). contradiction.
    + intros k _. reflexivity.
    + cbn. constructor.
    + intros k Hk. specialize (Hmono 0 k ltac:(lia)). lia.
  - intros i s s' Hi (Hi0 & Hp) (_ & Hdone). split; [lia |].
    eapply paced_step; eauto.
  - intros i s o s' Hi (Hi0 & Hp)
      [(-> & sf & Hfail & Hab) | (-> & _ & sb & Hdone & Hab)].
    + destruct Hfail as (done & site & n & _ & Hdone & _ & Hself & Hlog).
      destruct Hab as (_ & _ & Hl').
      apply (Hgrown i s s'
               (done ++ [EvWrite site n false;
                         EvClose (close_ok E); EvRemove (filePath (self sf))]) Hp).
      * rewrite Hl', Hlog, <- !app_assoc. reflexivity.
      * apply Forall_app. split; [now apply ok_writes_inert | repeat constructor].
    + assert (Hp' : paced E r L0 (i + 1) sb) by (eapply paced_step; eauto).
      destruct Hab as (_ & _ & Hl').
      apply (Hgrown (i + 1) sb s' _ Hp' Hl'). repeat constructor.
  - intros s s' (_ & Hp) _ Hlog.
    apply (Hgrown _ s s' _ Hp Hlog). repeat constructor.
Qed.

Lemma reqMiB_le_ceil N :
  is_u64 N -> 0 < N -> Z.max 0 (reqMiB_of N) <= ceil_MiB N.
Proof.
  intros HN Hpos.
  assert (0 < ceil_MiB N) by (unfold ceil_MiB; euclid).
  destruct (Z.le_gt_cases (reqMiB_of N) 0) as [Hle | Hgt]; [lia |].
  pose proof (unit_starts_inside N HN (reqMiB_of N - 1) ltac:(lia)).
  unfold ceil_MiB in *. euclid.
Qed.

Lemma reqMiB_ceil N :
  is_u64 N -> 0 < N <= (2 ^ 31 - 1) * 2 ^ 20 -> reqMiB_of N = ceil_MiB N.
Proof.
  intros HN Hr. unfold reqMiB_of, ceil_MiB, is_u64 in *.
  rewrite u64_small by (pow2; lia).
  rewrite s32_small by euclid. reflexivity.
Qed.

(** ** The buffer *)

Lemma buff_zero E k : 0 <= k < buffsize -> buff E k = 0.
Proof.
  intros Hk. unfold buff.
  replace ((0 <=? k) && (k <? buffsize)) with true; [reflexivity |].
  symmetry. apply andb_true_iff. lia.
Qed.

(** ** Two small runs *)

(** 5000 bytes on a quiet system: one unit, of one chunk and a tail of 904
    bytes. *)
Example quiet_run_5000 :
  outcome quiet_env (request "hdd.raw" 5000) no_files = Completed
  /\ log (final quiet_env (request "hdd.raw" 5000) no_files)
     = [EvOpen "hdd.raw" true; EvSeek SizeSeek 4999 true; EvWrite SizeByte 1 true;
        EvNow BeforeLoop 0; EvSeek Rewind 0 true;
        EvWrite (Chunk 0 0) 4096 true; EvWrite (Tail 0) 904 true;
        EvNow (AtUnit 0) 30000000; EvProgress 1 30000000; EvCanceled 0 false;
        EvFlush true; EvClose true]
  /\ option_map f_size (disk (final quiet_env (request "hdd.raw" 5000) no_files) "hdd.raw")
     = Some 5000.
Proof. vm_compute. repeat split. Qed.

(** The same request when the device refuses the first chunk. *)
Example refused_run_5000 :
  outcome (refusing_env 0 0) (request "hdd.raw" 5000) no_files
  = Errored SeekOrWriteFailure
  /\ log (final (refusing_env 0 0) (request "hdd.raw" 5000) no_files)
     = [EvOpen "hdd.raw" true; EvSeek SizeSeek 4999 true; EvWrite SizeByte 1 true;
        EvNow BeforeLoop 0; EvSeek Rewind 0 true;
        EvWrite (Chunk 0 0) 4096 false; EvClose true; EvRemove "hdd.raw"]
  /\ disk (final (refusing_env 0 0) (request "hdd.raw" 5000) no_files) "hdd.raw" = None.
Proof. vm_compute. repeat split. Qed.

(** ** Further facts about a run *)

Lemma sizing_offset_negative N :
  is_u64 N -> N = 0 \/ 2 ^ 63 < N -> s64 (u64 (N - 1)) < 0.
Proof.
  unfold is_u64, s64, u64. intros HN H. euclid.
Qed.

Lemma boundary_self_neededSize E reqMiB i h :
  neededSize (boundary_self E reqMiB i h) = neededSize h.
Proof. unfold boundary_self. now destruct (due _ _ _ _). Qed.

Lemma boundary_events_keep E reqMiB i last :
  Forall (fun e => ~ is_removal e) (boundary_events E reqMiB i last).
Proof.
  unfold boundary_events. constructor; [cbn; tauto |].
  apply Forall_app. split.
  - destruct (due _ _ _ _); repeat constructor; cbn; tauto.
  - repeat constructor; cbn; tauto.
Qed.

Lemma ok_writes_keep l :
  Forall (fun e => exists st c, e = EvWrite st c true) l ->
  Forall (fun e => ~ is_removal e) l.
Proof. apply Forall_impl. intros e (st & c & ->). cbn. tauto. Qed.

Lemma unit_writes_keep N i : Forall (fun e => ~ is_removal e) (unit_writes N i).
Proof.
  unfold unit_writes. apply Forall_app. split.
  - apply ok_writes_keep, chunk_events_ok.
  - destruct (_ =? _); repeat constructor; cbn; tauto.
Qed.

(** The worker leaves [neededSize] alone. *)
Lemma run_keeps_size E this fs :
  neededSize (self (final E this fs)) = neededSize this.
Proof.
  apply (fileThread_ind E this fs
           (fun _ s => neededSize (self s) = neededSize this)
           (fun _ s => neededSize (self s) = neededSize this)); cbn beta.
  - reflexivity.
  - reflexivity.
  - intros _ _ sf s' (Hself & _) (Hs' & _). now rewrite Hs', Hself.
  - reflexivity.
  - intros i s s' _ Hs (_ & Hself & _). now rewrite Hself, boundary_self_neededSize.
  - intros i s o s' _ Hs [(_ & sf & Hf & Hab) | (_ & _ & sb & Hd & Hab)].
    + destruct Hf as (done & site & n & _ & _ & _ & Hself & _).
      destruct Hab as (Hs' & _).
      now rewrite Hs', Hself.
    + destruct Hd as (Hself & _). destruct Hab as (Hs' & _).
      rewrite Hs'. cbn. now rewrite Hself, boundary_self_neededSize.
  - intros s s' Hs Hself _. now rewrite Hself.
Qed.

(** Where a run removes a file. *)
Lemma run_removals E this fs :
  match outcome E this fs with
  | Errored SeekOrWriteFailure | Errored UserCanceled =>
      exists l, log (final E this fs)
                = l ++ [EvClose (close_ok E); EvRemove (filePath this)]
                /\ Forall (fun e => ~ is_removal e) l
  | _ => Forall (fun e => ~ is_removal e) (log (final E this fs))
  end.
Proof.
  apply (fileThread_ind E this fs
           (fun _ s => filePath (self s) = filePath this
                       /\ Forall (fun e => ~ is_removal e) (log s))
           (fun o s =>
              match o with
              | Errored SeekOrWriteFailure | Errored UserCanceled =>
                  exists l, log s = l ++ [EvClose (close_ok E); EvRemove (filePath this)]
                            /\ Forall (fun e => ~ is_removal e) l
              | _ => Forall (fun e => ~ is_removal e) (log s)
              end)); cbn beta iota.
  - intros _. constructor.
  - intros _ _. repeat constructor. cbn. tauto.
  - intros _ _ sf s' (Hself & ok & Hlog & _) (_ & _ & Hl').
    exists (log sf). rewrite Hl', Hself. split; [reflexivity |].
    rewrite Hlog. repeat constructor; cbn; tauto.
  - intros _ _ _. split; [reflexivity |]. repeat constructor; cbn; tauto.
  - intros i s s' _ (Hp & Hk) (_ & Hself & Hlog).
    rewrite Hself, Hlog. split.
    + unfold boundary_self. now destruct (due _ _ _ _).
    + apply Forall_app; split; [exact Hk |].
      apply Forall_app; split; [apply unit_writes_keep | apply boundary_events_keep].
  - intros i s o s' _ (Hp & Hk) [(-> & sf & Hf & Hab) | (-> & _ & sb & Hd & Hab)].
    + destruct Hf as (done & site & n & _ & Hdone & _ & Hself & Hlog).
      destruct Hab as (_ & _ & Hl').
      exists (log sf). rewrite Hl', Hself, Hp. split; [reflexivity |].
      rewrite Hlog. apply Forall_app; split; [exact Hk |].
      apply Forall_app; split; [now apply ok_writes_keep |].
      repeat constructor; cbn; tauto.
    + destruct Hd as (Hself & Hlog). destruct Hab as (_ & _ & Hl').
      exists (log sb). rewrite Hl', Hself. split.
      * unfold boundary_self. destruct (due _ _ _ _); cbn; now rewrite Hp.
      * rewrite Hlog. apply Forall_app; split; [exact Hk |].
        apply Forall_app; split; [apply unit_writes_keep | apply boundary_events_keep].
  - intros s s' (Hp & Hk) _ Hlog. rewrite Hlog.
    apply Forall_app; split; [exact Hk |]. repeat constructor; cbn; tauto.
Qed.

(** ** The counts handed to the stream *)

Section Bounds.

Variable E : Env.
Variable N : Z.
Hypothesis HN : is_u64 N.

Lemma chunk_body_bounded i j s :
  Forall within_buffer (log s) ->
  wp (chunk_body E i j)
     (fun _ s' => Forall within_buffer (log s'))
     (fun _ s' => Forall within_buffer (log s')) s.
Proof.
  intros Hs. unfold chunk_body.
  apply wp_bind. apply write_log_spec. intros s2 _ Hw.
  assert (Hs2 : Forall within_buffer (log s2)).
  { destruct Hw as [(_ & _ & ->) | (_ & _ & _ & ->)]; grown. }
  wp_exec. destruct (s_fail (newImage s2)).
  - apply abandon_spec. intros s' (_ & _ & ->). grown.
  - exact Hs2.
Qed.

Lemma unit_body_bounded reqMiB i s :
  0 <= i < reqMiB_of N ->
  Forall within_buffer (log s) ->
  wp (unit_body E N reqMiB i)
     (fun _ s' => Forall within_buffer (log s'))
     (fun _ s' => Forall within_buffer (log s')) s.
Proof.
  intros Hi Hs. unfold unit_body. cbn zeta.
  eapply wp_seq.
  { apply (wp_chunk_loop E i (fun _ s' => Forall within_buffer (log s'))
             (fun _ s' => Forall within_buffer (log s'))
             (Z.to_nat (req4Kib_of N i)) 0 s); [| exact Hs].
    intros j s' _ Hs'. now apply chunk_body_bounded. }
  intros ? s1 Hs1; cbn beta in *.
  apply wp_seq with (Q' := fun _ s2 => Forall within_buffer (log s2)).
  - destruct (req4Kib_of N i =? 256) eqn:Hq; cbn [negb].
    + now apply wp_ret.
    + assert (Hne : req4Kib_of N i <> 256) by lia.
      destruct (tail_extent N HN i Hi Hne) as (Hsmall & _).
      apply wp_bind. apply write_log_spec. intros s2 _ Hw.
      assert (Hs2 : Forall within_buffer (log s2)).
      { destruct Hw as [(_ & _ & ->) | (_ & _ & _ & ->)];
          (apply Forall_app; split; [exact Hs1 |]); repeat constructor; exact Hsmall. }
      wp_exec. destruct (s_fail (newImage s2)).
      * apply abandon_spec. intros s' (_ & _ & ->). grown.
      * exact Hs2.
  - intros ? s2 Hs2; cbn beta in *.
    wp_exec.
    destruct (_ || _); cbn;
      (destruct (canceled_at E i);
       [ apply abandon_spec; intros s' (_ & _ & ->); cbn | cbn ]);
      grown.
Qed.

End Bounds.

Lemma run_bounded E this fs :
  is_u64 (neededSize this) ->
  Forall within_buffer (log (final E this fs)).
Proof.
  intros HN. unfold final, fileThread.
  apply (wp_run (WriteImage E (filePath this) (neededSize this))
           (fun _ s => Forall within_buffer (log s))).
  apply (wp_WriteImage E this fs (filePath this) (neededSize this)
           (fun _ s => Forall within_buffer (log s))).
  - intros _. constructor.
  - intros _ _. repeat constructor.
  - intros _ _ sf s' (_ & ok & Hlog & _) (_ & _ & ->). rewrite Hlog.
    repeat constructor.
  - intros _ _ _ _ _.
    apply wp_units_then with (Inv := fun _ s => Forall within_buffer (log s)).
    + repeat constructor.
    + intros i s' Hi Hs'. now apply unit_body_bounded.
    + intros s' Hs'. apply epilogue_spec. intros s'' _ -> _.
      apply Forall_app. split; [exact Hs' | repeat constructor].
Qed.

(** ** The bytes stored, and the progress they back *)

Section Bytes.

Variable E : Env.
Variable N : Z.
Hypothesis HN : is_u64 N.
Hypothesis Hsmall : N < 2 ^ 41.

Lemma bytes_handed_app l l' :
  bytes_handed (l ++ l') = bytes_handed l + bytes_handed l'.
Proof.
  induction l as [| e l IH]; cbn; [reflexivity |].
  fold (bytes_handed (l ++ l')) (bytes_handed l). lia.
Qed.

Lemma backed_app acc l l' :
  backed N acc (l ++ l')
  <-> backed N acc l /\ backed N (acc + bytes_handed l) l'.
Proof.
  revert acc. induction l as [| e l IH]; intros acc; cbn.
  - rewrite Z.add_0_r. tauto.
  - fold (bytes_handed l). rewrite IH.
    replace (acc + stored e + bytes_handed l)
      with (acc + (stored e + bytes_handed l)) by lia.
    tauto.
Qed.

Lemma backed_silent acc l :
  (forall v t, ~ In (EvProgress v t) l) -> backed N acc l.
Proof.
  revert acc. induction l as [| e l IH]; intros acc Hl; cbn; [exact I |].
  split.
  - destruct e; auto. exfalso. eapply Hl. left. reflexivity.
  - apply IH. intros v t Hin. apply (Hl v t). now right.
Qed.

Lemma bytes_chunk_events i n :
  bytes_handed (chunk_events i n) = Z.of_nat n * buffsize.
Proof.
  induction n as [| n IH]; [reflexivity |].
  rewrite chunk_events_S, bytes_handed_app, IH. cbn. unfold buffsize. lia.
Qed.

(** Below 2 TiB a unit stores its whole MiB, or what is left of the file. *)
Lemma bytes_unit_writes i :
  0 <= i < reqMiB_of N ->
  bytes_handed (unit_writes N i) = Z.min (2 ^ 20) (N - i * 2 ^ 20).
Proof.
  intros Hi. unfold unit_writes.
  rewrite bytes_handed_app, bytes_chunk_events.
  pose proof (req4Kib_plain N HN i Hsmall Hi) as Hq.
  pose proof (left_KiB_nonneg N HN i Hi) as Hleft. unfold left_KiB in Hleft.
  destruct (req4Kib_of N i =? 256) eqn:H256.
  - cbn. unfold buffsize. rewrite Hq in *. euclid.
  - assert (Hne : req4Kib_of N i <> 256) by lia.
    pose proof (remainingBytes_plain N HN i Hsmall Hi Hne) as Hrem.
    cbn. rewrite Hrem. unfold buffsize. rewrite Hq in *. euclid.
Qed.

Lemma unit_writes_silent i v t : ~ In (EvProgress v t) (unit_writes N i).
Proof.
  apply inert_not_In; [apply unit_writes_inert | cbn; tauto].
Qed.

Lemma bytes_boundary_events r i last :
  bytes_handed (boundary_events E r i last) = 0.
Proof.
  unfold boundary_events. destruct (due _ _ _ _); reflexivity.
Qed.

Lemma backed_boundary_events r i last acc :
  acc = Z.min ((i + 1) * 2 ^ 20) N ->
  backed N acc (boundary_events E r i last).
Proof.
  intros Hacc. unfold boundary_events.
  destruct (due _ _ _ _); cbn; rewrite ?Z.add_0_r; auto.
Qed.

Lemma fill_step r i s sb :
  0 <= i < reqMiB_of N ->
  bytes_handed (log s) = Z.min (i * 2 ^ 20) N /\ backed N 0 (log s) ->
  unit_done E N r i s sb ->
  bytes_handed (log sb) = Z.min ((i + 1) * 2 ^ 20) N /\ backed N 0 (log sb).
Proof.
  intros Hi (Hb & Hk) (_ & Hlog).
  pose proof (unit_starts_inside N HN i Hi) as Hin.
  assert (Hsum : bytes_handed (log s) + bytes_handed (unit_writes N i)
                 = Z.min ((i + 1) * 2 ^ 20) N)
    by (rewrite Hb, bytes_unit_writes by assumption; pow2; lia).
  rewrite Hlog. split.
  - rewrite !bytes_handed_app, bytes_boundary_events. lia.
  - apply backed_app. split; [exact Hk |].
    apply backed_app. split.
    + apply backed_silent. intros v t. apply unit_writes_silent.
    + apply backed_boundary_events. lia.
Qed.

End Bytes.

Lemma run_filled E this fs :
  is_u64 (neededSize this) -> 0 < neededSize this < 2 ^ 41 ->
  backed (neededSize this) 0 (log (final E this fs))
  /\ (outcome E this fs = Completed ->
      bytes_handed (log (final E this fs)) = neededSize this).
Proof.
  intros HN (Hpos & Hsmall).
  set (N := neededSize this) in *.
  assert (Hr : reqMiB_of N = ceil_MiB N).
  { apply reqMiB_ceil; [exact HN |]. change (2 ^ 41) with 2199023255552 in Hsmall.
    pow2. lia. }
  assert (Hquiet : forall (s : St) l,
             (forall v t, ~ In (EvProgress v t) l) ->
             backed N 0 (log s) -> backed N 0 (log s ++ l)).
  { intros s l Hl Hk. apply backed_app. split; [exact Hk |].
    now apply backed_silent. }
  apply (fileThread_ind E this fs
           (fun i s => bytes_handed (log s) = Z.min (i * 2 ^ 20) N
                       /\ backed N 0 (log s))
           (fun o s => backed N 0 (log s)
                       /\ (o = Completed -> bytes_handed (log s) = N)));
    cbn beta; fold N.
  - intros _. cbn. split; [exact I | discriminate].
  - intros _ _. cbn. split; [tauto | discriminate].
  - intros _ _ sf s' (_ & ok & Hlog & _) (_ & _ & ->). rewrite Hlog.
    cbn. split; [tauto | discriminate].
  - intros _ _ _. cbn. split; [lia | tauto].
  - intros i s s' Hi Hs (_ & Hdone).
    replace (reqMiB_of (neededSize this)) with (reqMiB_of N) in * by reflexivity.
    eapply fill_step; eauto.
  - intros i s o s' Hi (Hb & Hk) [(-> & sf & Hf & Hab) | (-> & _ & sb & Hd & Hab)].
    + destruct Hf as (done & site & n & _ & Hdone & _ & _ & Hlog).
      destruct Hab as (_ & _ & ->). rewrite Hlog.
      split; [| discriminate].
      rewrite <- !app_assoc. apply (Hquiet s); [| exact Hk].
      intros v t Hin. apply in_app_or in Hin. destruct Hin as [Hin | Hin].
      * revert Hin. apply inert_not_In; [now apply ok_writes_inert | cbn; tauto].
      * cbn in Hin. destruct Hin as [H | [H | [H | []]]]; discriminate.
    + replace (reqMiB_of (neededSize this)) with (reqMiB_of N) in * by reflexivity.
      destruct (fill_step E N HN Hsmall _ i s sb Hi (conj Hb Hk) Hd) as (_ & Hk').
      destruct Hab as (_ & _ & ->).
      split; [| discriminate].
      apply (Hquiet sb); [| exact Hk'].
      intros v t Hin. cbn in Hin. destruct Hin as [H | [H | []]]; discriminate.
  - intros s s' (Hb & Hk) _ ->. split.
    + apply (Hquiet s); [| exact Hk].
      intros v t Hin. cbn in Hin. destruct Hin as [H | [H | []]]; discriminate.
    + intros _. rewrite bytes_handed_app, Hb. cbn [bytes_handed fold_right stored].
      fold N. rewrite Hr. unfold ceil_MiB. clear Hr Hquiet Hb Hk.
      unfold is_u64 in HN. euclid.
Qed.

Lemma backed_at N acc before v t after :
  backed N acc (before ++ EvProgress v t :: after) ->
  acc + bytes_handed before = Z.min (v * 2 ^ 20) N.
Proof.
  revert acc. induction before as [| e l IH]; intros acc H; cbn in *.
  - destruct H as (-> & _). lia.
  - destruct H as (_ & H). apply IH in H. fold (bytes_handed l). lia.
Qed.

(** ** A run that nothing disturbs *)

Lemma sizing_offset_fits N :
  0 < N <= 2 ^ 63 -> s64 (u64 (N - 1)) = N - 1.
Proof.
  unfold s64, u64. intros HN. euclid.
Qed.

(** With a free destination and the file opened and sized, [WriteImage]
    is at its loop, in the state [entry]. *)
Lemma WriteImage_enters E this fs p N :
  fs_exists fs p = false ->
  open_ok E = true ->
  0 <= s64 (u64 (N - 1)) ->
  io_ok E SizeSeek = true -> io_ok E SizeByte = true ->
  WriteImage E p N (mkSt this fs unopened [])
  = (unit_loop E (Z.to_nat (reqMiB_of N)) N (reqMiB_of N) 0 ;; flush E ;; close E)
      (entry E this fs p (s64 (u64 (N - 1)))).
Proof.
  intros Hfs Hop Hoff Hseek Hbyte.
  unfold WriteImage.
  set (rest := unit_loop E (Z.to_nat (reqMiB_of N)) N (reqMiB_of N) 0 ;; flush E ;; close E).
  unfold bind at 1 2 3 4 5 6 7 8 9 10 11 12.
  unfold fs_exists_, open, fail, seekp, write, ret, steady_clock_now, set_lastUpdate.
  cbn. rewrite Hfs, Hop. cbn.
  replace (s64 (u64 (N - 1)) <? 0) with false by lia.
  rewrite Hseek, Hbyte. cbn. rewrite fs_put_same. unfold entry.
  destruct (io_ok E Rewind); reflexivity.
Qed.

Section Healthy.

Variable E : Env.
Hypothesis Haccept : accepting E.

Lemma chunk_body_healthy i j s :
  s_fail (newImage s) = false ->
  wp (chunk_body E i j)
     (fun _ s' => s_fail (newImage s') = false) (fun _ _ => False) s.
Proof.
  intros Hs. unfold chunk_body.
  apply wp_bind. apply write_log_spec. intros s2 _ Hw.
  destruct Hw as [([H | H] & _) | (_ & _ & Hf2 & _)].
  - congruence.
  - rewrite Haccept in H. discriminate.
  - wp_exec. now rewrite Hf2.
Qed.

Lemma unit_body_healthy N reqMiB i s :
  canceled_at E i = false ->
  s_fail (newImage s) = false ->
  wp (unit_body E N reqMiB i)
     (fun _ s' => s_fail (newImage s') = false) (fun _ _ => False) s.
Proof.
  intros Hc Hs. unfold unit_body. cbn zeta.
  eapply wp_seq.
  { apply (wp_chunk_loop E i (fun _ s' => s_fail (newImage s') = false)
             (fun _ _ => False) (Z.to_nat (req4Kib_of N i)) 0 s); [| exact Hs].
    intros j s' _ Hs'. now apply chunk_body_healthy. }
  intros ? s1 Hs1; cbn beta in *.
  apply wp_seq with (Q' := fun _ s2 => s_fail (newImage s2) = false).
  - destruct (req4Kib_of N i =? 256); cbn [negb].
    + now apply wp_ret.
    + apply wp_bind. apply write_log_spec. intros s2 _ Hw.
      destruct Hw as [([H | H] & _) | (_ & _ & Hf2 & _)].
      * congruence.
      * rewrite Haccept in H. discriminate.
      * wp_exec. now rewrite Hf2.
  - intros ? s2 Hs2; cbn beta in *.
    wp_exec. rewrite Hc. destruct (_ || _); cbn; exact Hs2.
Qed.

End Healthy.

Lemma run_undisturbed E this fs :
  0 < neededSize this <= 2 ^ 63 ->
  fs_exists fs (filePath this) = false ->
  open_ok E = true ->
  accepting E ->
  (forall i, 0 <= i < reqMiB_of (neededSize this) -> canceled_at E i = false) ->
  outcome E this fs = Completed.
Proof.
  intros HN Hfs Hop Hacc Hc.
  unfold outcome, fileThread, run.
  rewrite WriteImage_enters; auto;
    [| rewrite sizing_offset_fits by exact HN; lia].
  set (rest := unit_loop _ _ _ _ _ ;; _).
  assert (H : wp rest (fun _ _ => True) (fun _ _ => False)
                (entry E this fs (filePath this) (s64 (u64 (neededSize this - 1))))).
  { unfold rest.
    apply wp_units_then with (Inv := fun _ s => s_fail (newImage s) = false).
    - unfold entry. cbn. now rewrite Hacc.
    - intros i s' Hi Hs'. apply unit_body_healthy; auto.
    - intros s' _. apply epilogue_spec. auto. }
  unfold wp in H. destruct (rest _) as [[[] | o] s']; [reflexivity | contradiction].
Qed.

(** ** The trace of a run, unit by unit *)

Lemma chunk_events_split i j n :
  (j < n)%nat ->
  chunk_events i n
  = chunk_events i j
    ++ EvWrite (Chunk i (Z.of_nat j)) buffsize true
       :: map (fun k => EvWrite (Chunk i (Z.of_nat k)) buffsize true)
              (seq (S j) (n - S j)).
Proof.
  intros Hj. unfold chunk_events.
  replace n with (j + S (n - S j))%nat at 1 by lia.
  rewrite seq_app, map_app. reflexivity.
Qed.

Section Trace.

Variable E : Env.

(** The chunk loop of unit [i] either appends all its writes, accepted, or
    leaves at the first refused one. *)
Lemma chunk_loop_trace N i s :
  wp (chunk_loop E (Z.to_nat (req4Kib_of N i)) i 0)
     (fun _ s' => self s' = self s
                  /\ log s' = log s ++ chunk_events i (Z.to_nat (req4Kib_of N i)))
     (fun o s' => o = Errored SeekOrWriteFailure
                  /\ exists sf, unit_stopped N i s sf /\ abandons E sf s')
     s.
Proof.
  set (n := Z.to_nat (req4Kib_of N i)).
  pose (Inv := fun (j : Z) (s' : St) =>
                 self s' = self s
                 /\ log s' = log s ++ chunk_events i (Z.to_nat j)).
  eapply wp_mono;
    [ | | apply (wp_chunk_loop E i Inv
                   (fun o s' => o = Errored SeekOrWriteFailure
                                /\ exists sf, unit_stopped N i s sf
                                              /\ abandons E sf s') n 0 s) ].
  - intros _ s' (Hs & Hl). rewrite Z.add_0_l, Nat2Z.id in Hl. auto.
  - auto.
  - intros j s1 Hj (Hs & Hl). unfold chunk_body.
    apply wp_bind. apply write_log_spec. intros s2 Hs2 Hw.
    wp_exec.
    destruct Hw as [(Hcause & Hf2 & Hl2) | (Hf1 & Hio & Hf2 & Hl2)]; rewrite Hf2.
    + apply abandon_spec. intros s' Hab. split; [reflexivity |].
      exists s2. split; [| exact Hab].
      exists (chunk_events i (Z.to_nat j)), (Chunk i j), buffsize.
      eexists. repeat apply conj.
      * unfold unit_writes. fold n.
        rewrite (chunk_events_split i (Z.to_nat j) n) by lia.
        rewrite Z2Nat.id by lia. rewrite <- app_assoc. reflexivity.
      * congruence.
      * rewrite Hl2, Hl, <- app_assoc. reflexivity.
    + cbn. unfold Inv. split.
      * congruence.
      * replace (Z.to_nat (j + 1)) with (S (Z.to_nat j)) by lia.
        rewrite chunk_events_S, Hl2, Hl, <- app_assoc, Z2Nat.id by lia.
        reflexivity.
  - unfold Inv. cbn. rewrite app_nil_r. auto.
Qed.

(** A unit goes on after its writes and its boundary, or it leaves in one
    of the two ways of [unit_leaves]. *)
Lemma unit_body_trace N reqMiB i s :
  wp (unit_body E N reqMiB i)
     (fun _ s' => unit_continues E N reqMiB i s s')
     (unit_leaves E N reqMiB i s) s.
Proof.
  unfold unit_body. cbn zeta.
  eapply wp_seq.
  { eapply wp_mono; [| | apply (chunk_loop_trace N i)].
    - intros a s' H. exact H.
    - intros o s' H. left. exact H. }
  intros ? s1 (Hs1 & Hl1); cbn beta.
  apply wp_seq with
    (Q' := fun _ s2 => self s2 = self s /\ log s2 = log s ++ unit_writes N i).
  - unfold unit_writes.
    destruct (req4Kib_of N i =? 256) eqn:H256; cbn [negb].
    + apply wp_ret. rewrite app_nil_r. auto.
    + apply wp_bind. apply write_log_spec. intros s2 Hs2 Hw.
      wp_exec.
      destruct Hw as [(Hcause & Hf2 & Hl2) | (Hf & Hio & Hf2 & Hl2)]; rewrite Hf2.
      * apply abandon_spec. intros s' Hab. left. split; [reflexivity |].
        exists s2. split; [| exact Hab].
        exists (chunk_events i (Z.to_nat (req4Kib_of N i))), (Tail i),
          (remainingBytes_of N i (req4Kib_of N i)), [].
        repeat apply conj.
        -- unfold unit_writes. now rewrite H256.
        -- congruence.
        -- rewrite Hl2, Hl1, <- app_assoc. reflexivity.
      * cbn. split; [congruence |].
        rewrite Hl2, Hl1, <- app_assoc. reflexivity.
  - intros ? s2 (Hs2 & Hl2); cbn beta.
    assert (Hdone : forall sb,
               self sb = boundary_self E reqMiB i (self s2) ->
               log sb = log s2 ++ boundary_events E reqMiB i (lastUpdate (self s2)) ->
               unit_done E N reqMiB i s sb).
    { intros sb Hsb Hlb. unfold unit_done.
      rewrite Hsb, Hlb, Hl2, Hs2, <- app_assoc. auto. }
    wp_exec. unfold boundary_self, boundary_events, due in Hdone.
    destruct (_ || _); cbn;
      (destruct (canceled_at E i) eqn:Hc;
       [ apply abandon_spec; intros s' Hab; right;
         split; [reflexivity | split; [exact Hc |]];
         eexists; split; [apply Hdone | exact Hab]
       | cbn; split; [exact Hc | apply Hdone] ]);
      cbn; rewrite ?Hc, <- ?app_assoc; reflexivity.
Qed.

End Trace.

(** Induction over a run of the worker thread, as [fileThread_ind], with
    what a unit that stops at a refused write had written. *)
Lemma run_trace_ind E this fs (I : Z -> St -> Prop) (X : Outcome -> St -> Prop) :
  let p := filePath this in
  let N := neededSize this in
  let off := s64 (u64 (N - 1)) in
  let r := reqMiB_of N in
  (fs_exists fs p = true ->
   X (Errored PathAlreadyExists) (mkSt (with_errored this) fs unopened [])) ->
  (fs_exists fs p = false -> open_ok E = false ->
   X (Errored OpenFailure)
     (mkSt (with_errored this) fs (mkStream p 0 true) [EvOpen p false])) ->
  (fs_exists fs p = false -> open_ok E = true ->
   forall sf s', sizing_failed this p off sf -> abandons E sf s' ->
                 X (Errored SeekOrWriteFailure) s') ->
  (fs_exists fs p = false -> open_ok E = true -> 0 <= off ->
   I 0 (entry E this fs p off)) ->
  (forall i s s', 0 <= i < r -> I i s -> unit_continues E N r i s s' -> I (i + 1) s') ->
  (forall i s o s', 0 <= i < r -> I i s -> unit_leaves E N r i s o s' -> X o s') ->
  (forall s s', I (Z.max 0 r) s -> self s' = self s ->
                log s' = log s ++ [EvFlush (flush_ok E); EvClose (close_ok E)] ->
                X Completed s') ->
  X (outcome E this fs) (final E this fs).
Proof.
  intros p N off r Hex Hop Hsz Hentry Hstep Hexit Hend.
  unfold outcome, final, fileThread. apply wp_run. apply wp_WriteImage; auto.
  intros Hfs Hopen Hoff _ _.
  apply wp_units_then with (Inv := I); auto.
  - intros i s' Hi Hs'.
    eapply wp_mono; [| | apply unit_body_trace]; cbn beta.
    + intros _ s''. apply Hstep; auto.
    + intros o s''. apply Hexit; auto.
  - intros s' Hs'. apply epilogue_spec. intros s'' Hself Hlog _.
    eapply Hend; eauto.
Qed.

(** *** The writes of a unit in a log *)

Lemma writes_of_unit_app u l l' :
  writes_of_unit u (l ++ l') = writes_of_unit u l ++ writes_of_unit u l'.
Proof. apply filter_app. Qed.

Lemma writes_of_unit_none u l :
  Forall (fun e => of_unit u e = false) l -> writes_of_unit u l = [].
Proof.
  induction 1 as [| e l He _ IH]; [reflexivity |].
  unfold writes_of_unit in *. cbn. fold (of_unit u e). now rewrite He.
Qed.

Lemma writes_of_unit_all u l :
  Forall (fun e => of_unit u e = true) l -> writes_of_unit u l = l.
Proof.
  induction 1 as [| e l He _ IH]; [reflexivity |].
  unfold writes_of_unit in *. cbn. fold (of_unit u e). rewrite He. now f_equal.
Qed.

Lemma unit_writes_of_unit N i : Forall (fun e => of_unit i e = true) (unit_writes N i).
Proof.
  unfold unit_writes, chunk_events. apply Forall_app. split.
  - apply Forall_forall. intros e He. apply in_map_iff in He.
    destruct He as (j & <- & _). cbn. apply Z.eqb_refl.
  - destruct (_ =? 256); repeat constructor. cbn. apply Z.eqb_refl.
Qed.

Lemma of_unit_other u i e : u <> i -> of_unit i e = true -> of_unit u e = false.
Proof.
  intros Hne. destruct e as [| | [| | | j k | j] c ok | | | | | |]; cbn; try discriminate;
    intros H; apply Z.eqb_eq in H; apply Z.eqb_neq; congruence.
Qed.

Lemma unit_writes_at N i u :
  writes_of_unit u (unit_writes N i) = if u =? i then unit_writes N i else [].
Proof.
  destruct (u =? i) eqn:Hu.
  - apply Z.eqb_eq in Hu. subst u. apply writes_of_unit_all, unit_writes_of_unit.
  - apply Z.eqb_neq in Hu. apply writes_of_unit_none.
    eapply Forall_impl; [| apply unit_writes_of_unit].
    intros e. now apply of_unit_other.
Qed.

Lemma boundary_events_at E r i L u :
  writes_of_unit u (boundary_events E r i L) = [].
Proof.
  unfold boundary_events. destruct (due _ _ _ _); reflexivity.
Qed.

Lemma unit_writes_no_load N i u b : ~ In (EvCanceled u b) (unit_writes N i).
Proof.
  intros Hin. pose proof (unit_writes_of_unit N i) as H.
  rewrite Forall_forall in H. apply H in Hin. discriminate.
Qed.

Lemma boundary_events_load E r i L u b :
  In (EvCanceled u b) (boundary_events E r i L) -> u = i /\ b = canceled_at E i.
Proof.
  unfold boundary_events. intros [Heq | Hin]; [discriminate |].
  apply in_app_or in Hin. destruct Hin as [Hin | [Heq | []]].
  - destruct (due _ _ _ _); [destruct Hin as [Heq | []]; discriminate | contradiction].
  - inversion Heq. auto.
Qed.

(** What a run writes for each unit: all the writes of the unit when it
    carries the unit to its end, the writes up to a refused one when it
    stops inside the unit, nothing when it stops before. *)
Lemma run_unit_writes E this fs u :
  let N := neededSize this in
  let l := log (final E this fs) in
  0 <= u < reqMiB_of N ->
  (outcome E this fs = Completed -> writes_of_unit u l = unit_writes N u)
  /\ (forall b, In (EvCanceled u b) l -> writes_of_unit u l = unit_writes N u)
  /\ (writes_of_unit u l = unit_writes N u
      \/ (outcome E this fs <> Completed /\ writes_of_unit u l = [])
      \/ (outcome E this fs <> Completed
          /\ exists done site c rest,
               unit_writes N u = done ++ EvWrite site c true :: rest
               /\ writes_of_unit u l = done ++ [EvWrite site c false])).
Proof.
  intros N l Hu. unfold l.
  set (full := fun (i : Z) (s : St) =>
                 forall v, 0 <= v < i -> writes_of_unit v (log s) = unit_writes N v).
  apply (run_trace_ind E this fs
           (fun i s => 0 <= i
                       /\ full i s
                       /\ (forall v, i <= v -> writes_of_unit v (log s) = [])
                       /\ (forall v b, In (EvCanceled v b) (log s) -> 0 <= v < i))
           (fun o s =>
              (o = Completed -> writes_of_unit u (log s) = unit_writes N u)
              /\ (forall b, In (EvCanceled u b) (log s) ->
                            writes_of_unit u (log s) = unit_writes N u)
              /\ (writes_of_unit u (log s) = unit_writes N u
                  \/ (o <> Completed /\ writes_of_unit u (log s) = [])
                  \/ (o <> Completed
                      /\ exists done site c rest,
                           unit_writes N u = done ++ EvWrite site c true :: rest
                           /\ writes_of_unit u (log s) = done ++ [EvWrite site c false]))));
    cbn beta; fold N.
  - intros _. cbn. repeat split; try discriminate; try contradiction.
    right. left. split; [discriminate | reflexivity].
  - intros _ _. cbn. repeat split; try discriminate.
    + intros b [Heq | []]. discriminate.
    + right. left. split; [discriminate | reflexivity].
  - intros _ _ sf s' (_ & ok & Hlog & _) (_ & _ & Hl').
    rewrite Hl', Hlog. cbn. repeat split; try discriminate.
    + intros b Hin. repeat (destruct Hin as [Heq | Hin]; [discriminate |]).
      contradiction.
    + right. left. split; [discriminate | reflexivity].
  - intros _ _ _. unfold entry, full. cbn [log].
    split; [lia |]. split; [intros v Hv; lia |]. split; [reflexivity |].
    intros v b Hin. cbn in Hin.
    repeat (destruct Hin as [Heq | Hin]; [discriminate |]). contradiction.
  - intros i s s' Hi (Hi0 & Hfull & Hnone & Hloads) (_ & _ & Hlog).
    split; [lia |]. unfold full. rewrite Hlog. split; [| split].
    + intros v Hv. rewrite !writes_of_unit_app, unit_writes_at, boundary_events_at, app_nil_r.
      destruct (v =? i) eqn:Hvi.
      * apply Z.eqb_eq in Hvi. subst v. now rewrite Hnone by lia.
      * apply Z.eqb_neq in Hvi. rewrite app_nil_r. apply Hfull. lia.
    + intros v Hv. rewrite !writes_of_unit_app, unit_writes_at, boundary_events_at.
      replace (v =? i) with false by lia. rewrite Hnone by lia. reflexivity.
    + intros v b H. apply in_app_or in H. destruct H as [H | H].
      * apply Hloads in H. lia.
      * apply in_app_or in H. destruct H as [H | H].
        -- now apply unit_writes_no_load in H.
        -- apply boundary_events_load in H. lia.
  - intros i s o s' Hi (Hi0 & Hfull & Hnone & Hloads)
      [(-> & sf & Hstop & Hab) | (-> & _ & sb & Hdone & Hab)].
    + destruct Hstop as (done & site & c & rest & Hsplit & _ & Hlog).
      destruct Hab as (_ & _ & Hl').
      pose proof (unit_writes_of_unit N i) as Hall.
      rewrite Hsplit in Hall. apply Forall_app in Hall. destruct Hall as (Hd & Hrest).
      inversion Hrest as [| ? ? Hsite _]; subst.
      assert (Hstopped : Forall (fun e => of_unit i e = true)
                           (done ++ [EvWrite site c false])).
      { apply Forall_app. split; [exact Hd |]. constructor; [| constructor].
        destruct site; exact Hsite. }
      assert (Hw : forall v, writes_of_unit v (log s')
                             = writes_of_unit v (log s)
                               ++ (if v =? i then done ++ [EvWrite site c false] else [])).
      { intros v. rewrite Hl', Hlog, !writes_of_unit_app. cbn [app].
        rewrite <- writes_of_unit_app.
        replace (writes_of_unit v [EvClose (close_ok E); EvRemove (filePath (self sf))])
          with (@nil Event) by reflexivity.
        rewrite app_nil_r. f_equal.
        destruct (v =? i) eqn:Hvi.
        - apply Z.eqb_eq in Hvi. subst v. now apply writes_of_unit_all.
        - apply Z.eqb_neq in Hvi. apply writes_of_unit_none.
          eapply Forall_impl; [| exact Hstopped]. intros e. now apply of_unit_other. }
      assert (Hin : forall v b, In (EvCanceled v b) (log s') -> 0 <= v < i).
      { intros v b H. rewrite Hl', Hlog in H.
        apply in_app_or in H. destruct H as [H | H].
        - apply in_app_or in H. destruct H as [H | H]; [eauto |].
          rewrite Forall_forall in Hstopped. apply Hstopped in H. discriminate.
        - destruct H as [Heq | [Heq | []]]; discriminate. }
      split; [discriminate |]. split.
      * intros b H. apply Hin in H. rewrite Hw.
        replace (u =? i) with false by lia. rewrite app_nil_r. apply Hfull. lia.
      * rewrite Hw. destruct (Z.lt_trichotomy u i) as [Hlt | [-> | Hgt]].
        -- left. replace (u =? i) with false by lia. rewrite app_nil_r.
           apply Hfull. lia.
        -- right. right. split; [discriminate |].
           exists done, site, c, rest. rewrite Z.eqb_refl, Hnone by lia. auto.
        -- right. left. split; [discriminate |].
           replace (u =? i) with false by lia. rewrite Hnone by lia. reflexivity.
    + destruct Hdone as (_ & Hlog). destruct Hab as (_ & _ & Hl').
      assert (Hw : forall v, writes_of_unit v (log s')
                             = writes_of_unit v (log s)
                               ++ (if v =? i then unit_writes N i else [])).
      { intros v. rewrite Hl', Hlog, !writes_of_unit_app, unit_writes_at,
          boundary_events_at, app_nil_r.
        replace (writes_of_unit v [EvClose (close_ok E); EvRemove (filePath (self sb))])
          with (@nil Event) by reflexivity.
        now rewrite app_nil_r. }
      assert (Hin : forall v b, In (EvCanceled v b) (log s') -> 0 <= v <= i).
      { intros v b H. rewrite Hl', Hlog in H.
        apply in_app_or in H. destruct H as [H | H].
        - apply in_app_or in H. destruct H as [H | H]; [apply Hloads in H; lia |].
          apply in_app_or in H. destruct H as [H | H].
          + now apply unit_writes_no_load in H.
          + apply boundary_events_load in H. lia.
        - destruct H as [Heq | [Heq | []]]; discriminate. }
      assert (Hupto : forall v, 0 <= v <= i ->
                                writes_of_unit v (log s') = unit_writes N v).
      { intros v Hv. rewrite Hw. destruct (v =? i) eqn:Hvi.
        - apply Z.eqb_eq in Hvi. subst v. now rewrite Hnone by lia.
        - apply Z.eqb_neq in Hvi. rewrite app_nil_r. apply Hfull. lia. }
      split; [discriminate |]. split.
      * intros b H. apply Hin in H. now apply Hupto.
      * destruct (Z_le_gt_dec u i) as [Hle | Hgt].
        -- left. apply Hupto. lia.
        -- right. left. split; [discriminate |].
           rewrite Hw. replace (u =? i) with false by lia.
           rewrite Hnone by lia. reflexivity.
  - intros s s' (_ & Hfull & _ & _) _ Hlog.
    assert (Hw : writes_of_unit u (log s') = unit_writes N u).
    { rewrite Hlog, writes_of_unit_app.
      replace (writes_of_unit u [EvFlush (flush_ok E); EvClose (close_ok E)])
        with (@nil Event) by reflexivity.
      rewrite app_nil_r. apply Hfull. lia. }
    auto.
Qed.

(** Below 2 TiB the writes of a unit are the ones the specification counts. *)
Lemma unit_writes_spec N u :
  is_u64 N -> 0 < N < 2 ^ 41 -> 0 <= u < reqMiB_of N ->
  unit_writes N u = spec_unit_writes N u
  /\ 0 <= spec_chunks N u
  /\ (spec_chunks N u < 256 -> 0 <= spec_tail N u < buffsize).
Proof.
  intros HN HNr Hu.
  assert (Hq : req4Kib_of N u = spec_chunks N u)
    by (apply req4Kib_plain; auto; lia).
  pose proof (left_KiB_nonneg N HN u Hu) as Hleft. unfold left_KiB in Hleft.
  assert (Hpos : 0 <= spec_chunks N u) by (unfold spec_chunks; euclid).
  assert (Htail : spec_chunks N u < 256 ->
                  remainingBytes_of N u (spec_chunks N u) = spec_tail N u
                  /\ 0 <= spec_tail N u < buffsize).
  { intros Hlt.
    assert (Hne : req4Kib_of N u <> 256) by lia.
    pose proof (remainingBytes_plain N HN u (proj2 HNr) Hu Hne) as Hrem.
    pose proof (tail_extent N HN u Hu Hne) as (Hsmall & _).
    rewrite Hq in *. fold (spec_tail N u) in Hrem. split; [exact Hrem |].
    rewrite Hrem in Hsmall. split; [| exact Hsmall].
    unfold spec_tail, spec_chunks. euclid. }
  split; [| split; [exact Hpos | intros Hlt; now apply Htail]].
  assert (Hle : spec_chunks N u <= 256) by (unfold spec_chunks; lia).
  unfold unit_writes, spec_unit_writes, chunk_events. rewrite Hq. f_equal.
  destruct (spec_chunks N u =? 256) eqn:H256.
  - replace (spec_chunks N u <? 256) with false by lia. reflexivity.
  - replace (spec_chunks N u <? 256) with true by lia.
    destruct (Htail ltac:(lia)) as (-> & _). reflexivity.
Qed.

(** *** The clock and the cancel latch *)

Lemma boundary_events_now E r i L : In (EvNow (AtUnit i) (unit_time E i)) (boundary_events E r i L).
Proof. left. reflexivity. Qed.

(** The clock is read at the end of every unit the run carries to its end:
    of every unit, when the run completes. *)
Lemma run_clock E this fs :
  let r := reqMiB_of (neededSize this) in
  let l := log (final E this fs) in
  (outcome E this fs = Completed ->
   forall i, 0 <= i < r -> In (EvNow (AtUnit i) (unit_time E i)) l)
  /\ (forall i b, In (EvCanceled i b) l -> In (EvNow (AtUnit i) (unit_time E i)) l).
Proof.
  intros r l. unfold l.
  apply (run_trace_ind E this fs
           (fun i s =>
              (forall j, 0 <= j < i -> In (EvNow (AtUnit j) (unit_time E j)) (log s))
              /\ (forall j b, In (EvCanceled j b) (log s) ->
                              In (EvNow (AtUnit j) (unit_time E j)) (log s)))
           (fun o s =>
              (o = Completed ->
               forall i, 0 <= i < r -> In (EvNow (AtUnit i) (unit_time E i)) (log s))
              /\ (forall i b, In (EvCanceled i b) (log s) ->
                              In (EvNow (AtUnit i) (unit_time E i)) (log s))));
    cbn beta; fold r.
  - intros _. split; [discriminate | contradiction].
  - intros _ _. split; [discriminate |]. intros i b [Heq | []]. discriminate.
  - intros _ _ sf s' (_ & ok & Hlog & _) (_ & _ & Hl').
    split; [discriminate |]. intros i b Hin. rewrite Hl', Hlog in Hin. cbn in Hin.
    repeat (destruct Hin as [Heq | Hin]; [discriminate |]). contradiction.
  - intros _ _ _. unfold entry. cbn [log]. split; [intros j Hj; lia |].
    intros j b Hin. cbn in Hin.
    repeat (destruct Hin as [Heq | Hin]; [discriminate |]). contradiction.
  - intros i s s' Hi (Hnow & Hload) (_ & _ & Hlog). rewrite Hlog. split.
    + intros j Hj. destruct (Z.eq_dec j i) as [-> | Hne].
      * apply in_or_app. right. apply in_or_app. right. apply boundary_events_now.
      * apply in_or_app. left. apply Hnow. lia.
    + intros j b H. apply in_app_or in H. destruct H as [H | H].
      * apply in_or_app. left. eauto.
      * apply in_app_or in H. destruct H as [H | H].
        -- now apply unit_writes_no_load in H.
        -- apply boundary_events_load in H. destruct H as (-> & _).
           apply in_or_app. right. apply in_or_app. right. apply boundary_events_now.
  - intros i s o s' Hi (Hnow & Hload)
      [(-> & sf & Hstop & Hab) | (-> & _ & sb & Hdone & Hab)].
    + destruct Hstop as (done & site & c & rest & Hsplit & _ & Hlog).
      destruct Hab as (_ & _ & Hl').
      split; [discriminate |]. intros j b H. rewrite Hl', Hlog in H |- *.
      apply in_app_or in H. destruct H as [H | H].
      * apply in_app_or in H. destruct H as [H | H].
        -- apply in_or_app. left. apply in_or_app. left. eauto.
        -- exfalso. apply in_app_or in H. destruct H as [H | [Heq | []]]; [| discriminate].
           apply (unit_writes_no_load (neededSize this) i j b).
           rewrite Hsplit. apply in_or_app. now left.
      * destruct H as [Heq | [Heq | []]]; discriminate.
    + destruct Hdone as (_ & Hlog). destruct Hab as (_ & _ & Hl').
      split; [discriminate |]. intros j b H. rewrite Hl', Hlog in H |- *.
      apply in_app_or in H. destruct H as [H | H].
      * apply in_or_app. left.
        apply in_app_or in H. destruct H as [H | H].
        -- apply in_or_app. left. eauto.
        -- apply in_app_or in H. destruct H as [H | H].
           ++ now apply unit_writes_no_load in H.
           ++ apply boundary_events_load in H. destruct H as (-> & _).
              apply in_or_app. right. apply in_or_app. right. apply boundary_events_now.
      * destruct H as [Heq | [Heq | []]]; discriminate.
  - intros s s' (Hnow & Hload) _ Hlog. rewrite Hlog. split.
    + intros _ i Hi. apply in_or_app. left. apply Hnow. lia.
    + intros i b H. apply in_app_or in H. destruct H as [H | H].
      * apply in_or_app. left. eauto.
      * destruct H as [Heq | [Heq | []]]; discriminate.
Qed.








(** *** A cancellation on a stream in order *)

(** While every write of unit [i] leaves the stream good, the unit goes on
    with the stream good and the latch found clear, or it leaves because
    the latch was found set. *)
Lemma unit_body_sound E N reqMiB i s :
  (forall j, io_ok E (Chunk i j) = true) ->
  io_ok E (Tail i) = true ->
  s_fail (newImage s) = false ->
  wp (unit_body E N reqMiB i)
     (fun _ s' => s_fail (newImage s') = false /\ canceled_at E i = false)
     (fun o _ => o = Errored UserCanceled /\ canceled_at E i = true) s.
Proof.
  intros Hchunks Htail Hs. unfold unit_body. cbn zeta.
  eapply wp_seq.
  { apply (wp_chunk_loop E i (fun _ s' => s_fail (newImage s') = false)
             (fun o _ => o = Errored UserCanceled /\ canceled_at E i = true)
             (Z.to_nat (req4Kib_of N i)) 0 s); [| exact Hs].
    intros j s' _ Hs'. unfold chunk_body.
    apply wp_bind. apply write_log_spec. intros s2 _ Hw.
    destruct Hw as [([H | H] & _) | (_ & _ & Hf2 & _)].
    - congruence.
    - rewrite Hchunks in H. discriminate.
    - wp_exec. now rewrite Hf2. }
  intros ? s1 Hs1; cbn beta in *.
  apply wp_seq with (Q' := fun _ s2 => s_fail (newImage s2) = false).
  - destruct (req4Kib_of N i =? 256); cbn [negb].
    + now apply wp_ret.
    + apply wp_bind. apply write_log_spec. intros s2 _ Hw.
      destruct Hw as [([H | H] & _) | (_ & _ & Hf2 & _)].
      * congruence.
      * rewrite Htail in H. discriminate.
      * wp_exec. now rewrite Hf2.
  - intros ? s2 Hs2; cbn beta in *.
    wp_exec. destruct (canceled_at E i) eqn:Hc;
      destruct (_ || _); cbn; destruct (close_ok E); cbn; auto.
Qed.



(** *** The units a run reaches *)

Lemma wp_conj {A} (m : M A) (Q Q' : A -> St -> Prop) (R R' : Outcome -> St -> Prop) s :
  wp m Q R s -> wp m Q' R' s ->
  wp m (fun a s' => Q a s' /\ Q' a s') (fun o s' => R o s' /\ R' o s') s.
Proof.
  unfold wp. destruct (m s) as [[a | o] s']; auto.
Qed.

Lemma boundary_events_last E r i L :
  In (EvCanceled i (canceled_at E i)) (boundary_events E r i L).
Proof.
  unfold boundary_events. right. apply in_or_app. right. left. reflexivity.
Qed.

(** With the file opened and sized, the stream good up to the end of unit
    [u] and the latch clear before, the run carries unit [u] to its end:
    it loads the latch there. *)
Lemma run_reaches E this fs u :
  0 < neededSize this <= 2 ^ 63 ->
  fs_exists fs (filePath this) = false ->
  open_ok E = true ->
  accepting_to E u ->
  0 <= u < reqMiB_of (neededSize this) ->
  (forall j, 0 <= j < u -> canceled_at E j = false) ->
  In (EvCanceled u (canceled_at E u)) (log (final E this fs)).
Proof.
  intros HN Hfs Hop Hacc Hu Hclear.
  set (ev := EvCanceled u (canceled_at E u)).
  unfold final, fileThread, run.
  rewrite WriteImage_enters; auto; try (now apply Hacc);
    [| rewrite sizing_offset_fits by exact HN; lia].
  set (rest := unit_loop _ _ _ _ _ ;; _).
  assert (H : wp rest (fun _ s => In ev (log s)) (fun _ s => In ev (log s))
                (entry E this fs (filePath this) (s64 (u64 (neededSize this - 1))))).
  { unfold rest.
    apply wp_units_then
      with (Inv := fun i s => (i <= u -> s_fail (newImage s) = false)
                              /\ (u < i -> In ev (log s))).
    - unfold entry. cbn. rewrite (Hacc Rewind I). split; [reflexivity | lia].
    - intros i s' Hi (Hgood & Hseen).
      destruct (Z_le_gt_dec i u) as [Hle | Hgt].
      + eapply wp_mono;
          [| | apply wp_conj;
               [apply unit_body_sound;
                [intros j; now apply Hacc | now apply Hacc | now apply Hgood]
               | apply unit_body_trace]]; cbn beta.
        * intros _ s'' ((Hs'' & Hci) & (_ & _ & Hlog)).
          split; [intros _; exact Hs'' |]. intros Hlt.
          assert (i = u) by lia. subst i. rewrite Hlog.
          apply in_or_app. right. apply in_or_app. right. apply boundary_events_last.
        * intros o s'' ((-> & Hci) & [(Ho & _) | (_ & _ & sb & (_ & Hlog) & (_ & _ & Hl'))]);
            [discriminate |].
          destruct (Z.eq_dec i u) as [-> | Hne];
            [| rewrite Hclear in Hci by lia; discriminate].
          rewrite Hl', Hlog. apply in_or_app. left.
          apply in_or_app. right. apply in_or_app. right. apply boundary_events_last.
      + specialize (Hseen ltac:(lia)).
        eapply wp_mono; [| | apply unit_body_trace]; cbn beta.
        * intros _ s'' (_ & _ & Hlog). split; [lia |]. intros _.
          rewrite Hlog. apply in_or_app. now left.
        * intros o s''
            [(_ & sf & (done & site & c & rest' & _ & _ & Hlog) & (_ & _ & Hl'))
            | (_ & _ & sb & (_ & Hlog) & (_ & _ & Hl'))];
            rewrite Hl', Hlog; apply in_or_app; left; apply in_or_app; now left.
    - intros s' (_ & Hseen). apply epilogue_spec. intros s'' _ Hlog _.
      rewrite Hlog. apply in_or_app. left. apply Hseen. lia. }
  unfold wp in H. destruct (rest _) as [[[] | o] s']; exact H.
Qed.

(** * The claims *)

(** ** C1 *)

(** C1. For every requested size N > 0, when [WriteImage] completes (the
    loop ran to its end, and the flush and the close succeeded) the
    destination file exists, is exactly N bytes long and every byte of it is
    zero; the error latch is as it was. *)
Theorem C1_completed_image_is_zero_filled E this fs :
  is_u64 (neededSize this) -> 0 < neededSize this ->
  outcome E this fs = Completed ->
  flush_ok E = true -> close_ok E = true ->
  (exists f, disk (final E this fs) (filePath this) = Some f
             /\ f_size f = neededSize this
             /\ forall o, 0 <= o < neededSize this -> f_data f o = 0)
  /\ errored (self (final E this fs)) = errored this.
Proof.
  intros HN Hpos Hdone Hflush Hclose. split.
  - destruct (image_on_success E this fs HN Hpos Hflush Hclose Hdone)
      as (f & Hf & Hsz & Hz).
    exists f. repeat apply conj; auto. intros o Ho. apply Hz. now rewrite Hsz.
  - pose proof (run_ends E this fs) as (_ & Hend). rewrite Hdone in Hend. tauto.
Qed.

Lemma C1_witness :
  is_u64 (neededSize (request "hdd.raw" 5000))
  /\ 0 < neededSize (request "hdd.raw" 5000)
  /\ outcome quiet_env (request "hdd.raw" 5000) no_files = Completed
  /\ flush_ok quiet_env = true
  /\ close_ok quiet_env = true
  /\ (exists f,
        disk (final quiet_env (request "hdd.raw" 5000) no_files)
             (filePath (request "hdd.raw" 5000)) = Some f
        /\ f_size f = neededSize (request "hdd.raw" 5000)
        /\ forall o, 0 <= o < neededSize (request "hdd.raw" 5000) -> f_data f o = 0).
Proof.
  assert (H1 : is_u64 (neededSize (request "hdd.raw" 5000)))
    by (vm_compute; split; [discriminate | reflexivity]).
  assert (H2 : 0 < neededSize (request "hdd.raw" 5000)) by reflexivity.
  assert (H3 : outcome quiet_env (request "hdd.raw" 5000) no_files = Completed)
    by (vm_compute; reflexivity).
  exact (conj H1 (conj H2 (conj H3 (conj eq_refl (conj eq_refl
           (proj1 (C1_completed_image_is_zero_filled quiet_env
                     (request "hdd.raw" 5000) no_files H1 H2 H3 eq_refl eq_refl))))))).
Defined.

(** ** C2 *)

(** C2, as the code has it.  A run that ends with the error latch set and
    any kind other than PathAlreadyExists leaves no file at the destination;
    the kinds are those of a failed open, of a refused seek or write, and of
    a cancellation. *)
Theorem C2_error_leaves_no_file E this fs k :
  outcome E this fs = Errored k ->
  k <> PathAlreadyExists ->
  errored (self (final E this fs)) = true
  /\ disk (final E this fs) (filePath this) = None.
Proof.
  intros Ho Hk. pose proof (run_ends E this fs) as (_ & Hend).
  rewrite Ho in Hend. destruct k; try contradiction.
  - destruct Hend as (He & Hfs & Hd & _). split; auto.
    rewrite Hd. unfold fs_exists in Hfs. now destruct (fs (filePath this)).
  - tauto.
  - tauto.
Qed.

Lemma C2_witness :
  outcome canceling_env (request "hdd.raw" 5000) no_files = Errored UserCanceled
  /\ UserCanceled <> PathAlreadyExists
  /\ errored (self (final canceling_env (request "hdd.raw" 5000) no_files)) = true
  /\ disk (final canceling_env (request "hdd.raw" 5000) no_files)
          (filePath (request "hdd.raw" 5000)) = None.
Proof.
  assert (H1 : outcome canceling_env (request "hdd.raw" 5000) no_files
               = Errored UserCanceled) by (vm_compute; reflexivity).
  assert (H2 : UserCanceled <> PathAlreadyExists) by discriminate.
  exact (conj H1 (conj H2
           (C2_error_leaves_no_file canceling_env (request "hdd.raw" 5000)
              no_files UserCanceled H1 H2))).
Defined.

(** The destination exists before the call: the run ends with the error
    latch set, and the file is still there. *)
Lemma C2_counterexample :
  outcome quiet_env (request "hdd.raw" 5000) (one_file "hdd.raw")
  = Errored PathAlreadyExists
  /\ errored (self (final quiet_env (request "hdd.raw" 5000) (one_file "hdd.raw"))) = true
  /\ fs_exists (disk (final quiet_env (request "hdd.raw" 5000) (one_file "hdd.raw")))
               "hdd.raw" = true.
Proof. vm_compute. auto. Qed.

(** ** C3 *)

(** C3. When the destination exists as [WriteImage] starts, it returns at
    once with the kind PathAlreadyExists and the error latch set; it made no
    call at all (it opened, wrote and removed nothing) and the file system
    is the one it found. *)
Theorem C3_existing_path_untouched E this fs :
  fs_exists fs (filePath this) = true ->
  outcome E this fs = Errored PathAlreadyExists
  /\ errored (self (final E this fs)) = true
  /\ log (final E this fs) = []
  /\ disk (final E this fs) = fs.
Proof.
  intros Hex.
  unfold outcome, final, fileThread, run, WriteImage, bind, fs_exists_.
  cbn. rewrite Hex. cbn. auto.
Qed.

Lemma C3_witness :
  fs_exists (one_file "hdd.raw") (filePath (request "hdd.raw" 5000)) = true
  /\ outcome quiet_env (request "hdd.raw" 5000) (one_file "hdd.raw")
     = Errored PathAlreadyExists
  /\ errored (self (final quiet_env (request "hdd.raw" 5000) (one_file "hdd.raw"))) = true
  /\ log (final quiet_env (request "hdd.raw" 5000) (one_file "hdd.raw")) = []
  /\ disk (final quiet_env (request "hdd.raw" 5000) (one_file "hdd.raw"))
     = one_file "hdd.raw".
Proof.
  assert (H1 : fs_exists (one_file "hdd.raw") (filePath (request "hdd.raw" 5000)) = true)
    by (vm_compute; reflexivity).
  exact (conj H1 (C3_existing_path_untouched quiet_env (request "hdd.raw" 5000)
                    (one_file "hdd.raw") H1)).
Defined.

(** ** C4 *)

(** C4. When a write of MiB unit k (0 < k <= total units), a chunk or the
    tail, is refused, [WriteImage] ends with the kind SeekOrWriteFailure and
    the error latch set, and the file it created is removed: nothing is left
    at the destination. *)
Theorem C4_refused_write_removes_file E this fs k site count :
  0 < k <= reqMiB_of (neededSize this) ->
  site_unit site = Some (k - 1) ->
  In (EvWrite site count false) (log (final E this fs)) ->
  outcome E this fs = Errored SeekOrWriteFailure
  /\ errored (self (final E this fs)) = true
  /\ disk (final E this fs) (filePath this) = None
  /\ In (EvRemove (filePath this)) (log (final E this fs)).
Proof.
  intros Hk Hsite Hin. pose proof (run_ends E this fs) as (_ & Hend).
  assert (Hnot : ~ calm (EvWrite site count false)) by (cbn; tauto).
  destruct (outcome E this fs) as [| kind].
  - destruct Hend as (_ & Hcalm).
    rewrite Forall_forall in Hcalm. now apply Hcalm in Hin.
  - destruct kind.
    + destruct Hend as (_ & _ & _ & Hl). rewrite Hl in Hin. contradiction.
    + destruct Hend as (_ & _ & _ & Hl). rewrite Hl in Hin.
      destruct Hin as [Heq | []]. discriminate.
    + destruct Hend as (He & Hd & l & e & Hl & _ & _). repeat apply conj; auto.
      rewrite Hl. apply in_or_app. right. cbn. auto.
    + destruct Hend as (He & Hd & l & e & Hl & Hcalm & Hv). exfalso.
      rewrite Hl in Hin. apply in_app_or in Hin. destruct Hin as [Hin | Hin].
      * rewrite Forall_forall in Hcalm. now apply Hcalm in Hin.
      * destruct Hin as [-> | [Heq | [Heq | []]]];
          (discriminate || (cbn in Hv; discriminate)).
Qed.

Lemma C4_witness :
  0 < 1 <= reqMiB_of (neededSize (request "hdd.raw" 5000))
  /\ site_unit (Chunk 0 0) = Some (1 - 1)
  /\ In (EvWrite (Chunk 0 0) buffsize false)
        (log (final (refusing_env 0 0) (request "hdd.raw" 5000) no_files))
  /\ outcome (refusing_env 0 0) (request "hdd.raw" 5000) no_files
     = Errored SeekOrWriteFailure
  /\ errored (self (final (refusing_env 0 0) (request "hdd.raw" 5000) no_files)) = true
  /\ disk (final (refusing_env 0 0) (request "hdd.raw" 5000) no_files)
          (filePath (request "hdd.raw" 5000)) = None
  /\ In (EvRemove (filePath (request "hdd.raw" 5000)))
        (log (final (refusing_env 0 0) (request "hdd.raw" 5000) no_files)).
Proof.
  assert (H1 : 0 < 1 <= reqMiB_of (neededSize (request "hdd.raw" 5000)))
    by (vm_compute; split; [reflexivity | discriminate]).
  assert (H2 : site_unit (Chunk 0 0) = Some (1 - 1)) by reflexivity.
  assert (H3 : In (EvWrite (Chunk 0 0) buffsize false)
                 (log (final (refusing_env 0 0) (request "hdd.raw" 5000) no_files)))
    by (vm_compute; do 5 right; left; reflexivity).
  exact (conj H1 (conj H2 (conj H3
           (C4_refused_write_removes_file (refusing_env 0 0)
              (request "hdd.raw" 5000) no_files 1 (Chunk 0 0)
              buffsize H1 H2 H3)))).
Defined.

(** ** C5 *)

(** C5, as the code has it.  For a requested size N > 0, the values the
    worker stores in the progress counter are strictly increasing, each is
    at least 1 and at most the ceiling of N / 1 MiB, and the counter is left
    at the last of them; so the counter, which the constructor leaves at 0,
    never decreases over the run.  When moreover N <= (2^31 - 1) * 2^20, so
    that the unit count fits its signed 32-bit variable, a run that
    completes stores the ceiling of N / 1 MiB exactly once, as the last
    value. *)
Theorem C5_progress_counter E this fs :
  is_u64 (neededSize this) -> 0 < neededSize this ->
  StronglySorted Z.lt (published (log (final E this fs)))
  /\ Forall (fun v => 1 <= v <= ceil_MiB (neededSize this))
            (published (log (final E this fs)))
  /\ (written this <= 0 ->
      StronglySorted Z.le (written this :: published (log (final E this fs))))
  /\ written (self (final E this fs))
     = last (published (log (final E this fs))) (written this)
  /\ (neededSize this <= (2 ^ 31 - 1) * 2 ^ 20 ->
      outcome E this fs = Completed ->
      count_occ Z.eq_dec (published (log (final E this fs)))
                (ceil_MiB (neededSize this)) = 1%nat
      /\ last (published (log (final E this fs))) 0 = ceil_MiB (neededSize this)
      /\ written (self (final E this fs)) = ceil_MiB (neededSize this)).
Proof.
  intros HN Hpos.
  pose proof (run_counted E this fs) as (Hsort & Hbound & Hw & Hlast).
  pose proof (reqMiB_le_ceil _ HN Hpos) as Hle.
  repeat apply conj; auto.
  - eapply Forall_impl; [| exact Hbound]. cbn. intros; lia.
  - intros Hw0. apply StronglySorted_from; [exact Hsort |].
    eapply Forall_impl; [| exact Hbound]. cbn. intros; lia.
  - intros Hfit Hdone.
    pose proof (reqMiB_ceil _ HN (conj Hpos Hfit)) as Hr.
    assert (Hc : 0 < ceil_MiB (neededSize this)) by (unfold ceil_MiB; euclid).
    destruct (Hlast Hdone ltac:(lia)) as (l0 & Hl0 & Hlt).
    rewrite Hw, Hl0, Hr in *. rewrite !last_last.
    repeat apply conj; auto. now apply count_occ_last.
Qed.

Lemma C5_witness :
  is_u64 (neededSize (request "hdd.raw" 5000))
  /\ 0 < neededSize (request "hdd.raw" 5000)
  /\ neededSize (request "hdd.raw" 5000) <= (2 ^ 31 - 1) * 2 ^ 20
  /\ outcome quiet_env (request "hdd.raw" 5000) no_files = Completed
  /\ count_occ Z.eq_dec
       (published (log (final quiet_env (request "hdd.raw" 5000) no_files)))
       (ceil_MiB (neededSize (request "hdd.raw" 5000))) = 1%nat
  /\ last (published (log (final quiet_env (request "hdd.raw" 5000) no_files))) 0
     = ceil_MiB (neededSize (request "hdd.raw" 5000))
  /\ written (self (final quiet_env (request "hdd.raw" 5000) no_files))
     = ceil_MiB (neededSize (request "hdd.raw" 5000)).
Proof.
  assert (H1 : is_u64 (neededSize (request "hdd.raw" 5000)))
    by (vm_compute; split; [discriminate | reflexivity]).
  assert (H2 : 0 < neededSize (request "hdd.raw" 5000)) by reflexivity.
  assert (H3 : neededSize (request "hdd.raw" 5000) <= (2 ^ 31 - 1) * 2 ^ 20)
    by (vm_compute; discriminate).
  assert (H4 : outcome quiet_env (request "hdd.raw" 5000) no_files = Completed)
    by (vm_compute; reflexivity).
  exact (conj H1 (conj H2 (conj H3 (conj H4
           (proj2 (proj2 (proj2 (proj2
              (C5_progress_counter quiet_env (request "hdd.raw" 5000) no_files
                 H1 H2)))) H3 H4))))).
Defined.

(** Two runs against the claim.  A request for 2^51 bytes completes and
    stores nothing, as its unit count is narrowed to -2^31.  A request for
    5000 bytes with the cancel latch set stores 1, the ceiling of
    5000 / 1 MiB, and then ends with the error latch set. *)
Lemma C5_counterexample :
  (0 < neededSize (request "hdd.raw" (2 ^ 51))
   /\ outcome quiet_env (request "hdd.raw" (2 ^ 51)) no_files = Completed
   /\ published (log (final quiet_env (request "hdd.raw" (2 ^ 51)) no_files)) = []
   /\ ceil_MiB (2 ^ 51) = 2 ^ 31)
  /\ (outcome canceling_env (request "hdd.raw" 5000) no_files = Errored UserCanceled
      /\ published (log (final canceling_env (request "hdd.raw" 5000) no_files)) = [1]
      /\ ceil_MiB 5000 = 1).
Proof. vm_compute. repeat split. Qed.

(** ** C6 *)

(** C6, as the code has it.  For a requested size N with 0 < N < 2^41, so
    that N / 1024 fits the signed 32-bit variable it is narrowed to, and for
    every unit u of the loop, the counts of the code are those of the
    formulas: min(256, (N/1024 - u*1024) / 4) chunks of 4096 bytes and, when
    that count is below 256, a tail of N - (u * 1 MiB + count * 4096) bytes,
    fewer than 4096, all of them zero bytes of [buff].  A run of
    [WriteImage] that carries unit u to its end, where it loads the cancel
    latch, makes exactly these writes for the unit, in this order and all
    accepted: so does every run that completes, and every run on a free
    destination that opens the file, whose seeks and writes up to the end of
    unit u leave the stream good and whose earlier loads find the latch
    clear.  A run that stops inside unit u has made the first of these
    writes and the one that was refused; a run that stops before unit u has
    made none.  For N = 3 * 1024 * 1024 + 10 there are 4 units; a run that
    completes writes 256 chunks in each of the first three and, in the 4th,
    no chunk and a tail of 10 bytes, reports 4 as its last progress, and
    leaves a file of N zero bytes. *)
Theorem C6_writes_of_a_unit :
  (forall E this fs u,
      let N := neededSize this in
      let l := log (final E this fs) in
      is_u64 N -> 0 < N < 2 ^ 41 -> 0 <= u < reqMiB_of N ->
      req4Kib_of N u = spec_chunks N u
      /\ 0 <= spec_chunks N u <= 256
      /\ (spec_chunks N u < 256 ->
          remainingBytes_of N u (spec_chunks N u) = spec_tail N u
          /\ 0 <= spec_tail N u < buffsize)
      /\ (forall k, 0 <= k < buffsize -> buff E k = 0)
      /\ (outcome E this fs = Completed -> writes_of_unit u l = spec_unit_writes N u)
      /\ (forall b, In (EvCanceled u b) l -> writes_of_unit u l = spec_unit_writes N u)
      /\ (writes_of_unit u l = spec_unit_writes N u
          \/ (outcome E this fs <> Completed /\ writes_of_unit u l = [])
          \/ (outcome E this fs <> Completed
              /\ exists done site c rest,
                   spec_unit_writes N u = done ++ EvWrite site c true :: rest
                   /\ writes_of_unit u l = done ++ [EvWrite site c false]))
      /\ (fs_exists fs (filePath this) = false -> open_ok E = true ->
          accepting_to E u ->
          (forall j, 0 <= j < u -> canceled_at E j = false) ->
          In (EvCanceled u (canceled_at E u)) l
          /\ writes_of_unit u l = spec_unit_writes N u))
  /\ (forall E this fs,
         let N := 3 * 1024 * 1024 + 10 in
         let l := log (final E this fs) in
         neededSize this = N ->
         reqMiB_of N = 4
         /\ (forall v, 0 <= v < 3 ->
                       spec_unit_writes N v
                       = map (fun j => EvWrite (Chunk v (Z.of_nat j)) 4096 true) (seq 0 256))
         /\ spec_unit_writes N 3 = [EvWrite (Tail 3) 10 true]
         /\ (outcome E this fs = Completed ->
             (forall v, 0 <= v < 3 ->
                        writes_of_unit v l
                        = map (fun j => EvWrite (Chunk v (Z.of_nat j)) 4096 true)
                              (seq 0 256))
             /\ writes_of_unit 3 l = [EvWrite (Tail 3) 10 true]
             /\ (written this = 0 -> written (self (final E this fs)) = 4)
             /\ (flush_ok E = true -> close_ok E = true ->
                 exists f, disk (final E this fs) (filePath this) = Some f
                           /\ f_size f = N
                           /\ forall o, 0 <= o < N -> f_data f o = 0))).
Proof.
  assert (General : forall E this fs u,
             let N := neededSize this in
             let l := log (final E this fs) in
             is_u64 N -> 0 < N < 2 ^ 41 -> 0 <= u < reqMiB_of N ->
             req4Kib_of N u = spec_chunks N u
             /\ 0 <= spec_chunks N u <= 256
             /\ (spec_chunks N u < 256 ->
                 remainingBytes_of N u (spec_chunks N u) = spec_tail N u
                 /\ 0 <= spec_tail N u < buffsize)
             /\ (forall k, 0 <= k < buffsize -> buff E k = 0)
             /\ (outcome E this fs = Completed ->
                 writes_of_unit u l = spec_unit_writes N u)
             /\ (forall b, In (EvCanceled u b) l ->
                           writes_of_unit u l = spec_unit_writes N u)
             /\ (writes_of_unit u l = spec_unit_writes N u
                 \/ (outcome E this fs <> Completed /\ writes_of_unit u l = [])
                 \/ (outcome E this fs <> Completed
                     /\ exists done site c rest,
                          spec_unit_writes N u = done ++ EvWrite site c true :: rest
                          /\ writes_of_unit u l = done ++ [EvWrite site c false]))
             /\ (fs_exists fs (filePath this) = false -> open_ok E = true ->
                 accepting_to E u ->
                 (forall j, 0 <= j < u -> canceled_at E j = false) ->
                 In (EvCanceled u (canceled_at E u)) l
                 /\ writes_of_unit u l = spec_unit_writes N u)).
  { intros E this fs u N l HN HNr Hu.
    destruct (unit_writes_spec N u HN HNr Hu) as (Hspec & Hpos & Htail).
    assert (Hq : req4Kib_of N u = spec_chunks N u)
      by (apply req4Kib_plain; auto; lia).
    destruct (run_unit_writes E this fs u Hu) as (Hdone & Hload & Hany).
    fold N in Hdone, Hload, Hany. fold l in Hdone, Hload, Hany.
    rewrite Hspec in Hdone, Hload, Hany.
    split; [exact Hq |].
    split; [split; [exact Hpos | unfold spec_chunks; lia] |].
    split.
    { intros Hlt. split; [| now apply Htail].
      assert (Hne : req4Kib_of N u <> 256) by lia.
      pose proof (remainingBytes_plain N HN u (proj2 HNr) Hu Hne) as Hrem.
      now rewrite Hq in Hrem. }
    split; [intros k Hk; now apply buff_zero |].
    split; [exact Hdone |]. split; [exact Hload |]. split; [exact Hany |].
    intros Hfs Hop Hacc Hclear.
    assert (Hfit : 0 < neededSize this <= 2 ^ 63)
      by (fold N; change (2 ^ 41) with 2199023255552 in HNr; pow2; lia).
    pose proof (run_reaches E this fs u Hfit Hfs Hop Hacc Hu Hclear) as Hin.
    split; [exact Hin | now apply (Hload (canceled_at E u))]. }
  split; [exact General |].
  intros E this fs N l HN.
  assert (Hu64 : is_u64 (neededSize this))
    by (rewrite HN; vm_compute; split; [discriminate | reflexivity]).
  assert (Hr : 0 < neededSize this < 2 ^ 41)
    by (rewrite HN; vm_compute; split; reflexivity).
  assert (Hcount : reqMiB_of N = 4) by reflexivity.
  assert (Hfirst : forall v, 0 <= v < 3 ->
                     spec_unit_writes N v
                     = map (fun j => EvWrite (Chunk v (Z.of_nat j)) 4096 true)
                           (seq 0 256)).
  { intros v Hv.
    assert (Hcases : v = 0 \/ v = 1 \/ v = 2) by lia.
    destruct Hcases as [-> | [-> | ->]]; reflexivity. }
  assert (Hlast : spec_unit_writes N 3 = [EvWrite (Tail 3) 10 true]) by reflexivity.
  split; [exact Hcount |]. split; [exact Hfirst |]. split; [exact Hlast |].
  intros Hdone.
  assert (Hunit : forall v, 0 <= v < 4 -> writes_of_unit v l = spec_unit_writes N v).
  { intros v Hv.
    assert (Hv' : 0 <= v < reqMiB_of (neededSize this)) by (rewrite HN, Hcount; exact Hv).
    destruct (General E this fs v Hu64 Hr Hv') as (_ & _ & _ & _ & Hw & _).
    rewrite HN in Hw. now apply Hw. }
  split; [intros v Hv; rewrite <- Hfirst by exact Hv; apply Hunit; lia |].
  split; [rewrite <- Hlast; apply Hunit; lia |].
  split.
  - intros Hw0.
    pose proof (run_counted E this fs) as (_ & _ & Hw & Htop). cbv zeta in Htop.
    rewrite HN in Htop. fold N in Htop. rewrite Hcount in Htop.
    destruct (Htop Hdone ltac:(lia)) as (l0 & Hl0 & _).
    now rewrite Hw, Hl0, last_last.
  - intros Hflush Hclose.
    destruct (image_on_success E this fs Hu64 (proj1 Hr) Hflush Hclose Hdone)
      as (f & Hf & Hsz & Hz).
    rewrite HN in Hsz. exists f. split; [exact Hf |]. split; [exact Hsz |].
    intros o Ho. apply Hz. rewrite Hsz. exact Ho.
Qed.

Lemma C6_witness :
  is_u64 (neededSize (request "hdd.raw" (3 * 1024 * 1024 + 10)))
  /\ 0 < neededSize (request "hdd.raw" (3 * 1024 * 1024 + 10)) < 2 ^ 41
  /\ 0 <= 3 < reqMiB_of (neededSize (request "hdd.raw" (3 * 1024 * 1024 + 10)))
  /\ outcome quiet_env (request "hdd.raw" (3 * 1024 * 1024 + 10)) no_files = Completed
  /\ writes_of_unit 3
       (log (final quiet_env (request "hdd.raw" (3 * 1024 * 1024 + 10)) no_files))
     = spec_unit_writes (neededSize (request "hdd.raw" (3 * 1024 * 1024 + 10))) 3
  /\ spec_unit_writes (neededSize (request "hdd.raw" (3 * 1024 * 1024 + 10))) 3
     = [EvWrite (Tail 3) 10 true].
Proof.
  assert (H1 : is_u64 (neededSize (request "hdd.raw" (3 * 1024 * 1024 + 10))))
    by (vm_compute; split; [discriminate | reflexivity]).
  assert (H2 : 0 < neededSize (request "hdd.raw" (3 * 1024 * 1024 + 10)) < 2 ^ 41)
    by (vm_compute; split; reflexivity).
  assert (H3 : 0 <= 3 < reqMiB_of (neededSize (request "hdd.raw" (3 * 1024 * 1024 + 10))))
    by (vm_compute; split; [discriminate | reflexivity]).
  assert (H4 : outcome quiet_env (request "hdd.raw" (3 * 1024 * 1024 + 10)) no_files
               = Completed) by (vm_compute; reflexivity).
  assert (H5 : spec_unit_writes (neededSize (request "hdd.raw" (3 * 1024 * 1024 + 10))) 3
               = [EvWrite (Tail 3) 10 true]) by (vm_compute; reflexivity).
  exact (conj H1 (conj H2 (conj H3 (conj H4
           (conj (proj1 (proj2 (proj2 (proj2 (proj2
                    (proj1 C6_writes_of_a_unit quiet_env
                       (request "hdd.raw" (3 * 1024 * 1024 + 10)) no_files 3
                       H1 H2 H3))))) H4)
                 H5))))).
Defined.

(** Two runs against the claim.  For a request of 2 TiB with the cancel
    latch set, the run carries unit 0 to its end, where it loads the latch:
    the unit was asked for -2^29 chunks and wrote none, and then a tail of
    no bytes, where the formula of the claim gives 256 chunks and no tail.
    For a request of 5000 bytes whose first chunk is refused, unit 0 makes
    that one write and no tail, where the formula gives one chunk and a tail
    of 904 bytes. *)
Lemma C6_counterexample :
  (is_u64 (2 ^ 41) /\ 0 < 2 ^ 41 /\ 0 <= 0 < reqMiB_of (2 ^ 41)
   /\ spec_chunks (2 ^ 41) 0 = 256
   /\ req4Kib_of (2 ^ 41) 0 = - 2 ^ 29
   /\ log (final canceling_env (request "hdd.raw" (2 ^ 41)) no_files)
      = [EvOpen "hdd.raw" true; EvSeek SizeSeek (2 ^ 41 - 1) true;
         EvWrite SizeByte 1 true; EvNow BeforeLoop 0; EvSeek Rewind 0 true;
         EvWrite (Tail 0) 0 true; EvNow (AtUnit 0) 30000000;
         EvCanceled 0 true; EvClose true; EvRemove "hdd.raw"])
  /\ (0 <= 0 < reqMiB_of 5000
      /\ spec_unit_writes 5000 0
         = [EvWrite (Chunk 0 0) 4096 true; EvWrite (Tail 0) 904 true]
      /\ writes_of_unit 0 (log (final (refusing_env 0 0) (request "hdd.raw" 5000) no_files))
         = [EvWrite (Chunk 0 0) 4096 false]).
Proof. vm_compute. repeat split; discriminate. Qed.

(** ** C7 *)

(** C7, as the code has it.  [Start] and [WriteImage] compute the unit count
    by the same expression, so the two counts are equal for every unsigned
    64-bit size; for N > 0 they are the ceiling of N / 2^20 exactly when that
    ceiling fits the signed 32-bit variable that holds them, that is when
    N <= (2^31 - 1) * 2^20. *)
Theorem C7_unit_counts_agree N :
  is_u64 N ->
  Start_reqMiB N = reqMiB_of N
  /\ (0 < N -> (reqMiB_of N = ceil_MiB N <-> N <= (2 ^ 31 - 1) * 2 ^ 20)).
Proof.
  intros HN. split; [reflexivity |]. intros Hpos.
  unfold reqMiB_of, ceil_MiB, is_u64 in *.
  pose proof (s32_range (u64 (N + (1024 * 1024 - 1)) / (1024 * 1024))) as Hr.
  split.
  - intros Heq. rewrite Heq in Hr. euclid.
  - intros Hle. rewrite u64_small by (pow2; lia).
    rewrite s32_small by euclid. reflexivity.
Qed.

Lemma C7_witness :
  is_u64 (3 * 1024 * 1024 + 10)
  /\ Start_reqMiB (3 * 1024 * 1024 + 10) = reqMiB_of (3 * 1024 * 1024 + 10)
  /\ (0 < 3 * 1024 * 1024 + 10 ->
      (reqMiB_of (3 * 1024 * 1024 + 10) = ceil_MiB (3 * 1024 * 1024 + 10)
       <-> 3 * 1024 * 1024 + 10 <= (2 ^ 31 - 1) * 2 ^ 20)).
Proof.
  assert (H1 : is_u64 (3 * 1024 * 1024 + 10))
    by (vm_compute; split; [discriminate | reflexivity]).
  split; [exact H1 | exact (C7_unit_counts_agree (3 * 1024 * 1024 + 10) H1)].
Defined.

(** A size of 2^51 bytes: both counts are -2^31, the ceiling is 2^31. *)
Lemma C7_counterexample :
  is_u64 (2 ^ 51) /\ 0 < 2 ^ 51
  /\ Start_reqMiB (2 ^ 51) = - 2 ^ 31
  /\ reqMiB_of (2 ^ 51) = - 2 ^ 31
  /\ ceil_MiB (2 ^ 51) = 2 ^ 31
  /\ Start_reqMiB (2 ^ 51) <> ceil_MiB (2 ^ 51)
  /\ reqMiB_of (2 ^ 51) <> ceil_MiB (2 ^ 51).
Proof. vm_compute. repeat split; discriminate. Qed.

(** ** C8 *)




(** ** C9 *)

(** C9. On a steady clock, of any two progress emissions of a run the later
    comes at least 100 ms after the earlier, unless it is the emission of
    the last unit.  And at the end of every unit the run reaches, the worker
    publishes the unit's progress exactly when at least 100 ms have elapsed
    since [lastUpdate], the time of the last emission (of the start of the
    loop, before the first), or the unit is the last one.  The worker reads
    the clock at the end of every unit it carries to its end: every unit of
    a run that completes, and unit u of every run on a free destination that
    opens the file, whose seeks and writes up to the end of unit u leave the
    stream good and whose earlier loads find the cancel latch clear.  So a
    run that completes publishes the progress of its last unit, whatever
    time has elapsed. *)
Theorem C9_emissions_throttled E this fs :
  steady E ->
  ForallOrdPairs
    (fun e1 e2 => 100 * 1000000 <= snd e2 - snd e1
                  \/ fst e2 = reqMiB_of (neededSize this))
    (emissions (log (final E this fs)))
  /\ (forall i now_,
      In (EvNow (AtUnit i) now_) (log (final E this fs)) ->
      (In (EvProgress (i + 1) now_) (log (final E this fs))
       <-> 100 <= elapsed_ms now_ (last_before (lastUpdate this) i (log (final E this fs)))
           \/ i + 1 = reqMiB_of (neededSize this)))
  /\ (outcome E this fs = Completed ->
      forall i, 0 <= i < reqMiB_of (neededSize this) ->
                In (EvNow (AtUnit i) (unit_time E i)) (log (final E this fs)))
  /\ (forall i b,
        In (EvCanceled i b) (log (final E this fs)) ->
        In (EvNow (AtUnit i) (unit_time E i)) (log (final E this fs)))
  /\ (outcome E this fs = Completed ->
      0 < reqMiB_of (neededSize this) ->
      In (EvProgress (reqMiB_of (neededSize this))
                     (unit_time E (reqMiB_of (neededSize this) - 1)))
         (log (final E this fs)))
  /\ (forall u,
        0 < neededSize this <= 2 ^ 63 ->
        fs_exists fs (filePath this) = false -> open_ok E = true ->
        accepting_to E u ->
        0 <= u < reqMiB_of (neededSize this) ->
        (forall j, 0 <= j < u -> canceled_at E j = false) ->
        In (EvNow (AtUnit u) (unit_time E u)) (log (final E this fs))).
Proof.
  intros Hsteady.
  destruct (run_paced E this fs Hsteady) as (Hsp & Hthr).
  destruct (run_clock E this fs) as (Hall & Hload).
  assert (Hiff : forall i now_,
             In (EvNow (AtUnit i) now_) (log (final E this fs)) ->
             (In (EvProgress (i + 1) now_) (log (final E this fs))
              <-> 100 <= elapsed_ms now_
                           (last_before (lastUpdate this) i (log (final E this fs)))
                  \/ i + 1 = reqMiB_of (neededSize this))).
  { intros i now_ Hin. rewrite (Hthr i now_ Hin).
    unfold due. rewrite orb_true_iff, Z.geb_le, Z.eqb_eq. reflexivity. }
  split; [exact Hsp |]. split; [exact Hiff |].
  split; [exact Hall |]. split; [exact Hload |]. split.
  - intros Hdone Hpos.
    set (r := reqMiB_of (neededSize this)) in *.
    assert (Hnow : In (EvNow (AtUnit (r - 1)) (unit_time E (r - 1)))
                      (log (final E this fs))) by (apply Hall; [exact Hdone | lia]).
    apply Hiff in Hnow. replace (r - 1 + 1) with r in Hnow by lia.
    apply Hnow. right. reflexivity.
  - intros u HN Hfs Hop Hacc Hu Hclear.
    apply (Hload u (canceled_at E u)). now apply run_reaches.
Qed.

Lemma C9_witness :
  steady pacing_env
  /\ emissions (log (final pacing_env (request "hdd.raw" (5 * 1024 * 1024)) no_files))
     = [(2, 100000000); (4, 200000000); (5, 250000000)]
  /\ ForallOrdPairs
       (fun e1 e2 => 100 * 1000000 <= snd e2 - snd e1
                     \/ fst e2 = reqMiB_of (neededSize (request "hdd.raw" (5 * 1024 * 1024))))
       (emissions (log (final pacing_env (request "hdd.raw" (5 * 1024 * 1024)) no_files))).
Proof.
  assert (H1 : steady pacing_env).
  { split; [vm_compute; discriminate |]. intros i j Hij. cbn. lia. }
  assert (H2 : emissions (log (final pacing_env
                                 (request "hdd.raw" (5 * 1024 * 1024)) no_files))
               = [(2, 100000000); (4, 200000000); (5, 250000000)])
    by (vm_compute; reflexivity).
  exact (conj H1 (conj H2 (proj1 (C9_emissions_throttled pacing_env
                                    (request "hdd.raw" (5 * 1024 * 1024))
                                    no_files H1)))).
Defined.

(** ** C10 *)

(** C10. For a requested size of 0 bytes, on a free destination that can be
    opened: [WriteImage] creates the file; [reqSizeBytes - 1] wraps to
    2^64 - 1, which as a stream offset is -1, so the sizing seek fails and
    the write of the last byte after it does nothing; the worker closes the
    stream, removes the file and sets the error latch.  No file is left. *)
Theorem C10_zero_size_request E this fs :
  neededSize this = 0 ->
  fs_exists fs (filePath this) = false ->
  open_ok E = true ->
  u64 (neededSize this - 1) = 2 ^ 64 - 1
  /\ s64 (u64 (neededSize this - 1)) = -1
  /\ outcome E this fs = Errored SeekOrWriteFailure
  /\ errored (self (final E this fs)) = true
  /\ disk (final E this fs) (filePath this) = None
  /\ log (final E this fs)
     = [EvOpen (filePath this) true; EvSeek SizeSeek (-1) false;
        EvWrite SizeByte 1 false; EvClose (close_ok E);
        EvRemove (filePath this)].
Proof.
  intros HN Hfs Hop.
  assert (Hoff : s64 (u64 (neededSize this - 1)) = -1) by (rewrite HN; reflexivity).
  split; [rewrite HN; reflexivity |]. split; [exact Hoff |].
  apply (fileThread_ind E this fs (fun _ _ => False)
           (fun o s => o = Errored SeekOrWriteFailure
                       /\ errored (self s) = true
                       /\ disk s (filePath this) = None
                       /\ log s = [EvOpen (filePath this) true;
                                   EvSeek SizeSeek (-1) false;
                                   EvWrite SizeByte 1 false; EvClose (close_ok E);
                                   EvRemove (filePath this)]));
    try congruence; try contradiction.
  - intros _ _ sf s' (Hself & ok & Hlog & Hneg) (Hs' & Hdisk & Hl').
    rewrite Hoff in *. rewrite (Hneg ltac:(lia)) in Hlog.
    rewrite Hself in *. rewrite Hs', Hl', Hlog. cbn. auto.
  - intros _ _ Hge. lia.
Qed.

Lemma C10_witness :
  neededSize (request "hdd.raw" 0) = 0
  /\ fs_exists no_files (filePath (request "hdd.raw" 0)) = false
  /\ open_ok quiet_env = true
  /\ outcome quiet_env (request "hdd.raw" 0) no_files = Errored SeekOrWriteFailure
  /\ disk (final quiet_env (request "hdd.raw" 0) no_files)
          (filePath (request "hdd.raw" 0)) = None.
Proof.
  exact (conj eq_refl (conj eq_refl (conj eq_refl
           (conj (proj1 (proj2 (proj2 (C10_zero_size_request quiet_env
                                         (request "hdd.raw" 0) no_files
                                         eq_refl eq_refl eq_refl))))
                 (proj1 (proj2 (proj2 (proj2 (proj2
                    (C10_zero_size_request quiet_env (request "hdd.raw" 0) no_files
                       eq_refl eq_refl eq_refl)))))))))).
Defined.

(** ** The polling loop of [Start] *)

Section Polling.

Variable obs : Observer.
Variable r : Z.

Lemma poll_loop_exits n k :
  polling obs r (k + n) = false ->
  exists evs, poll_loop obs r (S n) k = Some evs.
Proof.
  revert k. induction n as [| n IH]; intros k Hk.
  - rewrite Nat.add_0_r in Hk. cbn. rewrite Hk. eauto.
  - change (poll_loop obs r (S (S n)) k)
      with (if polling obs r k
            then option_map (app (poll_body obs r k)) (poll_loop obs r (S n) (S k))
            else Some []).
    destruct (polling obs r k); [| eauto].
    replace (k + S n)%nat with (S k + n)%nat in Hk by lia.
    destruct (IH (S k) Hk) as (evs & ->). cbn. eauto.
Qed.

Lemma poll_loop_more fuel k evs :
  poll_loop obs r fuel k = Some evs ->
  forall more, poll_loop obs r (fuel + more) k = Some evs.
Proof.
  revert k evs. induction fuel as [| fuel IH]; intros k evs H more; [discriminate |].
  cbn in *. destruct (polling obs r k); [| exact H].
  destruct (poll_loop obs r fuel (S k)) as [tl |] eqn:Htl; [| discriminate].
  now rewrite (IH _ _ Htl).
Qed.

Lemma poll_loop_hangs :
  (forall k, polling obs r k = true) ->
  forall fuel k, poll_loop obs r fuel k = None.
Proof.
  intros Hall. induction fuel as [| fuel IH]; intros k; [reflexivity |].
  cbn. now rewrite Hall, IH.
Qed.

(** What the loop does: updates with values other than [r], cancellations
    and sleeps. *)
Lemma poll_loop_events fuel k evs :
  poll_loop obs r fuel k = Some evs ->
  Forall (fun e => match e with
                   | UiUpdate v _ t => v <> r /\ t = r
                   | UiCancel | UiSleep _ => True
                   | _ => False
                   end) evs.
Proof.
  revert k evs. induction fuel as [| fuel IH]; intros k evs H; [discriminate |].
  cbn in H. destruct (polling obs r k) eqn:Hk.
  - destruct (poll_loop obs r fuel (S k)) as [tl |] eqn:Htl; [| discriminate].
    inversion H; subst. constructor.
    + unfold polling in Hk. apply andb_true_iff in Hk. split; [lia | reflexivity].
    + apply Forall_app. split; [| eauto].
      destruct (update_at obs k); repeat constructor.
  - inversion H. constructor.
Qed.

(** The dialog is aborted at some poll of the loop exactly when the loop
    stores the cancel latch. *)
Lemma poll_loop_cancel fuel k evs :
  poll_loop obs r fuel k = Some evs ->
  (In UiCancel evs
   <-> exists j, (k <= j)%nat /\ update_at obs j = false
                 /\ forall i, (k <= i <= j)%nat -> polling obs r i = true).
Proof.
  revert k evs. induction fuel as [| fuel IH]; intros k evs H; [discriminate |].
  cbn in H. destruct (polling obs r k) eqn:Hk.
  - destruct (poll_loop obs r fuel (S k)) as [tl |] eqn:Htl; [| discriminate].
    inversion H; subst. unfold poll_body. specialize (IH _ _ Htl).
    split.
    + intros [Heq | Hin]; [discriminate |].
      apply in_app_or in Hin. destruct Hin as [Hin | Hin].
      * apply in_app_or in Hin. destruct Hin as [Hin | [Heq | []]]; [| discriminate].
        destruct (update_at obs k) eqn:Hu; [contradiction |].
        exists k. repeat split; auto. intros i Hi. now replace i with k by lia.
      * apply IH in Hin. destruct Hin as (j & Hj & Hu & Hall).
        exists j. repeat split; auto; [lia |].
        intros i Hi. destruct (Nat.eq_dec i k) as [-> | Hne]; [exact Hk |].
        apply Hall. lia.
    + intros (j & Hj & Hu & Hall). right. apply in_or_app.
      destruct (Nat.eq_dec j k) as [-> | Hne].
      * left. rewrite Hu. cbn. auto.
      * right. apply IH. exists j. repeat split; auto; [lia |].
        intros i Hi. apply Hall. lia.
  - inversion H; subst. split; [contradiction |].
    intros (j & Hj & _ & Hall). rewrite Hall in Hk by lia. discriminate.
Qed.

(** A loop that is left has done what its polls did. *)
Lemma poll_loop_polled fuel k evs :
  poll_loop obs r fuel k = Some evs -> evs = polled obs r fuel k.
Proof.
  revert k evs. induction fuel as [| fuel IH]; intros k evs H; [discriminate |].
  cbn in H |- *. destruct (polling obs r k); [| now inversion H].
  destruct (poll_loop obs r fuel (S k)) as [tl |] eqn:Htl; [| discriminate].
  inversion H; subst. now rewrite (IH _ _ Htl).
Qed.

(** Where an update of the dialog comes from, whether or not the loop is
    left. *)
Lemma polled_updates n k v sh t :
  In (UiUpdate v sh t) (polled obs r n k) ->
  exists j, (k <= j)%nat /\ polling obs r j = true
            /\ v = written_at obs j /\ sh = written_again obs j /\ t = r.
Proof.
  revert k. induction n as [| n IH]; intros k Hin; [contradiction |].
  cbn in Hin. destruct (polling obs r k) eqn:Hk; [| contradiction].
  destruct Hin as [Heq | Hin].
  - inversion Heq; subst. exists k. auto.
  - apply in_app_or in Hin. destruct Hin as [Hin | Hin].
    + apply in_app_or in Hin. destruct Hin as [Hin | [Heq | []]]; [| discriminate].
      destruct (update_at obs k); [contradiction |].
      destruct Hin as [Heq | []]. discriminate.
    + destruct (IH _ Hin) as (j & Hj & Hrest). exists j. split; [lia | exact Hrest].
Qed.

End Polling.

(** What the worker leaves in [written], against the unit count. *)
Lemma written_after_run E this fs :
  written this = 0 ->
  0 <= reqMiB_of (neededSize this) ->
  outcome E this fs = Completed ->
  written (self (final E this fs)) = reqMiB_of (neededSize this).
Proof.
  intros Hw Hr Hdone.
  pose proof (run_counted E this fs) as (_ & Hbound & Hlast & Htop).
  cbv zeta in *.
  destruct (Z.eq_dec (reqMiB_of (neededSize this)) 0) as [H0 | Hpos].
  - rewrite Hlast. rewrite H0 in *.
    destruct (published (log (final E this fs))) as [| v l]; [cbn; lia |].
    inversion Hbound; subst. lia.
  - destruct (Htop Hdone ltac:(lia)) as (l0 & Hl0 & _).
    now rewrite Hlast, Hl0, last_last.
Qed.

(** The error latch after the run, against the outcome. *)
Lemma errored_after_run E this fs :
  errored (self (final E this fs)) = true
  <-> outcome E this fs <> Completed \/ errored this = true.
Proof.
  pose proof (run_ends E this fs) as (_ & Hend).
  destruct (outcome E this fs) as [| k].
  - destruct Hend as (-> & _). split; [auto | intros [H | H]; congruence].
  - assert (He : errored (self (final E this fs)) = true)
      by (destruct k; tauto).
    rewrite He. split; [left; discriminate | reflexivity].
Qed.

(** What a load of [written] can find while the worker is at work. *)
Lemma observed_range E this fs v :
  written this = 0 ->
  v = written this \/ In v (published (log (final E this fs))) ->
  0 <= v <= Z.max 0 (reqMiB_of (neededSize this)).
Proof.
  intros Hw [-> | Hin]; [lia |].
  pose proof (run_counted E this fs) as (_ & Hbound & _).
  cbv zeta in Hbound. rewrite Forall_forall in Hbound. apply Hbound in Hin. lia.
Qed.

(** The loop of [Start] is left once the worker is seen to have returned,
    unless the worker completed a request whose unit count is negative. *)
Lemma settled_stops E this fs obs n0 :
  written this = 0 ->
  settled E this fs obs n0 ->
  outcome E this fs <> Completed \/ errored this = true
  \/ 0 <= Start_reqMiB (neededSize this) ->
  polling obs (Start_reqMiB (neededSize this)) n0 = false.
Proof.
  intros Hw Hset Hcase.
  destruct (Hset n0 (le_n _)) as (Hwr & Her).
  unfold polling. rewrite Hwr, Her.
  destruct (errored (self (final E this fs))) eqn:He; [apply andb_false_r |].
  assert (Hnot : ~ (outcome E this fs <> Completed \/ errored this = true))
    by (rewrite <- errored_after_run; congruence).
  destruct Hcase as [H | [H | Hr]]; [tauto | tauto |].
  assert (Hdone : outcome E this fs = Completed)
    by (destruct (outcome E this fs); [reflexivity | exfalso; apply Hnot; left; discriminate]).
  rewrite (written_after_run E this fs Hw Hr Hdone).
  change (Start_reqMiB (neededSize this)) with (reqMiB_of (neededSize this)).
  now rewrite Z.eqb_refl.
Qed.

(** While the worker completes a request whose unit count is negative, the
    loop of [Start] finds nothing that ends it. *)
Lemma negative_count_polls E this fs obs :
  written this = 0 -> errored this = false ->
  observes E this fs obs ->
  Start_reqMiB (neededSize this) < 0 ->
  outcome E this fs = Completed ->
  forall k, polling obs (Start_reqMiB (neededSize this)) k = true.
Proof.
  intros Hw He Hobs Hr Hdone k.
  destruct (Hobs k) as (Hv & _ & Herr).
  pose proof (observed_range E this fs _ Hw Hv) as Hrange.
  change (Start_reqMiB (neededSize this)) with (reqMiB_of (neededSize this)) in *.
  unfold polling. apply andb_true_iff. split.
  - apply negb_true_iff, Z.eqb_neq. lia.
  - apply negb_true_iff. destruct (errored_at obs k); [| reflexivity].
    destruct (Herr eq_refl) as [H | H]; [congruence |].
    apply errored_after_run in H. destruct H; congruence.
Qed.

(** What [Start] passes to the dialog at a poll made while the worker is at
    work. *)
Lemma observed_update E this fs obs j :
  written this = 0 ->
  observes E this fs obs ->
  polling obs (Start_reqMiB (neededSize this)) j = true ->
  below_maximum (Start_reqMiB (neededSize this))
    (written_at obs j) (written_again obs j) (Start_reqMiB (neededSize this)).
Proof.
  intros Hw Hobs Hj.
  destruct (Hobs j) as (Hv & Hsh & _).
  pose proof (observed_range E this fs _ Hw Hv) as Hvr.
  pose proof (observed_range E this fs _ Hw Hsh) as Hshr.
  change (reqMiB_of (neededSize this)) with (Start_reqMiB (neededSize this)) in *.
  unfold polling in Hj. apply andb_true_iff in Hj. destruct Hj as (Hne & _).
  apply negb_true_iff, Z.eqb_neq in Hne.
  unfold below_maximum. repeat split; try lia; auto.
Qed.

(** * Further properties of [WriteImage] and [Start] *)

(** ** The early returns *)

(** X1. When the destination is free and the stream cannot be opened,
    [WriteImage] sets the error latch and returns: the only call it made is
    the failed open, nothing was created or removed, and no progress was
    published. *)
Theorem X1_failed_open_touches_nothing E this fs :
  fs_exists fs (filePath this) = false ->
  open_ok E = false ->
  outcome E this fs = Errored OpenFailure
  /\ errored (self (final E this fs)) = true
  /\ written (self (final E this fs)) = written this
  /\ disk (final E this fs) = fs
  /\ log (final E this fs) = [EvOpen (filePath this) false].
Proof.
  intros Hfs Hop. unfold outcome, final, fileThread.
  apply (wp_run (WriteImage E (filePath this) (neededSize this))
           (fun o s => o = Errored OpenFailure
                       /\ errored (self s) = true
                       /\ written (self s) = written this
                       /\ disk s = fs
                       /\ log s = [EvOpen (filePath this) false])).
  apply (wp_WriteImage E this fs (filePath this) (neededSize this)
           (fun o s => o = Errored OpenFailure
                       /\ errored (self s) = true
                       /\ written (self s) = written this
                       /\ disk s = fs
                       /\ log s = [EvOpen (filePath this) false]));
    try congruence.
  intros _ _. cbn. auto.
Qed.

Lemma X1_witness :
  fs_exists no_files (filePath (request "hdd.raw" 5000)) = false
  /\ open_ok closed_env = false
  /\ outcome closed_env (request "hdd.raw" 5000) no_files = Errored OpenFailure
  /\ errored (self (final closed_env (request "hdd.raw" 5000) no_files)) = true
  /\ written (self (final closed_env (request "hdd.raw" 5000) no_files))
     = written (request "hdd.raw" 5000)
  /\ disk (final closed_env (request "hdd.raw" 5000) no_files) = no_files
  /\ log (final closed_env (request "hdd.raw" 5000) no_files)
     = [EvOpen (filePath (request "hdd.raw" 5000)) false].
Proof.
  exact (conj eq_refl (conj eq_refl
           (X1_failed_open_touches_nothing closed_env (request "hdd.raw" 5000)
              no_files eq_refl eq_refl))).
Defined.

(** X2. When the stream has failed after the sizing seek and the write of
    the last byte, [WriteImage] closes it, removes the file it has just
    created, sets the error latch and returns before it reads the clock or
    writes a chunk.  That is so when the seek or the write itself leaves
    the stream failed, and for every request of 0 bytes or of more than
    2^63 bytes: there [reqSizeBytes - 1] is a negative stream offset, which
    the seek refuses.  (A refusal of the device that the buffer of the
    stream holds back is not such a failure: [fail()] is still false at
    this check.) *)
Theorem X2_unsizable_request_leaves_nothing E this fs :
  is_u64 (neededSize this) ->
  fs_exists fs (filePath this) = false ->
  open_ok E = true ->
  neededSize this = 0 \/ 2 ^ 63 < neededSize this
  \/ io_ok E SizeSeek = false \/ io_ok E SizeByte = false ->
  outcome E this fs = Errored SeekOrWriteFailure
  /\ errored (self (final E this fs)) = true
  /\ written (self (final E this fs)) = written this
  /\ disk (final E this fs) (filePath this) = None
  /\ exists ok,
      log (final E this fs)
      = [EvOpen (filePath this) true;
         EvSeek SizeSeek (s64 (u64 (neededSize this - 1))) ok;
         EvWrite SizeByte 1 false;
         EvClose (close_ok E); EvRemove (filePath this)].
Proof.
  intros HN Hfs Hop Hwhy. unfold outcome, final, fileThread.
  apply (wp_run (WriteImage E (filePath this) (neededSize this))
           (fun o s => o = Errored SeekOrWriteFailure
                       /\ errored (self s) = true
                       /\ written (self s) = written this
                       /\ disk s (filePath this) = None
                       /\ exists ok,
                           log s = [EvOpen (filePath this) true;
                                    EvSeek SizeSeek (s64 (u64 (neededSize this - 1))) ok;
                                    EvWrite SizeByte 1 false;
                                    EvClose (close_ok E); EvRemove (filePath this)])).
  apply (wp_WriteImage E this fs (filePath this) (neededSize this)
           (fun o s => o = Errored SeekOrWriteFailure
                       /\ errored (self s) = true
                       /\ written (self s) = written this
                       /\ disk s (filePath this) = None
                       /\ exists ok,
                           log s = [EvOpen (filePath this) true;
                                    EvSeek SizeSeek (s64 (u64 (neededSize this - 1))) ok;
                                    EvWrite SizeByte 1 false;
                                    EvClose (close_ok E); EvRemove (filePath this)]));
    try congruence.
  - intros _ _ sf s' (Hself & ok & Hlog & _) (Hs' & Hdisk & Hl').
    rewrite Hself in *. rewrite Hs', Hl', Hlog. cbn.
    repeat apply conj; auto. now exists ok.
  - intros _ _ Hoff Hseek Hbyte. exfalso.
    destruct Hwhy as [H | [H | [H | H]]]; try congruence.
    + pose proof (sizing_offset_negative _ HN (or_introl H)). lia.
    + pose proof (sizing_offset_negative _ HN (or_intror H)). lia.
Qed.

Lemma X2_witness :
  is_u64 (neededSize (request "hdd.raw" (2 ^ 63 + 1)))
  /\ fs_exists no_files (filePath (request "hdd.raw" (2 ^ 63 + 1))) = false
  /\ open_ok quiet_env = true
  /\ 2 ^ 63 < neededSize (request "hdd.raw" (2 ^ 63 + 1))
  /\ outcome quiet_env (request "hdd.raw" (2 ^ 63 + 1)) no_files
     = Errored SeekOrWriteFailure.
Proof.
  assert (H1 : is_u64 (neededSize (request "hdd.raw" (2 ^ 63 + 1))))
    by (vm_compute; split; [discriminate | reflexivity]).
  assert (H2 : 2 ^ 63 < neededSize (request "hdd.raw" (2 ^ 63 + 1)))
    by (vm_compute; reflexivity).
  exact (conj H1 (conj eq_refl (conj eq_refl (conj H2
           (proj1 (X2_unsizable_request_leaves_nothing quiet_env
                     (request "hdd.raw" (2 ^ 63 + 1)) no_files H1 eq_refl eq_refl
                     (or_intror (or_introl H2)))))))).
Defined.

(** ** What the worker keeps *)

(** X3. [WriteImage] changes neither [filePath] nor [neededSize], and it
    never clears the error latch: the latch is set afterward exactly when
    the run did not complete or the latch was set before. *)
Theorem X3_error_latch_tells_the_outcome E this fs :
  filePath (self (final E this fs)) = filePath this
  /\ neededSize (self (final E this fs)) = neededSize this
  /\ (errored (self (final E this fs)) = true
      <-> outcome E this fs <> Completed \/ errored this = true).
Proof.
  pose proof (run_ends E this fs) as (Hp & Hend).
  split; [exact Hp |]. split; [apply run_keeps_size |].
  destruct (outcome E this fs) as [| k].
  - destruct Hend as (-> & _). split; [auto | intros [H | H]; congruence].
  - assert (He : errored (self (final E this fs)) = true)
      by (destruct k; tauto).
    rewrite He. split; [left; discriminate | reflexivity].
Qed.

(** X4. [WriteImage] removes a file only when it gives up after a refused
    seek or write or after a cancellation; it then removes [filePath], once,
    as its last call, right after closing the stream.  A run that completes,
    or that ends because the destination exists or cannot be opened, removes
    nothing. *)
Theorem X4_one_removal_and_only_on_failure E this fs :
  forall q before after,
    log (final E this fs) = before ++ EvRemove q :: after ->
    q = filePath this
    /\ after = []
    /\ (exists l, before = l ++ [EvClose (close_ok E)])
    /\ (forall e, In e before -> ~ is_removal e)
    /\ (outcome E this fs = Errored SeekOrWriteFailure
        \/ outcome E this fs = Errored UserCanceled).
Proof.
  intros q before after Hlog.
  pose proof (run_removals E this fs) as H.
  assert (Hno : Forall (fun e => ~ is_removal e) (log (final E this fs)) -> False).
  { intros Hk. rewrite Hlog in Hk. apply Forall_app in Hk. destruct Hk as (_ & Hk).
    inversion Hk; subst. cbn in *. tauto. }
  assert (Hyes : (exists l, log (final E this fs)
                            = l ++ [EvClose (close_ok E); EvRemove (filePath this)]
                            /\ Forall (fun e => ~ is_removal e) l) ->
                 q = filePath this /\ after = []
                 /\ (exists l, before = l ++ [EvClose (close_ok E)])
                 /\ (forall e, In e before -> ~ is_removal e)).
  { intros (l & Hl & Hk). rewrite Hlog in Hl.
    destruct after as [| a after].
    - change (l ++ [EvClose (close_ok E); EvRemove (filePath this)])
        with (l ++ [EvClose (close_ok E)] ++ [EvRemove (filePath this)]) in Hl.
      rewrite app_assoc in Hl. apply app_inj_tail in Hl. destruct Hl as (-> & Heq).
      inversion Heq; subst. repeat apply conj; eauto.
      intros e He. apply in_app_or in He. destruct He as [He | [<- | []]].
      + rewrite Forall_forall in Hk. now apply Hk.
      + cbn. tauto.
    - exfalso.
      assert (Hin : In (EvRemove q) l).
      { assert (Hin' : In (EvRemove q)
                         (removelast (l ++ [EvClose (close_ok E);
                                            EvRemove (filePath this)]))).
        { rewrite <- Hl. rewrite removelast_app by discriminate.
          apply in_or_app. right.
          change (EvRemove q :: a :: after) with ([EvRemove q] ++ a :: after).
          rewrite removelast_app by discriminate. cbn. auto. }
        rewrite removelast_app in Hin' by discriminate. cbn in Hin'.
        apply in_app_or in Hin'. destruct Hin' as [Hin' | [Heq | []]];
          [exact Hin' | discriminate]. }
      rewrite Forall_forall in Hk. apply Hk in Hin. cbn in Hin. tauto. }
  destruct (outcome E this fs) as [| k].
  - exfalso. auto.
  - destruct k.
    + exfalso. auto.
    + exfalso. auto.
    + destruct (Hyes H) as (H1 & H2 & H3 & H4). repeat apply conj; auto.
    + destruct (Hyes H) as (H1 & H2 & H3 & H4). repeat apply conj; auto.
Qed.

Lemma X4_witness :
  log (final canceling_env (request "hdd.raw" 5000) no_files)
  = [EvOpen "hdd.raw" true; EvSeek SizeSeek 4999 true; EvWrite SizeByte 1 true;
     EvNow BeforeLoop 0; EvSeek Rewind 0 true;
     EvWrite (Chunk 0 0) 4096 true; EvWrite (Tail 0) 904 true;
     EvNow (AtUnit 0) 30000000; EvProgress 1 30000000; EvCanceled 0 true;
     EvClose (close_ok canceling_env)]
    ++ EvRemove "hdd.raw" :: []
  /\ "hdd.raw" = filePath (request "hdd.raw" 5000)
  /\ (outcome canceling_env (request "hdd.raw" 5000) no_files
      = Errored SeekOrWriteFailure
      \/ outcome canceling_env (request "hdd.raw" 5000) no_files
         = Errored UserCanceled).
Proof.
  assert (H1 : log (final canceling_env (request "hdd.raw" 5000) no_files)
               = [EvOpen "hdd.raw" true; EvSeek SizeSeek 4999 true;
                  EvWrite SizeByte 1 true;
                  EvNow BeforeLoop 0; EvSeek Rewind 0 true;
                  EvWrite (Chunk 0 0) 4096 true; EvWrite (Tail 0) 904 true;
                  EvNow (AtUnit 0) 30000000; EvProgress 1 30000000;
                  EvCanceled 0 true; EvClose (close_ok canceling_env)]
                 ++ EvRemove "hdd.raw" :: [])
    by (vm_compute; reflexivity).
  pose proof (X4_one_removal_and_only_on_failure canceling_env
                (request "hdd.raw" 5000) no_files _ _ _ H1) as H.
  exact (conj H1 (conj (proj1 H) (proj2 (proj2 (proj2 (proj2 H)))))).
Defined.

(** ** What the worker hands to the stream *)

(** X5. For every unsigned 64-bit size, every write of [WriteImage] asks
    for no more than its buffer holds: one byte for the sizing write, the
    4096 bytes of [buff] for a chunk, fewer than 4096 for a tail; so every
    byte taken from [buff] is inside the array, and is zero.  That holds
    also where the narrowing to 32 bits changes the counts. *)
Theorem X5_writes_stay_within_their_buffer E this fs site c ok :
  is_u64 (neededSize this) ->
  In (EvWrite site c ok) (log (final E this fs)) ->
  match site with
  | SizeByte => c = 1
  | Chunk _ _ => c = buffsize
  | Tail _ => c < buffsize
  | _ => False
  end
  /\ forall k, 0 <= k < c -> k < buffsize /\ buff E k = 0.
Proof.
  intros HN Hin.
  pose proof (run_bounded E this fs HN) as Hb.
  rewrite Forall_forall in Hb. apply Hb in Hin. cbn in Hin.
  split; [exact Hin |]. intros k Hk.
  assert (Hlt : k < buffsize) by (destruct site; unfold buffsize in *; lia).
  split; [exact Hlt | apply buff_zero; lia].
Qed.

Lemma X5_witness :
  is_u64 (neededSize (request "hdd.raw" 5000))
  /\ In (EvWrite (Tail 0) 904 true)
        (log (final quiet_env (request "hdd.raw" 5000) no_files))
  /\ 904 < buffsize
  /\ forall k, 0 <= k < 904 -> k < buffsize /\ buff quiet_env k = 0.
Proof.
  assert (H1 : is_u64 (neededSize (request "hdd.raw" 5000)))
    by (vm_compute; split; [discriminate | reflexivity]).
  assert (H2 : In (EvWrite (Tail 0) 904 true)
                 (log (final quiet_env (request "hdd.raw" 5000) no_files)))
    by (vm_compute; do 6 right; left; reflexivity).
  exact (conj H1 (conj H2
           (X5_writes_stay_within_their_buffer quiet_env (request "hdd.raw" 5000)
              no_files (Tail 0) 904 true H1 H2))).
Defined.

(** X6. Below 2 TiB a run that completes has stored every byte of the file
    through its chunk and tail writes: their counts add up to the requested
    size, so the zero fill is written out and not left to the sizing
    write. *)
Theorem X6_completed_run_stored_every_byte E this fs :
  is_u64 (neededSize this) -> 0 < neededSize this < 2 ^ 41 ->
  outcome E this fs = Completed ->
  bytes_handed (log (final E this fs)) = neededSize this.
Proof.
  intros HN Hr Hdone. now apply (run_filled E this fs HN Hr).
Qed.

Lemma X6_witness :
  is_u64 (neededSize (request "hdd.raw" 5000))
  /\ 0 < neededSize (request "hdd.raw" 5000) < 2 ^ 41
  /\ outcome quiet_env (request "hdd.raw" 5000) no_files = Completed
  /\ bytes_handed (log (final quiet_env (request "hdd.raw" 5000) no_files))
     = neededSize (request "hdd.raw" 5000).
Proof.
  assert (H1 : is_u64 (neededSize (request "hdd.raw" 5000)))
    by (vm_compute; split; [discriminate | reflexivity]).
  assert (H2 : 0 < neededSize (request "hdd.raw" 5000) < 2 ^ 41)
    by (vm_compute; split; reflexivity).
  assert (H3 : outcome quiet_env (request "hdd.raw" 5000) no_files = Completed)
    by (vm_compute; reflexivity).
  exact (conj H1 (conj H2 (conj H3
           (X6_completed_run_stored_every_byte quiet_env (request "hdd.raw" 5000)
              no_files H1 H2 H3)))).
Defined.

(** X7. Below 2 TiB a progress report is backed by the bytes stored: when
    the worker publishes the value v, its chunk and tail writes so far have
    stored v MiB, or the whole file when that is shorter.  This holds on
    every run, also on one that fails or is cancelled later. *)
Theorem X7_progress_is_backed_by_stored_bytes E this fs before v t after :
  is_u64 (neededSize this) -> 0 < neededSize this < 2 ^ 41 ->
  log (final E this fs) = before ++ EvProgress v t :: after ->
  bytes_handed before = Z.min (v * 2 ^ 20) (neededSize this).
Proof.
  intros HN Hr Hlog.
  destruct (run_filled E this fs HN Hr) as (Hk & _).
  rewrite Hlog in Hk. apply backed_at in Hk. lia.
Qed.

Lemma X7_witness :
  is_u64 (neededSize (request "hdd.raw" 5000))
  /\ 0 < neededSize (request "hdd.raw" 5000) < 2 ^ 41
  /\ log (final canceling_env (request "hdd.raw" 5000) no_files)
     = [EvOpen "hdd.raw" true; EvSeek SizeSeek 4999 true; EvWrite SizeByte 1 true;
        EvNow BeforeLoop 0; EvSeek Rewind 0 true;
        EvWrite (Chunk 0 0) 4096 true; EvWrite (Tail 0) 904 true;
        EvNow (AtUnit 0) 30000000]
       ++ EvProgress 1 30000000
          :: [EvCanceled 0 true; EvClose true; EvRemove "hdd.raw"]
  /\ bytes_handed
       [EvOpen "hdd.raw" true; EvSeek SizeSeek 4999 true; EvWrite SizeByte 1 true;
        EvNow BeforeLoop 0; EvSeek Rewind 0 true;
        EvWrite (Chunk 0 0) 4096 true; EvWrite (Tail 0) 904 true;
        EvNow (AtUnit 0) 30000000]
     = Z.min (1 * 2 ^ 20) (neededSize (request "hdd.raw" 5000)).
Proof.
  assert (H1 : is_u64 (neededSize (request "hdd.raw" 5000)))
    by (vm_compute; split; [discriminate | reflexivity]).
  assert (H2 : 0 < neededSize (request "hdd.raw" 5000) < 2 ^ 41)
    by (vm_compute; split; reflexivity).
  assert (H3 : log (final canceling_env (request "hdd.raw" 5000) no_files)
               = [EvOpen "hdd.raw" true; EvSeek SizeSeek 4999 true;
                  EvWrite SizeByte 1 true;
                  EvNow BeforeLoop 0; EvSeek Rewind 0 true;
                  EvWrite (Chunk 0 0) 4096 true; EvWrite (Tail 0) 904 true;
                  EvNow (AtUnit 0) 30000000]
                 ++ EvProgress 1 30000000
                    :: [EvCanceled 0 true; EvClose true; EvRemove "hdd.raw"])
    by (vm_compute; reflexivity).
  exact (conj H1 (conj H2 (conj H3
           (X7_progress_is_backed_by_stored_bytes canceling_env
              (request "hdd.raw" 5000) no_files _ _ _ _ H1 H2 H3)))).
Defined.

(** ** A run that nothing disturbs *)

(** X8. For a size N with 0 < N < 2^41 and a free destination, when the
    file can be opened, every seek and every write leaves the stream good,
    and no load of the cancel latch finds it set, [WriteImage] completes and
    leaves the error latch as it was; and when the flush and the close
    succeed too, the destination holds N zero bytes. *)
Theorem X8_undisturbed_run_completes E this fs :
  0 < neededSize this < 2 ^ 41 ->
  fs_exists fs (filePath this) = false ->
  open_ok E = true ->
  (forall site, io_ok E site = true) ->
  (forall i, 0 <= i < reqMiB_of (neededSize this) -> canceled_at E i = false) ->
  outcome E this fs = Completed
  /\ errored (self (final E this fs)) = errored this
  /\ (flush_ok E = true -> close_ok E = true ->
      exists f, disk (final E this fs) (filePath this) = Some f
                /\ f_size f = neededSize this
                /\ forall o, 0 <= o < neededSize this -> f_data f o = 0).
Proof.
  intros HN Hfs Hop Hacc Hc.
  change (2 ^ 41) with 2199023255552 in HN.
  assert (Hfit : 0 < neededSize this <= 2 ^ 63) by (pow2; lia).
  assert (Hdone : outcome E this fs = Completed) by (now apply run_undisturbed).
  assert (Hu : is_u64 (neededSize this)) by (unfold is_u64; pow2; lia).
  split; [exact Hdone |]. split.
  - pose proof (run_ends E this fs) as (_ & Hend). rewrite Hdone in Hend. tauto.
  - intros Hflush Hclose.
    destruct (image_on_success E this fs Hu (proj1 HN) Hflush Hclose Hdone)
      as (f & Hf & Hsz & Hz).
    exists f. repeat apply conj; auto. intros o Ho. apply Hz. now rewrite Hsz.
Qed.

Lemma X8_witness :
  0 < neededSize (request "hdd.raw" 5000) < 2 ^ 41
  /\ fs_exists no_files (filePath (request "hdd.raw" 5000)) = false
  /\ open_ok quiet_env = true
  /\ (forall site, io_ok quiet_env site = true)
  /\ (forall i, 0 <= i < reqMiB_of (neededSize (request "hdd.raw" 5000)) ->
                canceled_at quiet_env i = false)
  /\ outcome quiet_env (request "hdd.raw" 5000) no_files = Completed.
Proof.
  assert (H1 : 0 < neededSize (request "hdd.raw" 5000) < 2 ^ 41)
    by (vm_compute; split; reflexivity).
  assert (H2 : forall site, io_ok quiet_env site = true) by reflexivity.
  assert (H3 : forall i, 0 <= i < reqMiB_of (neededSize (request "hdd.raw" 5000)) ->
                         canceled_at quiet_env i = false) by reflexivity.
  exact (conj H1 (conj eq_refl (conj eq_refl (conj H2 (conj H3
           (proj1 (X8_undisturbed_run_completes quiet_env (request "hdd.raw" 5000)
                     no_files H1 eq_refl eq_refl H2 H3))))))).
Defined.

(** ** The path the worker removes *)



(** ** [Start] and its worker *)

(** X10. At every poll the loop of [Start] makes while the worker is at
    work, whether or not the loop is ever left, the update it gives to the
    progress dialog names the unit count as the total and a value other than
    the total: a load of [written] that finds the total ends the loop
    instead.  With [written] initially 0, the value is at least 0 and below
    the count and the number shown in the message is between 0 and the
    count; when the count is negative both are 0.  The updates of a [Start]
    that returns are among these. *)
Theorem X10_dialog_is_never_given_its_maximum E this fs obs :
  written this = 0 ->
  observes E this fs obs ->
  (forall n value shown total,
      In (UiUpdate value shown total)
         (polled obs (Start_reqMiB (neededSize this)) n 0) ->
      below_maximum (Start_reqMiB (neededSize this)) value shown total)
  /\ (forall fuel evs s value shown total,
         Start_main obs E fuel this fs = Some (evs, s) ->
         In (UiUpdate value shown total) evs ->
         In (UiUpdate value shown total)
            (polled obs (Start_reqMiB (neededSize this)) fuel 0)
         /\ below_maximum (Start_reqMiB (neededSize this)) value shown total).
Proof.
  intros Hw Hobs.
  assert (Hpolled : forall n value shown total,
             In (UiUpdate value shown total)
                (polled obs (Start_reqMiB (neededSize this)) n 0) ->
             below_maximum (Start_reqMiB (neededSize this)) value shown total).
  { intros n value shown total Hin.
    destruct (polled_updates _ _ _ _ _ _ _ Hin) as (j & _ & Hj & -> & -> & ->).
    now apply (observed_update E this fs). }
  split; [exact Hpolled |].
  intros fuel evs s value shown total Hrun Hin. unfold Start_main in Hrun.
  destruct (poll_loop obs (Start_reqMiB (neededSize this)) fuel 0)
    as [done |] eqn:Hpoll; [| discriminate].
  inversion Hrun; subst evs s; clear Hrun.
  apply poll_loop_polled in Hpoll. subst done.
  assert (Hin' : In (UiUpdate value shown total)
                    (polled obs (Start_reqMiB (neededSize this)) fuel 0)).
  { destruct Hin as [Heq | [Heq | Hin]]; [discriminate | discriminate |].
    apply in_app_or in Hin. destruct Hin as [Hin | Hin]; [exact Hin |].
    exfalso. destruct Hin as [Heq | Hin]; [discriminate |].
    apply in_app_or in Hin. destruct Hin as [Hin | [Heq | [Heq | []]]];
      try discriminate.
    destruct (errored (self (final E this fs))); [| contradiction].
    destruct Hin as [Heq | []]. discriminate. }
  split; [exact Hin' | now apply (Hpolled fuel)].
Qed.

Lemma X10_witness :
  written (request "hdd.raw" (2 ^ 51)) = 0
  /\ observes quiet_env (request "hdd.raw" (2 ^ 51)) no_files early_observer
  /\ In (UiUpdate 0 0 (- 2 ^ 31))
        (polled early_observer (Start_reqMiB (neededSize (request "hdd.raw" (2 ^ 51))))
           3 0)
  /\ below_maximum (Start_reqMiB (neededSize (request "hdd.raw" (2 ^ 51))))
       0 0 (- 2 ^ 31).
Proof.
  assert (H1 : observes quiet_env (request "hdd.raw" (2 ^ 51)) no_files early_observer)
    by (intros k; split; [left; reflexivity |];
        split; [left; reflexivity | discriminate]).
  assert (H2 : In (UiUpdate 0 0 (- 2 ^ 31))
                 (polled early_observer
                    (Start_reqMiB (neededSize (request "hdd.raw" (2 ^ 51)))) 3 0))
    by (vm_compute; left; reflexivity).
  exact (conj eq_refl (conj H1 (conj H2
           (proj1 (X10_dialog_is_never_given_its_maximum quiet_env
                     (request "hdd.raw" (2 ^ 51)) no_files early_observer
                     eq_refl H1)
              3%nat 0 0 (- 2 ^ 31) H2)))).
Defined.

(** X11. [Start] leaves its polling loop and joins the worker once its loads
    find what the finished worker left, when [written] was initially 0 and
    the worker failed, or the error latch was already set, or the unit count
    is not negative.  It then returns with the state the worker left. *)
Theorem X11_start_returns_after_the_worker E this fs obs n0 :
  written this = 0 ->
  settled E this fs obs n0 ->
  outcome E this fs <> Completed \/ errored this = true
  \/ 0 <= Start_reqMiB (neededSize this) ->
  forall fuel, (n0 < fuel)%nat ->
  exists evs, Start_main obs E fuel this fs = Some (evs, final E this fs).
Proof.
  intros Hw Hset Hcase fuel Hfuel.
  pose proof (settled_stops E this fs obs n0 Hw Hset Hcase) as Hstop.
  destruct (poll_loop_exits obs (Start_reqMiB (neededSize this)) n0 0 Hstop)
    as (polled & Hpoll).
  apply poll_loop_more with (more := (fuel - S n0)%nat) in Hpoll.
  replace (S n0 + (fuel - S n0))%nat with fuel in Hpoll by lia.
  unfold Start_main. rewrite Hpoll. eauto.
Qed.

Lemma X11_witness :
  written (request "hdd.raw" 5000) = 0
  /\ settled quiet_env (request "hdd.raw" 5000) no_files
       (late_observer quiet_env (request "hdd.raw" 5000) no_files) 0
  /\ 0 <= Start_reqMiB (neededSize (request "hdd.raw" 5000))
  /\ exists evs,
       Start_main (late_observer quiet_env (request "hdd.raw" 5000) no_files)
         quiet_env 1 (request "hdd.raw" 5000) no_files
       = Some (evs, final quiet_env (request "hdd.raw" 5000) no_files).
Proof.
  assert (H1 : settled quiet_env (request "hdd.raw" 5000) no_files
                 (late_observer quiet_env (request "hdd.raw" 5000) no_files) 0)
    by (intros k _; split; reflexivity).
  assert (H2 : 0 <= Start_reqMiB (neededSize (request "hdd.raw" 5000)))
    by (vm_compute; discriminate).
  exact (conj eq_refl (conj H1 (conj H2
           (X11_start_returns_after_the_worker quiet_env (request "hdd.raw" 5000)
              no_files _ 0%nat eq_refl H1 (or_intror (or_intror H2)) 1%nat
              (Nat.lt_0_succ 0))))).
Defined.

(** X12. When the unit count [Start] computes is negative (the request is
    of about 2 PiB or more) and the worker completes, [Start] never leaves
    its polling loop: with [written] initially 0 and the error latch clear,
    no load finds [written] equal to the count or the latch set, however
    many polls are made. *)
Theorem X12_negative_unit_count_polls_forever E this fs obs :
  written this = 0 -> errored this = false ->
  observes E this fs obs ->
  Start_reqMiB (neededSize this) < 0 ->
  outcome E this fs = Completed ->
  forall fuel, Start_main obs E fuel this fs = None.
Proof.
  intros Hw He Hobs Hr Hdone fuel. unfold Start_main.
  now rewrite (poll_loop_hangs obs _
                 (negative_count_polls E this fs obs Hw He Hobs Hr Hdone)).
Qed.

Lemma X12_witness :
  observes quiet_env (request "hdd.raw" (2 ^ 51)) no_files early_observer
  /\ Start_reqMiB (neededSize (request "hdd.raw" (2 ^ 51))) < 0
  /\ outcome quiet_env (request "hdd.raw" (2 ^ 51)) no_files = Completed
  /\ forall fuel,
       Start_main early_observer quiet_env fuel (request "hdd.raw" (2 ^ 51)) no_files
       = None.
Proof.
  assert (H1 : observes quiet_env (request "hdd.raw" (2 ^ 51)) no_files early_observer)
    by (intros k; split; [left; reflexivity |];
        split; [left; reflexivity | discriminate]).
  assert (H2 : Start_reqMiB (neededSize (request "hdd.raw" (2 ^ 51))) < 0)
    by (vm_compute; reflexivity).
  assert (H3 : outcome quiet_env (request "hdd.raw" (2 ^ 51)) no_files = Completed)
    by (vm_compute; reflexivity).
  exact (conj H1 (conj H2 (conj H3
           (X12_negative_unit_count_polls_forever quiet_env
              (request "hdd.raw" (2 ^ 51)) no_files early_observer
              eq_refl eq_refl H1 H2 H3)))).
Defined.

(** X13. A [Start] that returns, entered with the error latch clear, shows
    the failure dialog exactly when the worker did not complete; it shows it
    after joining the worker and before deleting the progress dialog, and
    signals completion last. *)
Theorem X13_failure_dialog_tells_the_outcome E this fs obs fuel evs s :
  errored this = false ->
  Start_main obs E fuel this fs = Some (evs, s) ->
  (In UiFailed evs <-> outcome E this fs <> Completed)
  /\ exists before,
       ~ In UiFailed before /\ ~ In UiJoin before
       /\ evs = before ++ UiJoin
                :: (if errored (self s) then [UiFailed] else [])
                ++ [UiDelete; UiCompleted].
Proof.
  intros He Hrun. unfold Start_main in Hrun.
  destruct (poll_loop obs (Start_reqMiB (neededSize this)) fuel 0)
    as [polled |] eqn:Hpoll; [| discriminate].
  inversion Hrun; subst evs s; clear Hrun.
  pose proof (poll_loop_events _ _ _ _ _ Hpoll) as Hev.
  rewrite Forall_forall in Hev.
  assert (Hlatch : errored (self (final E this fs)) = true
                   <-> outcome E this fs <> Completed).
  { rewrite errored_after_run. split; [intros [H | H]; congruence | auto]. }
  split.
  - rewrite <- Hlatch. split.
    + intros [Heq | [Heq | Hin]]; [discriminate | discriminate |].
      apply in_app_or in Hin. destruct Hin as [Hin | Hin].
      * apply Hev in Hin. contradiction.
      * destruct Hin as [Heq | Hin]; [discriminate |].
        destruct (errored (self (final E this fs))); [reflexivity |].
        destruct Hin as [Heq | [Heq | []]]; discriminate.
    + intros ->. do 2 right. apply in_or_app. right. right. left. reflexivity.
  - exists ([UiDialog (Start_reqMiB (neededSize this));
             UiSpawn (filePath this) (neededSize this)] ++ polled).
    split; [| split].
    + intros [Heq | [Heq | Hin]]; [discriminate | discriminate |].
      apply Hev in Hin. contradiction.
    + intros [Heq | [Heq | Hin]]; [discriminate | discriminate |].
      apply Hev in Hin. contradiction.
    + now rewrite <- app_assoc.
Qed.

Lemma X13_witness :
  errored (request "hdd.raw" 5000) = false
  /\ Start_main (late_observer (refusing_env 0 0) (request "hdd.raw" 5000) no_files)
       (refusing_env 0 0) 1 (request "hdd.raw" 5000) no_files
     = Some ([UiDialog 1; UiSpawn "hdd.raw" 5000; UiJoin; UiFailed; UiDelete;
              UiCompleted],
             final (refusing_env 0 0) (request "hdd.raw" 5000) no_files)
  /\ (In UiFailed [UiDialog 1; UiSpawn "hdd.raw" 5000; UiJoin; UiFailed; UiDelete;
                   UiCompleted]
      <-> outcome (refusing_env 0 0) (request "hdd.raw" 5000) no_files <> Completed).
Proof.
  assert (H1 : Start_main
                 (late_observer (refusing_env 0 0) (request "hdd.raw" 5000) no_files)
                 (refusing_env 0 0) 1 (request "hdd.raw" 5000) no_files
               = Some ([UiDialog 1; UiSpawn "hdd.raw" 5000; UiJoin; UiFailed; UiDelete;
                        UiCompleted],
                       final (refusing_env 0 0) (request "hdd.raw" 5000) no_files))
    by (vm_compute; reflexivity).
  exact (conj eq_refl (conj H1
           (proj1 (X13_failure_dialog_tells_the_outcome (refusing_env 0 0)
                     (request "hdd.raw" 5000) no_files _ _ _ _ eq_refl H1)))).
Defined.

(** X14. A [Start] that returns has stored the cancel latch exactly when the
    dialog was aborted at a poll its loop made; an abort that comes after
    the poll that ends the loop is not stored. *)
Theorem X14_cancel_is_stored_only_inside_the_loop E this fs obs fuel evs s :
  Start_main obs E fuel this fs = Some (evs, s) ->
  (In UiCancel evs
   <-> exists j, update_at obs j = false
                 /\ forall i, (i <= j)%nat ->
                              polling obs (Start_reqMiB (neededSize this)) i = true).
Proof.
  intros Hrun. unfold Start_main in Hrun.
  destruct (poll_loop obs (Start_reqMiB (neededSize this)) fuel 0)
    as [polled |] eqn:Hpoll; [| discriminate].
  inversion Hrun; subst evs s; clear Hrun.
  pose proof (poll_loop_cancel _ _ _ _ _ Hpoll) as Hc.
  split.
  - intros [Heq | [Heq | Hin]]; [discriminate | discriminate |].
    apply in_app_or in Hin. destruct Hin as [Hin | Hin].
    + apply Hc in Hin. destruct Hin as (j & _ & Hu & Hall).
      exists j. split; [exact Hu |]. intros i Hi. apply Hall. lia.
    + destruct Hin as [Heq | Hin]; [discriminate |].
      destruct (errored (self (final E this fs)));
        [destruct Hin as [Heq | [Heq | [Heq | []]]]
        | destruct Hin as [Heq | [Heq | []]]]; discriminate.
  - intros (j & Hu & Hall). do 2 right. apply in_or_app. left.
    apply Hc. exists j. split; [lia |]. split; [exact Hu |].
    intros i Hi. apply Hall. lia.
Qed.

Lemma X14_witness :
  Start_main (slow_observer quiet_env (request "hdd.raw" 5000) no_files)
    quiet_env 2 (request "hdd.raw" 5000) no_files
  = Some ([UiDialog 1; UiSpawn "hdd.raw" 5000; UiUpdate 0 0 1; UiCancel;
           UiSleep 50; UiJoin; UiDelete; UiCompleted],
          final quiet_env (request "hdd.raw" 5000) no_files)
  /\ (In UiCancel [UiDialog 1; UiSpawn "hdd.raw" 5000; UiUpdate 0 0 1; UiCancel;
                   UiSleep 50; UiJoin; UiDelete; UiCompleted]
      <-> exists j,
            update_at (slow_observer quiet_env (request "hdd.raw" 5000) no_files) j
            = false
            /\ forall i, (i <= j)%nat ->
                 polling (slow_observer quiet_env (request "hdd.raw" 5000) no_files)
                   (Start_reqMiB (neededSize (request "hdd.raw" 5000))) i = true).
Proof.
  assert (H1 : Start_main (slow_observer quiet_env (request "hdd.raw" 5000) no_files)
                 quiet_env 2 (request "hdd.raw" 5000) no_files
               = Some ([UiDialog 1; UiSpawn "hdd.raw" 5000; UiUpdate 0 0 1; UiCancel;
                        UiSleep 50; UiJoin; UiDelete; UiCompleted],
                       final quiet_env (request "hdd.raw" 5000) no_files))
    by (vm_compute; reflexivity).
  exact (conj H1
           (X14_cancel_is_stored_only_inside_the_loop quiet_env
              (request "hdd.raw" 5000) no_files _ _ _ _ H1)).
Defined.
